(** * Cops and Robbers engine: a shallow embedding and its properties

    The development follows the layout of the Python sources:
    - [GameStatus]   : shared/status.py and the status property of shared/game.py
    - [Outcome]      : results of calls that may raise or run on
    - [Zobrist]      : engine/modules/minimax/zobrist.py
    - [AlphaBeta]    : engine/modules/minimax/alpha_beta.py
    - [Graphs]       : the part of networkx.Graph the engine relies on
    - [Search]       : engine/modules/util/search.py
    - [Engine]       : engine/modules/minimax/engine.py
    - [Cops]         : engine/cops.py
    - [Pooling]      : engine/modules/abstraction/pooling.py
    - [Abstraction]  : engine/modules/abstraction/graph.py and hierarchy.py

    Python integers are [Z] (indices and counters that cannot be negative
    are [nat]), lists are [list], dictionaries are [gmap] or, where the
    insertion order is observable, association lists, sets are [gset],
    numpy arrays are lists read with stdpp's lookup and written with its
    insert.  A raised exception is [None] (or [Raise]).  Floats cannot be
    embedded exactly: game values, time stamps and proportions are exact
    rationals [Q], and the float metric of the pooling heap is a parameter.
    Library code (networkx's A-star search, the iteration order of a Python
    set) is a parameter with its contract as a hypothesis. *)

From Stdlib Require Import ZArith QArith Qround Lia Lqa.
From stdpp Require Import base option list gmap sorting.

Local Open Scope Z_scope.

(* ===================================================================== *)
(** * shared/status.py, shared/game.py: the status of a match             *)
(* ===================================================================== *)

Module GameStatus.

(** [class Status(IntEnum)] *)
Inductive Status : Set :=
  | COPS_EXCEPTION
  | COPS_TIMEOUT
  | COPS_INVALID_STEP
  | COPS_OUT_OF_STEPS
  | GAME_CONTINUES
  | ROBBER_CAUGHT
  | ROBBER_INVALID_STEP
  | ROBBER_TIMEOUT
  | ROBBER_EXCEPTION.

(** The integer carried by each member of the enumeration. *)
Definition status_value (s : Status) : Z :=
  match s with
  | COPS_EXCEPTION => -4
  | COPS_TIMEOUT => -3
  | COPS_INVALID_STEP => -2
  | COPS_OUT_OF_STEPS => -1
  | GAME_CONTINUES => 0
  | ROBBER_CAUGHT => 1
  | ROBBER_INVALID_STEP => 2
  | ROBBER_TIMEOUT => 3
  | ROBBER_EXCEPTION => 4
  end.

#[global] Instance Status_eq_dec : EqDecision Status.
Proof. solve_decision. Defined.

(** The part of a [Game] object that the status property touches: the
    private field [__status], next to the round counter of the match. *)
Record Game : Set := {
  round_number : Z;
  status : Status
}.

(** [Game.__init__] sets [self.__status = Status.GAME_CONTINUES]. *)
Definition new_game : Game :=
  {| round_number := 0; status := GAME_CONTINUES |}.

(** [@status.setter]:
    [if self.__status is Status.GAME_CONTINUES: self.__status = status] *)
Definition set_status (g : Game) (s : Status) : Game :=
  if decide (status g = GAME_CONTINUES)
  then {| round_number := round_number g; status := s |}
  else g.

(** A run of assignments [game.status = s1; game.status = s2; ...]. *)
Definition set_statuses (g : Game) (l : list Status) : Game :=
  fold_left set_status l g.

(** [Game.result] *)
Definition result (g : Game) : Z :=
  if decide (status_value (status g) = 0) then 0
  else if decide (1 <= status_value (status g)) then 1 else -1.

Lemma set_status_running g s :
  status g = GAME_CONTINUES -> status (set_status g s) = s.
Proof. intros H. unfold set_status. rewrite decide_True by done. done. Qed.

Lemma set_status_finished g s :
  status g <> GAME_CONTINUES -> set_status g s = g.
Proof. intros H. unfold set_status. by rewrite decide_False. Qed.

Lemma set_statuses_finished g l :
  status g <> GAME_CONTINUES -> set_statuses g l = g.
Proof.
  revert g. induction l as [|s l IH]; intros g H; simpl; [done|].
  unfold set_statuses in *. simpl. rewrite set_status_finished by done.
  by apply IH.
Qed.

(** C10. Once the status of a game differs from [GAME_CONTINUES], an
    assignment to the status property changes nothing: neither one
    assignment nor any later run of assignments overwrites the first
    terminal status (and the rest of the game object is untouched). *)
Theorem status_final_once_terminal (g : Game) (s : Status) (later : list Status) :
  status g <> GAME_CONTINUES ->
  status (set_status g s) = status g /\
  set_status g s = g /\
  status (set_statuses g later) = status g.
Proof.
  intros H. rewrite set_status_finished by done.
  rewrite set_statuses_finished by done. done.
Qed.

(** The first terminal status that is assigned to a running game sticks. *)
Lemma first_terminal_status_sticks (s : Status) (later : list Status) :
  s <> GAME_CONTINUES ->
  status (set_statuses new_game (s :: later)) = s.
Proof.
  intros H. unfold set_statuses. simpl.
  change (fold_left set_status later (set_status new_game s))
    with (set_statuses (set_status new_game s) later).
  rewrite set_statuses_finished; by rewrite set_status_running.
Qed.

Lemma status_final_once_terminal_witness :
  status {| round_number := 3; status := ROBBER_CAUGHT |} <> GAME_CONTINUES /\
  status (set_statuses {| round_number := 3; status := ROBBER_CAUGHT |}
            [COPS_OUT_OF_STEPS; GAME_CONTINUES; ROBBER_TIMEOUT]) = ROBBER_CAUGHT.
Proof.
  split; [discriminate|].
  exact (proj2 (proj2 (status_final_once_terminal
    {| round_number := 3; status := ROBBER_CAUGHT |} COPS_INVALID_STEP
    [COPS_OUT_OF_STEPS; GAME_CONTINUES; ROBBER_TIMEOUT]
    ltac:(discriminate)))).
Defined.

End GameStatus.

(* ===================================================================== *)
(** * Calls that may raise or run on                                      *)
(* ===================================================================== *)

Module Outcome.

(** What a call does: it returns a value, raises an exception, or has
    not finished within the recursion budget of the model. *)
Inductive outcome (A : Type) : Type :=
  | Return (a : A)
  | Raise
  | OutOfFuel.
Arguments Return {A} a.
Arguments Raise {A}.
Arguments OutOfFuel {A}.

End Outcome.

(* ===================================================================== *)
(** * engine/modules/minimax/zobrist.py                                   *)
(* ===================================================================== *)

Module Zobrist.

(** [Move = int | list[int]]: a robber move is a node, a cop move is one
    node per cop. *)
Inductive Move : Type :=
  | RobberMove (position : Z)
  | CopsMove (positions : list Z).

(** A stored entry [(depth, move, evaluation)]. *)
Record Entry : Type := {
  hash_depth : Z;
  stored_move : Move;
  stored_evaluation : Q
}.

(** [TranspositionItem = tuple[list[int], int, bool, int]] *)
Definition TranspositionItem : Type := (list Z * Z * bool * Z)%type.

(** The object state: the table and the three families of random keys.
    A row of [cop_keys] is the numpy array of the keys of one node, one
    key per possible number of cops on it.  The keys are [int64] values;
    xor of two of them is [Z.lxor] on their signed values. *)
Record ZobristTranspositionTable : Type := {
  table : gmap Z Entry;
  cop_keys : gmap Z (list Z);
  robber_keys : gmap Z Z;
  cop_turn_key : bool -> Z
}.

(** [__init__] with the random draws given: the table starts empty. *)
Definition init (ck : gmap Z (list Z)) (rk : gmap Z Z) (tk : bool -> Z)
  : ZobristTranspositionTable :=
  {| table := ∅; cop_keys := ck; robber_keys := rk; cop_turn_key := tk |}.

Definition with_table (T : ZobristTranspositionTable) (t : gmap Z Entry)
  : ZobristTranspositionTable :=
  {| table := t; cop_keys := cop_keys T; robber_keys := robber_keys T;
     cop_turn_key := cop_turn_key T |}.

(** [collections.Counter]: a dictionary in insertion order, so the keys
    come in the order of their first occurrence. *)
Fixpoint counter_add (c : list (Z * nat)) (x : Z) : list (Z * nat) :=
  match c with
  | [] => [(x, 1%nat)]
  | (y, n) :: c' =>
      if decide (x = y) then (y, S n) :: c' else (y, n) :: counter_add c' x
  end.

Definition Counter (l : list Z) : list (Z * nat) := fold_left counter_add l [].

(** [self.cop_keys[position][freq[position] - 1]]; [None] stands for the
    [KeyError] or [IndexError] of a node without keys or of more cops on
    a node than the table was built for. *)
Definition cop_key (T : ZobristTranspositionTable) (pf : Z * nat) : option Z :=
  row ← cop_keys T !! pf.1; row !! (pf.2 - 1)%nat.

(** [reduce(xor, keys)] without an initial value: a [TypeError] on the
    empty sequence, a left fold from the first key otherwise. *)
Definition reduce_xor (ks : list Z) : option Z :=
  match ks with
  | [] => None
  | k :: ks' => Some (fold_left Z.lxor ks' k)
  end.

(** [ZobristTranspositionTable.key] *)
Definition key (T : ZobristTranspositionTable)
    (cop_positions : list Z) (robber_position : Z) (cop_turn : bool) : option Z :=
  ks ← mapM (cop_key T) (Counter cop_positions);
  c ← reduce_xor ks;
  r ← robber_keys T !! robber_position;
  Some (Z.lxor (Z.lxor c r) (cop_turn_key T cop_turn)).

(** [__getitem__]; [None] is a raised exception. *)
Definition getitem (T : ZobristTranspositionTable) (item : TranspositionItem)
  : option (Move * Q) :=
  let '(cop_positions, robber_position, cop_turn, depth) := item in
  k ← key T cop_positions robber_position cop_turn;
  e ← table T !! k;
  Some (stored_move e, stored_evaluation e).

(** [__contains__] *)
Definition contains (T : ZobristTranspositionTable) (item : TranspositionItem)
  : option bool :=
  let '(cop_positions, robber_position, cop_turn, depth) := item in
  k ← key T cop_positions robber_position cop_turn;
  Some (match table T !! k with
        | Some e => bool_decide (depth <= hash_depth e)
        | None => false
        end).

(** Python's [max(a, b, key=lambda v: v[0])]: the first of the maximal
    arguments, so [b] wins only with a strictly larger key. *)
Definition max_by_depth (a b : Entry) : Entry :=
  if decide (hash_depth a < hash_depth b) then b else a.

(** [__setitem__] *)
Definition setitem (T : ZobristTranspositionTable) (item : TranspositionItem)
    (value : Move * Q) : option ZobristTranspositionTable :=
  let '(cop_positions, robber_position, cop_turn, depth) := item in
  let '(move, evaluation) := value in
  k ← key T cop_positions robber_position cop_turn;
  let entry := {| hash_depth := depth; stored_move := move;
                  stored_evaluation := evaluation |} in
  Some (match table T !! k with
        | None => with_table T (<[k := entry]> (table T))
        | Some old => with_table T (<[k := max_by_depth old entry]> (table T))
        end).

(** The hash of an item, its depth dropped. *)
Definition item_key (T : ZobristTranspositionTable) (item : TranspositionItem)
  : option Z :=
  let '(cop_positions, robber_position, cop_turn, _) := item in
  key T cop_positions robber_position cop_turn.

Definition item_depth (item : TranspositionItem) : Z := item.2.

Definition entry_of (item : TranspositionItem) (value : Move * Q) : Entry :=
  {| hash_depth := item_depth item; stored_move := value.1;
     stored_evaluation := value.2 |}.

(** ** The counter of a list *)

Lemma counter_add_keys c x :
  (counter_add c x).*1 = if decide (x ∈ c.*1) then c.*1 else c.*1 ++ [x].
Proof.
  induction c as [|[y n] c IH].
  - destruct (decide (x ∈ ([] : list (Z * nat)).*1)) as [H|H]; [|done].
    by apply elem_of_nil in H.
  - cbn [counter_add]. destruct (decide (x = y)) as [->|Hne].
    + destruct (decide (y ∈ ((y, n) :: c).*1)) as [H|H]; [done|].
      exfalso. apply H. left.
    + rewrite fmap_cons, IH. cbn [fst].
      destruct (decide (x ∈ c.*1)) as [Hin|Hnin];
        destruct (decide (x ∈ ((y, n) :: c).*1)) as [H|H]; try done.
      * exfalso. apply H. by right.
      * rewrite fmap_cons in H. apply elem_of_cons in H as [?|?]; done.
Qed.

Lemma counter_add_NoDup c x : NoDup c.*1 -> NoDup (counter_add c x).*1.
Proof.
  intros H. rewrite counter_add_keys. case_decide; [done|].
  apply NoDup_app. split_and!; [done| |apply NoDup_singleton].
  intros y Hy ->%list_elem_of_singleton. done.
Qed.

(** Number of occurrences recorded for [x] ([0] when [x] is no key). *)
Definition counted (c : list (Z * nat)) (x : Z) : nat :=
  match list_find (λ p, p.1 = x) c with
  | Some (_, (_, n)) => n
  | None => 0%nat
  end.

Lemma counted_cons y n c x :
  counted ((y, n) :: c) x = if decide (y = x) then n else counted c x.
Proof.
  unfold counted. simpl. destruct (decide (y = x)); [done|].
  destruct (list_find _ c) as [[i [z m]]|]; done.
Qed.

Lemma counted_add c x z :
  counted (counter_add c x) z =
  if decide (x = z) then S (counted c z) else counted c z.
Proof.
  induction c as [|[y n] c IH]; simpl.
  - rewrite counted_cons. unfold counted. simpl. by repeat case_decide.
  - destruct (decide (x = y)) as [->|Hne]; rewrite !counted_cons.
    + by repeat case_decide.
    + rewrite IH. repeat case_decide; congruence.
Qed.

Lemma counted_pos_iff c x : NoDup c.*1 ->
  forall n, (x, n) ∈ c <-> counted c x = n /\ x ∈ c.*1.
Proof.
  induction c as [|[y m] c IH]; intros Hnd n.
  - split; [by intros ?%elem_of_nil|]. by intros [_ ?%elem_of_nil].
  - apply NoDup_cons in Hnd as [Hy Hnd]. rewrite counted_cons. simpl in *.
    rewrite elem_of_cons. destruct (decide (y = x)) as [->|Hne].
    + split.
      * intros [[= ->]|Hin]; [split; [done|left]|].
        exfalso. apply Hy. apply list_elem_of_fmap. by exists (x, n).
      * intros [-> _]. by left.
    + rewrite (IH Hnd n). split.
      * intros [[= ? ?]|[? ?]]; [congruence|]. split; [done|by right].
      * intros [? [?|?]%elem_of_cons]; [congruence|]. by right.
Qed.

Lemma Counter_snoc l x : Counter (l ++ [x]) = counter_add (Counter l) x.
Proof. unfold Counter. by rewrite fold_left_app. Qed.

Lemma Counter_NoDup l : NoDup (Counter l).*1.
Proof.
  induction l as [|x l IH] using rev_ind; [constructor|].
  rewrite Counter_snoc. by apply counter_add_NoDup.
Qed.

Lemma Counter_keys l x : x ∈ (Counter l).*1 <-> x ∈ l.
Proof.
  induction l as [|y l IH] using rev_ind.
  - done.
  - rewrite Counter_snoc, counter_add_keys, elem_of_app, list_elem_of_singleton.
    destruct (decide (y ∈ (Counter l).*1)) as [Hy|Hy].
    + rewrite IH. split; [by left|]. intros [?| ->]; [done|]. by apply IH.
    + rewrite elem_of_app, list_elem_of_singleton, IH. done.
Qed.

Lemma Counter_counted l x : counted (Counter l) x = length (filter (x =.) l).
Proof.
  induction l as [|y l IH] using rev_ind; [done|].
  rewrite Counter_snoc, counted_add, filter_app, length_app, IH.
  rewrite filter_cons, filter_nil.
  destruct (decide (y = x)) as [->|Hne].
  - rewrite decide_True by done. simpl. lia.
  - rewrite decide_False by congruence. simpl. lia.
Qed.

(** The counter of a list depends on the multiset of its elements only,
    up to the order of the keys. *)
Lemma Counter_Permutation l l' : l ≡ₚ l' -> Counter l ≡ₚ Counter l'.
Proof.
  intros Hp. apply NoDup_Permutation.
  - eapply NoDup_fmap_1, Counter_NoDup.
  - eapply NoDup_fmap_1, Counter_NoDup.
  - intros [x n].
    rewrite !(counted_pos_iff _ _ (Counter_NoDup _)).
    rewrite !Counter_counted, !Counter_keys. by rewrite Hp.
Qed.

(** ** Folding the keys *)

Lemma fold_left_lxor ks k : fold_left Z.lxor ks k = Z.lxor k (foldr Z.lxor 0 ks).
Proof.
  revert k. induction ks as [|a ks IH]; intros k; simpl.
  - by rewrite Z.lxor_0_r.
  - by rewrite IH, Z.lxor_assoc.
Qed.

Lemma reduce_xor_foldr ks :
  reduce_xor ks = if ks is [] then None else Some (foldr Z.lxor 0 ks).
Proof. destruct ks; simpl; [done|]. by rewrite fold_left_lxor. Qed.

Lemma foldr_lxor_Permutation ks ks' :
  ks ≡ₚ ks' -> foldr Z.lxor 0 ks = foldr Z.lxor 0 ks'.
Proof.
  induction 1 as [|a ks ks' _ IH|a b ks|ks1 ks2 ks3 _ IH1 _ IH2]; simpl.
  - done.
  - by rewrite IH.
  - rewrite <- (Z.lxor_assoc b a), <- (Z.lxor_assoc a b). f_equal. apply Z.lxor_comm.
  - congruence.
Qed.

Lemma reduce_xor_Permutation ks ks' :
  ks ≡ₚ ks' -> reduce_xor ks = reduce_xor ks'.
Proof.
  intros Hp. rewrite !reduce_xor_foldr.
  destruct ks, ks'; try done.
  - by apply Permutation_nil_cons in Hp.
  - symmetry in Hp. by apply Permutation_nil_cons in Hp.
  - by rewrite (foldr_lxor_Permutation _ _ Hp).
Qed.

(** Two results of a lookup of all keys agree up to order, failures
    included. *)
Definition keys_agree (o o' : option (list Z)) : Prop :=
  match o, o' with
  | Some ks, Some ks' => ks ≡ₚ ks'
  | None, None => True
  | _, _ => False
  end.

Lemma keys_agree_refl o : keys_agree o o.
Proof. destruct o; simpl; done. Qed.

Lemma keys_agree_trans o1 o2 o3 :
  keys_agree o1 o2 -> keys_agree o2 o3 -> keys_agree o1 o3.
Proof.
  destruct o1, o2, o3; simpl; try done. intros. by etrans.
Qed.

Lemma mapM_cons_eq {A B} (f : A -> option B) x l :
  mapM f (x :: l) = y ← f x; k ← mapM f l; Some (y :: k).
Proof. done. Qed.

Lemma mapM_Permutation (f : Z * nat -> option Z) c c' :
  c ≡ₚ c' -> keys_agree (mapM f c) (mapM f c').
Proof.
  induction 1 as [|a c c' _ IH|a b c|c1 c2 c3 _ IH1 _ IH2].
  - apply keys_agree_refl.
  - rewrite !mapM_cons_eq. destruct (f a); [|exact I].
    destruct (mapM f c), (mapM f c'); simpl in *; try done.
    by constructor.
  - rewrite !mapM_cons_eq. destruct (f a), (f b); simpl; try exact I;
      destruct (mapM f c); simpl; try exact I. apply perm_swap.
  - by eapply keys_agree_trans.
Qed.

(** C6. The hash of a configuration does not depend on the order in which
    the cops are listed: for a permutation of the cop positions (several
    cops may share a node) [key] returns the same value, and it fails on
    the one list exactly when it fails on the other. *)
Theorem key_order_invariant (T : ZobristTranspositionTable)
    (cop_positions permuted : list Z) (robber_position : Z) (cop_turn : bool) :
  cop_positions ≡ₚ permuted ->
  key T cop_positions robber_position cop_turn =
  key T permuted robber_position cop_turn.
Proof.
  intros Hp. unfold key.
  pose proof (mapM_Permutation (cop_key T) _ _ (Counter_Permutation _ _ Hp)) as H.
  destruct (mapM (cop_key T) (Counter cop_positions)) as [ks|],
           (mapM (cop_key T) (Counter permuted)) as [ks'|]; simpl in *; try done.
  by rewrite (reduce_xor_Permutation _ _ H).
Qed.

(** A table over the nodes 0, 1, 2 for two cops. *)
Definition sample_table : ZobristTranspositionTable :=
  init (list_to_map [(0, [11; 12]); (1, [21; 22]); (2, [35; 36])])
       (list_to_map [(0, 100); (1, 200); (2, 300)])
       (λ b : bool, if b then 7 else 8).

Lemma key_order_invariant_witness :
  key sample_table [2; 0] 1 true = key sample_table [0; 2] 1 true.
Proof.
  apply (key_order_invariant sample_table [2; 0] [0; 2] 1 true).
  apply perm_swap.
Defined.

Example key_sample_value : key sample_table [2; 0] 1 true = Some 231.
Proof. vm_compute. reflexivity. Qed.

Example key_two_cops_on_a_node :
  key sample_table [2; 2] 1 false = Some (Z.lxor (Z.lxor 36 200) 8).
Proof. vm_compute. reflexivity. Qed.

Example key_no_cops : key sample_table [] 1 true = None.
Proof. reflexivity. Qed.

(** ** The storage rule *)

Lemma key_with_table T t cops r turn :
  key (with_table T t) cops r turn = key T cops r turn.
Proof. done. Qed.

Lemma item_key_with_table T t item :
  item_key (with_table T t) item = item_key T item.
Proof. by destruct item as [[[? ?] ?] ?]. Qed.

(** One write: the slot holds the new entry when it was free or held a
    shallower one, and keeps its entry otherwise; other slots and the
    random keys are unchanged. *)
Lemma setitem_spec T item value k :
  item_key T item = Some k ->
  exists T',
    setitem T item value = Some T' /\
    table T' !! k =
      Some (match table T !! k with
            | None => entry_of item value
            | Some old =>
                if decide (hash_depth old < item_depth item)
                then entry_of item value else old
            end) /\
    (forall k', k' <> k -> table T' !! k' = table T !! k') /\
    (forall i, item_key T' i = item_key T i).
Proof.
  destruct item as [[[cops r] turn] depth], value as [mv ev]. simpl.
  intros Hk. unfold setitem. rewrite Hk. simpl.
  eexists. split; [done|].
  unfold entry_of, item_depth, max_by_depth. simpl.
  destruct (table T !! k) as [old|] eqn:Hold; simpl.
  - split_and!.
    + by rewrite lookup_insert_eq.
    + intros k' Hne. by rewrite lookup_insert_ne.
    + intros i. apply item_key_with_table.
  - split_and!.
    + by rewrite lookup_insert_eq.
    + intros k' Hne. by rewrite lookup_insert_ne.
    + intros i. apply item_key_with_table.
Qed.



(** ** When a configuration can be hashed *)

Lemma reduce_xor_is_Some ks : is_Some (reduce_xor ks) <-> ks <> [].
Proof.
  destruct ks; simpl; split.
  - by intros [? ?].
  - done.
  - done.
  - by eexists.
Qed.

Lemma Counter_nil_iff l : Counter l = [] <-> l = [].
Proof.
  split; [|by intros ->].
  intros H. destruct l as [|x l]; [done|].
  assert (x ∈ (Counter (x :: l)).*1) as Hx by (apply Counter_keys; left).
  rewrite H in Hx. by apply elem_of_nil in Hx.
Qed.

Lemma Counter_elem l p n :
  (p, n) ∈ Counter l <-> p ∈ l /\ n = length (filter (p =.) l).
Proof.
  rewrite (counted_pos_iff _ _ (Counter_NoDup l)), Counter_counted, Counter_keys.
  split; intros [? ?]; done.
Qed.

Lemma filter_eq_pos (p : Z) l : p ∈ l -> (0 < length (filter (p =.) l))%nat.
Proof.
  intros Hp. assert (p ∈ filter (p =.) l) as H by (by apply list_elem_of_filter).
  destruct (filter (p =.) l); [by apply elem_of_nil in H|simpl; lia].
Qed.

(** X1. [key] returns a hash exactly when there is at least one cop, the
    robber's node has a robber key, and every node that holds cops has a
    row of cop keys with at least as many keys as cops stand on it.  In
    every other case it raises: on an empty cop list, on a position
    without keys, on more cops on one node than the table was built for. *)
Theorem key_defined_iff (T : ZobristTranspositionTable)
    (cop_positions : list Z) (robber_position : Z) (cop_turn : bool) :
  is_Some (key T cop_positions robber_position cop_turn) <->
    cop_positions <> [] /\
    (forall p, p ∈ cop_positions ->
       exists row, cop_keys T !! p = Some row /\
                   (length (filter (p =.) cop_positions) <= length row)%nat) /\
    is_Some (robber_keys T !! robber_position).
Proof.
  unfold key.
  assert (is_Some (mapM (cop_key T) (Counter cop_positions)) <->
          forall p, p ∈ cop_positions ->
            exists row, cop_keys T !! p = Some row /\
              (length (filter (p =.) cop_positions) <= length row)%nat) as Hrows.
  { rewrite mapM_is_Some, Forall_forall. split.
    - intros H p Hp.
      destruct (H (p, length (filter (p =.) cop_positions))) as [k Hk].
      { by apply Counter_elem. }
      unfold cop_key in Hk. simpl in Hk.
      destruct (cop_keys T !! p) as [row|]; [|done]. simpl in Hk.
      exists row. split; [done|].
      apply lookup_lt_Some in Hk. pose proof (filter_eq_pos p _ Hp). lia.
    - intros H [p n] [Hp ->]%Counter_elem.
      destruct (H p Hp) as (row & Hrow & Hlen).
      unfold cop_key. simpl. rewrite Hrow. simpl.
      apply lookup_lt_is_Some. pose proof (filter_eq_pos p _ Hp). lia. }
  split.
  - intros [k Hk].
    destruct (mapM (cop_key T) (Counter cop_positions)) as [ks|] eqn:Hks; [|done].
    simpl in Hk.
    destruct (reduce_xor ks) as [c|] eqn:Hc; [|done]. simpl in Hk.
    destruct (robber_keys T !! robber_position) as [r|] eqn:Hr; [|done].
    split_and!.
    + intros ->. destruct ks; [done|]. by apply length_mapM in Hks.
    + apply Hrows. done.
    + done.
  - intros (Hne & Hall & [r Hr]).
    apply Hrows in Hall as [ks Hks]. rewrite Hks. simpl.
    assert (ks <> []) as Hks'.
    { intros ->. apply length_mapM in Hks.
      destruct (Counter cop_positions) eqn:HC; [|done].
      by apply Counter_nil_iff in HC. }
    apply reduce_xor_is_Some in Hks' as [c Hc].
    rewrite Hc. simpl. rewrite Hr. simpl. done.
Qed.

(** ** Reading after writing *)

Lemma getitem_by_key T item k :
  item_key T item = Some k ->
  getitem T item = e ← table T !! k; Some (stored_move e, stored_evaluation e).
Proof.
  destruct item as [[[cops r] turn] depth]. simpl. intros Hk.
  unfold getitem. by rewrite Hk.
Qed.

Lemma contains_by_key T item k :
  item_key T item = Some k ->
  contains T item =
    Some (match table T !! k with
          | Some e => bool_decide (item_depth item <= hash_depth e)
          | None => false
          end).
Proof.
  destruct item as [[[cops r] turn] depth]. simpl. intros Hk.
  unfold contains. by rewrite Hk.
Qed.

Lemma contains_true T item :
  contains T item = Some true <->
  exists k e, item_key T item = Some k /\ table T !! k = Some e /\
              item_depth item <= hash_depth e.
Proof.
  split.
  - intros H. destruct (item_key T item) as [k|] eqn:Hk.
    + rewrite (contains_by_key _ _ _ Hk) in H.
      destruct (table T !! k) as [e|] eqn:He; [|done].
      injection H as H. apply bool_decide_eq_true in H. by exists k, e.
    + destruct item as [[[cops r] turn] depth]. simpl in Hk.
      unfold contains in H. by rewrite Hk in H.
  - intros (k & e & Hk & He & Hd).
    rewrite (contains_by_key _ _ _ Hk), He. by rewrite bool_decide_eq_true_2.
Qed.

Lemma setitem_is_Some T item value :
  is_Some (setitem T item value) <-> is_Some (item_key T item).
Proof.
  destruct item as [[[cops r] turn] depth], value as [mv ev]. simpl.
  unfold setitem. destruct (key T cops r turn); simpl; split; intros [? ?]; by eauto.
Qed.

(** X2. The table never forgets.  After [table[item] = value] the item is
    in the table, and so is every configuration with the same hash (a
    permutation of the cops, or a collision) at any depth up to the one
    written; and whatever the membership test accepted before the write it
    still accepts after it. *)
Theorem setitem_then_contains (T T' : ZobristTranspositionTable)
    (item : TranspositionItem) (value : Move * Q) :
  setitem T item value = Some T' ->
  contains T' item = Some true /\
  (forall other, item_key T other = item_key T item ->
                 item_depth other <= item_depth item ->
                 contains T' other = Some true) /\
  (forall other, contains T other = Some true -> contains T' other = Some true).
Proof.
  intros Hset.
  assert (is_Some (setitem T item value)) as Hs by (by eexists).
  apply setitem_is_Some in Hs as [k Hk].
  destruct (setitem_spec T item value k Hk) as (T1 & HT1 & Hl & Hother & Hkeys).
  rewrite Hset in HT1. injection HT1 as <-.
  assert (exists e, table T' !! k = Some e /\ item_depth item <= hash_depth e /\
            forall old, table T !! k = Some old -> hash_depth old <= hash_depth e)
    as (e & He & Hd & Hold).
  { rewrite Hl. eexists. split; [done|].
    destruct (table T !! k) as [old|].
    - case_decide; unfold entry_of; simpl; split; try lia.
      + intros ? [= <-]. lia.
      + intros ? [= <-]. lia.
    - unfold entry_of. simpl. split; [lia|done]. }
  assert (forall other, item_key T other = Some k ->
            item_depth other <= item_depth item -> contains T' other = Some true) as Hsame.
  { intros other Ho Hle. apply contains_true. exists k, e.
    rewrite Hkeys. split_and!; [done|done|lia]. }
  split_and!.
  - by apply Hsame.
  - intros other Ho. rewrite Hk in Ho. by apply Hsame.
  - intros other (k' & e' & Hk' & He' & Hd')%contains_true.
    apply contains_true. destruct (decide (k' = k)) as [->|Hne].
    + exists k, e. rewrite Hkeys. split_and!; [done|done|].
      specialize (Hold _ He'). lia.
    + exists k', e'. rewrite Hkeys, Hother by done. done.
Qed.

Lemma setitem_then_contains_witness :
  exists T',
    setitem sample_table ([2; 0], 1, true, 3) (CopsMove [2; 1], 1%Q) = Some T' /\
    contains T' ([2; 0], 1, true, 3) = Some true /\
    contains T' ([0; 2], 1, true, 2) = Some true.
Proof.
  destruct (setitem sample_table ([2; 0], 1, true, 3) (CopsMove [2; 1], 1%Q))
    as [T'|] eqn:Hset; [|by vm_compute in Hset].
  destruct (setitem_then_contains sample_table T' ([2; 0], 1, true, 3)
              (CopsMove [2; 1], 1%Q) Hset) as (H1 & H2 & _).
  exists T'. split_and!; [done|done|].
  apply H2; [vm_compute; reflexivity|simpl; lia].
Defined.

(** X3. What a read returns after a write.  [table[item]] after
    [table[item] = value] is [value] when the slot of the item was free or
    held an entry of strictly smaller depth; otherwise it is still the move
    and evaluation of the old entry (a write of equal depth is dropped).
    Reads and membership tests of configurations with another hash are not
    affected by the write. *)
Theorem setitem_then_getitem (T T' : ZobristTranspositionTable)
    (item : TranspositionItem) (value : Move * Q) (k : Z) :
  item_key T item = Some k ->
  setitem T item value = Some T' ->
  getitem T' item =
    Some (match table T !! k with
          | Some old =>
              if decide (hash_depth old < item_depth item) then value
              else (stored_move old, stored_evaluation old)
          | None => value
          end) /\
  (forall other, item_key T other <> Some k ->
     getitem T' other = getitem T other /\ contains T' other = contains T other).
Proof.
  intros Hk Hset.
  destruct (setitem_spec T item value k Hk) as (T1 & HT1 & Hl & Hother & Hkeys).
  rewrite Hset in HT1. injection HT1 as <-.
  split.
  - rewrite (getitem_by_key T' item k) by (by rewrite Hkeys).
    rewrite Hl. simpl. destruct (table T !! k) as [old|].
    + case_decide; [|done]. by destruct value.
    + by destruct value.
  - intros other Hne.
    destruct (item_key T other) as [k'|] eqn:Hk'.
    + assert (k' <> k) by congruence.
      rewrite (getitem_by_key T' other k'), (getitem_by_key T other k'),
        (contains_by_key T' other k'), (contains_by_key T other k');
        rewrite ?Hkeys; try done.
      by rewrite Hother.
    + assert (item_key T' other = None) as Hk'' by (by rewrite Hkeys).
      destruct other as [[[cops r] turn] depth]. simpl in Hk', Hk''.
      unfold getitem, contains. by rewrite Hk', Hk''.
Qed.

Lemma setitem_then_getitem_witness :
  exists T1 T2,
    setitem sample_table ([2; 0], 1, true, 3) (CopsMove [2; 1], 1%Q) = Some T1 /\
    getitem T1 ([2; 0], 1, true, 3) = Some (CopsMove [2; 1], 1%Q) /\
    setitem T1 ([2; 0], 1, true, 3) (CopsMove [1; 0], 0%Q) = Some T2 /\
    getitem T2 ([2; 0], 1, true, 3) = Some (CopsMove [2; 1], 1%Q).
Proof.
  destruct (setitem sample_table ([2; 0], 1, true, 3) (CopsMove [2; 1], 1%Q))
    as [T1|] eqn:Hset1; [|by vm_compute in Hset1].
  destruct (setitem T1 ([2; 0], 1, true, 3) (CopsMove [1; 0], 0%Q))
    as [T2|] eqn:Hset2.
  2:{ vm_compute in Hset1. injection Hset1 as <-. by vm_compute in Hset2. }
  exists T1, T2.
  destruct (setitem_then_getitem sample_table T1 ([2; 0], 1, true, 3)
              (CopsMove [2; 1], 1%Q) 231 ltac:(vm_compute; reflexivity) Hset1)
    as [H1 _].
  destruct (setitem_then_getitem T1 T2 ([2; 0], 1, true, 3)
              (CopsMove [1; 0], 0%Q) 231) as [H2 _].
  { vm_compute in Hset1. injection Hset1 as <-. vm_compute. reflexivity. }
  { done. }
  split_and!; [done|exact H1|done|].
  rewrite H2. vm_compute in Hset1. injection Hset1 as <-. vm_compute. reflexivity.
Defined.

End Zobrist.

(* ===================================================================== *)
(** * engine/modules/minimax/alpha_beta.py                                *)
(* ===================================================================== *)

Module AlphaBeta.
Import Outcome Zobrist.

(** [is_terminal]: [robber_position in cop_positions] *)
Definition is_terminal (cop_positions : list Z) (robber_position : Z) : bool :=
  bool_decide (robber_position ∈ cop_positions).

(** The state a call works on: the shared transposition table and the
    number of readings of the wall clock taken so far. *)
Record World : Type := {
  transposition : ZobristTranspositionTable;
  clock_reads : nat
}.

Definition with_transposition (W : World) (T : ZobristTranspositionTable) : World :=
  {| transposition := T; clock_reads := clock_reads W |}.

Definition tick (W : World) : World :=
  {| transposition := transposition W; clock_reads := S (clock_reads W) |}.

(** Strict comparison of two values, [x < y]. *)
Definition Qltb (x y : Q) : bool := negb (Qle_bool y x).

(** Python's [max(a, b)] and [min(a, b)]: the first argument on a tie. *)
Definition py_max (a b : Q) : Q := if Qltb a b then b else a.
Definition py_min (a b : Q) : Q := if Qltb b a then b else a.

(** [int(is_terminal_state)] *)
Definition int_of_bool (b : bool) : Q := if b then 1%Q else 0%Q.

(** [transposition[key] = best_move, evaluation] followed by
    [return transposition[key]]. *)
Definition store_and_return (W : World) (item : TranspositionItem)
    (best_move : Move) (evaluation : Q) : outcome (Move * Q * World) :=
  match setitem (transposition W) item (best_move, evaluation) with
  | None => Raise
  | Some T' =>
      match getitem T' item with
      | None => Raise
      | Some (m, v) => Return (m, v, with_transposition W T')
      end
  end.

Section Minimax.

(** The two callables and the deadline a search is run with, and the
    readings [time.time()] returns, in the order of the calls. *)
Variable cop_transitions : list Z -> Z -> list (list Z).
Variable robber_transitions : list Z -> Z -> list Z.
Variable finish_time : Q.
Variable clock : nat -> Q.

(** [minimax_alpha_beta]; [fuel] bounds the depth of the recursion. *)
Fixpoint minimax_alpha_beta (fuel : nat) (W : World)
    (cop_positions : list Z) (robber_position : Z) (cop_turn : bool)
    (remaining_depth : Z) (alpha beta : Q) {struct fuel}
  : outcome (Move * Q * World) :=
  match fuel with
  | O => OutOfFuel
  | S fuel' =>
    let key := (cop_positions, robber_position, cop_turn, remaining_depth) in
    match contains (transposition W) key with
    | None => Raise
    | Some true =>
        match getitem (transposition W) key with
        | None => Raise
        | Some (m, v) => Return (m, v, W)
        end
    | Some false =>
        let best_move :=
          if cop_turn then CopsMove cop_positions else RobberMove robber_position in
        let evaluation := if cop_turn then alpha else beta in
        let is_terminal_state := is_terminal cop_positions robber_position in
        if is_terminal_state || bool_decide (remaining_depth <= 0) then
          store_and_return W key best_move (int_of_bool is_terminal_state)
        else
          let now := clock (clock_reads W) in
          let W := tick W in
          if Qle_bool (finish_time - now)
                      ((1 # 1000) / inject_Z (remaining_depth + 1)) then
            Return (best_move, (1 # 2)%Q, W)
          else if cop_turn then
            let fix cop_loop (successors : list (list Z)) (W : World)
                    (alpha evaluation : Q) (best_move : Move) {struct successors}
              : outcome (Move * Q * World) :=
              match successors with
              | [] => store_and_return W key best_move evaluation
              | successor_positions :: rest =>
                  match minimax_alpha_beta fuel' W successor_positions
                          robber_position false (remaining_depth - 1) alpha beta with
                  | Return (_, successor_evaluation, W) =>
                      let better := Qltb evaluation successor_evaluation in
                      let evaluation :=
                        if better then successor_evaluation else evaluation in
                      let best_move :=
                        if better then CopsMove successor_positions else best_move in
                      let alpha := py_max alpha evaluation in
                      if Qle_bool beta evaluation
                      then store_and_return W key best_move evaluation
                      else cop_loop rest W alpha evaluation best_move
                  | Raise => Raise
                  | OutOfFuel => OutOfFuel
                  end
              end in
            cop_loop (cop_transitions cop_positions robber_position)
                     W alpha evaluation best_move
          else
            let fix robber_loop (successors : list Z) (W : World)
                    (beta evaluation : Q) (best_move : Move) {struct successors}
              : outcome (Move * Q * World) :=
              match successors with
              | [] => store_and_return W key best_move evaluation
              | successor_position :: rest =>
                  match minimax_alpha_beta fuel' W cop_positions
                          successor_position true remaining_depth alpha beta with
                  | Return (_, successor_evaluation, W) =>
                      let better := Qltb successor_evaluation evaluation in
                      let evaluation :=
                        if better then successor_evaluation else evaluation in
                      let best_move :=
                        if better then RobberMove successor_position else best_move in
                      let beta := py_min beta evaluation in
                      if Qle_bool evaluation alpha
                      then store_and_return W key best_move evaluation
                      else robber_loop rest W beta evaluation best_move
                  | Raise => Raise
                  | OutOfFuel => OutOfFuel
                  end
              end in
            robber_loop (robber_transitions cop_positions robber_position)
                        W beta evaluation best_move
    end
  end.

End Minimax.

(** The move that leaves every piece where it is. *)
Definition stay_in_place (cop_positions : list Z) (robber_position : Z)
    (cop_turn : bool) : Move :=
  if cop_turn then CopsMove cop_positions else RobberMove robber_position.

(** A write that the membership test let through is read back as it was
    written. *)
Lemma setitem_getitem_uncached T item value :
  contains T item = Some false ->
  exists T', setitem T item value = Some T' /\ getitem T' item = Some value.
Proof.
  intros Hc.
  destruct item as [[[cops r] turn] depth] eqn:Hitem.
  assert (exists k, item_key T item = Some k) as [k Hk].
  { subst item. simpl. unfold contains in Hc.
    destruct (key T cops r turn) as [k|]; [by exists k|done]. }
  destruct (setitem_spec T item value k Hk) as (T' & HT' & Hl & _ & Hkeys).
  subst item. exists T'. split; [done|].
  specialize (Hkeys (cops, r, turn, depth)). simpl in Hk, Hkeys.
  unfold getitem. rewrite Hkeys, Hk. simpl. rewrite Hl. simpl.
  unfold contains in Hc. rewrite Hk in Hc. simpl in Hc.
  destruct (table T !! k) as [old|]; simpl.
  - injection Hc as Hc. apply bool_decide_eq_false in Hc.
    unfold item_depth. simpl. rewrite decide_True by lia.
    by destruct value.
  - by destruct value.
Qed.

(** C5. A call on a state that the transposition table does not hold at
    the asked depth returns, whatever [alpha] and [beta] are: the
    stay-in-place move with value 1 when the robber stands on a cop, and
    the stay-in-place move with value 0 when it does not and no depth
    remains.  (The result is also written to the table.) *)
Theorem minimax_leaf_value
    (cop_transitions : list Z -> Z -> list (list Z))
    (robber_transitions : list Z -> Z -> list Z)
    (finish_time : Q) (clock : nat -> Q) (fuel : nat) (W : World)
    (cop_positions : list Z) (robber_position : Z) (cop_turn : bool)
    (remaining_depth : Z) (alpha beta : Q) :
  contains (transposition W)
    (cop_positions, robber_position, cop_turn, remaining_depth) = Some false ->
  (robber_position ∈ cop_positions ->
     exists W',
       minimax_alpha_beta cop_transitions robber_transitions finish_time clock
         (S fuel) W cop_positions robber_position cop_turn remaining_depth alpha beta
       = Return (stay_in_place cop_positions robber_position cop_turn, 1%Q, W')) /\
  (robber_position ∉ cop_positions -> remaining_depth <= 0 ->
     exists W',
       minimax_alpha_beta cop_transitions robber_transitions finish_time clock
         (S fuel) W cop_positions robber_position cop_turn remaining_depth alpha beta
       = Return (stay_in_place cop_positions robber_position cop_turn, 0%Q, W')).
Proof.
  intros Hc.
  pose proof (setitem_getitem_uncached (transposition W) _
    (stay_in_place cop_positions robber_position cop_turn, 1%Q) Hc) as (T1 & Hs1 & Hg1).
  pose proof (setitem_getitem_uncached (transposition W) _
    (stay_in_place cop_positions robber_position cop_turn, 0%Q) Hc) as (T0 & Hs0 & Hg0).
  split.
  - intros Hin. exists (with_transposition W T1).
    cbn [minimax_alpha_beta]. rewrite Hc. cbv zeta.
    unfold is_terminal. rewrite bool_decide_eq_true_2 by done.
    cbn [orb int_of_bool]. unfold store_and_return.
    fold (stay_in_place cop_positions robber_position cop_turn).
    by rewrite Hs1, Hg1.
  - intros Hnin Hd. exists (with_transposition W T0).
    cbn [minimax_alpha_beta]. rewrite Hc. cbv zeta.
    unfold is_terminal. rewrite bool_decide_eq_false_2 by done.
    rewrite bool_decide_eq_true_2 by done.
    cbn [orb int_of_bool]. unfold store_and_return.
    fold (stay_in_place cop_positions robber_position cop_turn).
    by rewrite Hs0, Hg0.
Qed.

(** A fresh table, no clock reading taken yet. *)
Definition sample_world : World :=
  {| transposition := sample_table; clock_reads := 0 |}.

Lemma minimax_leaf_value_witness :
  (exists W',
     minimax_alpha_beta (λ _ _, []) (λ _ _, []) 10%Q (λ _, 0%Q)
       1 sample_world [2; 0] 2 true 3 (1 # 3)%Q (2 # 3)%Q
     = Return (CopsMove [2; 0], 1%Q, W')) /\
  (exists W',
     minimax_alpha_beta (λ _ _, []) (λ _ _, []) 10%Q (λ _, 0%Q)
       1 sample_world [2; 0] 1 false 0 (1 # 3)%Q (2 # 3)%Q
     = Return (RobberMove 1, 0%Q, W')).
Proof.
  split.
  - apply (minimax_leaf_value (λ _ _, []) (λ _ _, []) 10%Q (λ _, 0%Q)
             0 sample_world [2; 0] 2 true 3 (1 # 3)%Q (2 # 3)%Q).
    + vm_compute. reflexivity.
    + apply list_elem_of_In. simpl. auto.
  - apply (minimax_leaf_value (λ _ _, []) (λ _ _, []) 10%Q (λ _, 0%Q)
             0 sample_world [2; 0] 1 false 0 (1 # 3)%Q (2 # 3)%Q).
    + vm_compute. reflexivity.
    + intros H. apply list_elem_of_In in H. simpl in H. intuition lia.
    + lia.
Defined.

(** On the path 0 - 1 - 2 a cop on node 1 that moves first catches a
    robber on node 2: the search of depth 2 returns value 1. *)
Definition path3_neighbors (v : Z) : list Z :=
  if decide (v = 0) then [1] else if decide (v = 1) then [0; 2]
  else if decide (v = 2) then [1] else [].

Example minimax_path3 :
  exists m W',
    minimax_alpha_beta
      (λ cops _, match cops with
                 | [c] => (λ x, [x]) <$> (path3_neighbors c ++ [c])
                 | _ => []
                 end)
      (λ _ r, r :: path3_neighbors r) 10%Q (λ _, 0%Q)
      10 sample_world [1] 2 true 2 0%Q 1%Q
    = Return (m, 1%Q, W').
Proof. vm_compute. eauto. Qed.

(** ** Properties of every run of the search *)

Lemma py_max_cases a b : py_max a b = a \/ py_max a b = b.
Proof. unfold py_max. destruct (Qltb a b); auto. Qed.

Lemma py_min_cases a b : py_min a b = a \/ py_min a b = b.
Proof. unfold py_min. destruct (Qltb b a); auto. Qed.

Section Invariant.

Variable cop_transitions : list Z -> Z -> list (list Z).
Variable robber_transitions : list Z -> Z -> list Z.
Variable finish_time : Q.
Variable clock : nat -> Q.

(** A property [I] of the world and a property [G] of the values that the
    clock readings and the table operations keep. *)
Variable I : World -> Prop.
Variable G : Q -> Prop.
Hypothesis I_tick : forall W, I W -> I (tick W).
Hypothesis I_setitem : forall W item m v T',
  I W -> G v -> setitem (transposition W) item (m, v) = Some T' ->
  I (with_transposition W T').
Hypothesis G_getitem : forall W item m v,
  I W -> getitem (transposition W) item = Some (m, v) -> G v.
Hypothesis G_0 : G 0%Q.
Hypothesis G_half : G (1 # 2)%Q.
Hypothesis G_1 : G 1%Q.

Lemma store_and_return_inv W item best_move evaluation m v W' :
  I W -> G evaluation ->
  store_and_return W item best_move evaluation = Return (m, v, W') ->
  G v /\ I W'.
Proof.
  intros HI HG. unfold store_and_return.
  destruct (setitem (transposition W) item (best_move, evaluation)) as [T'|] eqn:Hs;
    [|done].
  destruct (getitem T' item) as [[m' v']|] eqn:Hg; [|done].
  intros [= <- <- <-].
  pose proof (I_setitem W item best_move evaluation T' HI HG Hs) as HI'.
  split; [|done].
  by apply (G_getitem (with_transposition W T') item m' v').
Qed.

Lemma minimax_inv fuel :
  forall W cop_positions robber_position cop_turn remaining_depth alpha beta m v W',
    I W -> G alpha -> G beta ->
    minimax_alpha_beta cop_transitions robber_transitions finish_time clock
      fuel W cop_positions robber_position cop_turn remaining_depth alpha beta
    = Return (m, v, W') ->
    G v /\ I W'.
Proof.
  induction fuel as [|fuel IH]; [done|].
  intros W cops r turn d alpha beta m v W' HI Ha Hb.
  cbn [minimax_alpha_beta].
  destruct (contains (transposition W) (cops, r, turn, d)) as [[|]|] eqn:Hc; [| |done].
  { destruct (getitem (transposition W) (cops, r, turn, d)) as [[m' v']|] eqn:Hg;
      [|done].
    intros [= <- <- <-]. split; [|done]. by eapply G_getitem. }
  cbv zeta.
  destruct (is_terminal cops r || bool_decide (d <= 0)) eqn:Hleaf.
  { apply store_and_return_inv; [done|].
    destruct (is_terminal cops r); simpl; done. }
  destruct (Qle_bool _ _).
  { intros [= <- <- <-]. split; [done|by apply I_tick]. }
  assert (I (tick W)) as HI1 by (by apply I_tick).
  revert HI1. generalize (tick W) as W1.
  destruct turn.
  - assert (G alpha) as Hev by done.
    revert Ha Hev.
    generalize (CopsMove cops) as bm. generalize alpha at 2 4 as ev.
    generalize alpha as al.
    generalize (cop_transitions cops r) as succs.
    induction succs as [|s rest IHs]; intros al ev bm Ha Hev W1 HI1.
    + by apply store_and_return_inv.
    + destruct (minimax_alpha_beta _ _ _ _ fuel W1 s r false (d - 1) al beta)
        as [[[m1 v1] W2]| |] eqn:Hrec; [|done|done].
      destruct (IH _ _ _ _ _ _ _ _ _ _ HI1 Ha Hb Hrec) as [Hv1 HI2].
      assert (G (if Qltb ev v1 then v1 else ev)) as Hev'
        by (by destruct (Qltb ev v1)).
      destruct (Qle_bool beta _).
      * by apply store_and_return_inv.
      * apply IHs; [|done|done].
        destruct (py_max_cases al (if Qltb ev v1 then v1 else ev)) as [-> | ->]; done.
  - assert (G beta) as Hev by done.
    revert Hb Hev.
    generalize (RobberMove r) as bm. generalize beta at 2 4 as ev.
    generalize beta as be.
    generalize (robber_transitions cops r) as succs.
    induction succs as [|s rest IHs]; intros be ev bm Hb Hev W1 HI1.
    + by apply store_and_return_inv.
    + destruct (minimax_alpha_beta _ _ _ _ fuel W1 cops s true d alpha be)
        as [[[m1 v1] W2]| |] eqn:Hrec; [|done|done].
      destruct (IH _ _ _ _ _ _ _ _ _ _ HI1 Ha Hb Hrec) as [Hv1 HI2].
      assert (G (if Qltb v1 ev then v1 else ev)) as Hev'
        by (by destruct (Qltb v1 ev)).
      destruct (Qle_bool _ alpha).
      * by apply store_and_return_inv.
      * apply IHs; [|done|done].
        destruct (py_min_cases be (if Qltb v1 ev then v1 else ev)) as [-> | ->]; done.
Qed.

End Invariant.

(** ** Termination *)

(** Nested calls a search of the given depth needs: a cop turn hands a
    depth less to the robber, a robber turn hands the same depth to the
    cops. *)
Definition calls_needed (cop_turn : bool) (remaining_depth : Z) : nat :=
  if decide (remaining_depth <= 0) then 1%nat
  else (2 * Z.to_nat remaining_depth + (if cop_turn then 0 else 1))%nat.

Lemma store_and_return_fuel W item best_move evaluation :
  store_and_return W item best_move evaluation <> OutOfFuel.
Proof.
  unfold store_and_return.
  destruct (setitem _ _ _) as [T'|]; [|done].
  by destruct (getitem T' item) as [[? ?]|].
Qed.

Section Fuel.

Variable cop_transitions : list Z -> Z -> list (list Z).
Variable robber_transitions : list Z -> Z -> list Z.
Variable finish_time : Q.
Variable clock : nat -> Q.

Lemma minimax_enough_fuel fuel :
  forall W cop_positions robber_position cop_turn remaining_depth alpha beta,
    (calls_needed cop_turn remaining_depth <= fuel)%nat ->
    minimax_alpha_beta cop_transitions robber_transitions finish_time clock
      fuel W cop_positions robber_position cop_turn remaining_depth alpha beta
    <> OutOfFuel.
Proof.
  induction fuel as [|fuel IH];
    intros W cops r turn d alpha beta Hfuel.
  { unfold calls_needed in Hfuel. case_decide; lia. }
  cbn [minimax_alpha_beta].
  destruct (contains (transposition W) (cops, r, turn, d)) as [[|]|]; [| |done].
  { by destruct (getitem (transposition W) (cops, r, turn, d)) as [[? ?]|]. }
  cbv zeta.
  destruct (is_terminal cops r || bool_decide (d <= 0)) eqn:Hleaf.
  { apply store_and_return_fuel. }
  apply orb_false_iff in Hleaf as [_ Hd]. apply bool_decide_eq_false in Hd.
  destruct (Qle_bool _ _); [done|].
  generalize (tick W) as W1.
  unfold calls_needed in Hfuel. rewrite decide_False in Hfuel by done.
  destruct turn.
  - generalize (CopsMove cops) as bm. generalize alpha at 2 as ev.
    generalize alpha as al.
    generalize (cop_transitions cops r) as succs.
    induction succs as [|s rest IHs]; intros al ev bm W1.
    + apply store_and_return_fuel.
    + pose proof (IH W1 s r false (d - 1) al beta) as Hrec.
      destruct (minimax_alpha_beta _ _ _ _ fuel W1 s r false (d - 1) al beta)
        as [[[m1 v1] W2]| |]; [|done|].
      * destruct (Qle_bool beta _); [apply store_and_return_fuel|apply IHs].
      * exfalso. apply Hrec; [|done].
        unfold calls_needed. case_decide; lia.
  - generalize (RobberMove r) as bm. generalize beta at 2 as ev.
    generalize beta as be.
    generalize (robber_transitions cops r) as succs.
    induction succs as [|s rest IHs]; intros be ev bm W1.
    + apply store_and_return_fuel.
    + pose proof (IH W1 cops s true d alpha be) as Hrec.
      destruct (minimax_alpha_beta _ _ _ _ fuel W1 cops s true d alpha be)
        as [[[m1 v1] W2]| |]; [|done|].
      * destruct (Qle_bool _ alpha); [apply store_and_return_fuel|apply IHs].
      * exfalso. apply Hrec; [|done].
        unfold calls_needed. rewrite decide_False by done. lia.
Qed.

Lemma minimax_more_fuel fuel :
  forall W cop_positions robber_position cop_turn remaining_depth alpha beta,
    minimax_alpha_beta cop_transitions robber_transitions finish_time clock
      fuel W cop_positions robber_position cop_turn remaining_depth alpha beta
    <> OutOfFuel ->
    minimax_alpha_beta cop_transitions robber_transitions finish_time clock
      (S fuel) W cop_positions robber_position cop_turn remaining_depth alpha beta
    = minimax_alpha_beta cop_transitions robber_transitions finish_time clock
      fuel W cop_positions robber_position cop_turn remaining_depth alpha beta.
Proof.
  induction fuel as [|fuel IH];
    intros W cops r turn d alpha beta; [done|].
  remember (S fuel) as fuel1 eqn:Hfuel1.
  cbn [minimax_alpha_beta]. rewrite Hfuel1 at 1 2. cbn [minimax_alpha_beta].
  destruct (contains (transposition W) (cops, r, turn, d)) as [[|]|]; [done| |done].
  cbv zeta.
  destruct (is_terminal cops r || bool_decide (d <= 0)); [done|].
  destruct (Qle_bool _ _); [done|].
  generalize (tick W) as W1.
  destruct turn.
  - generalize (CopsMove cops) as bm. generalize alpha at 2 4 6 as ev.
    generalize alpha as al.
    generalize (cop_transitions cops r) as succs.
    induction succs as [|s rest IHs]; intros al ev bm W1; [done|].
    pose proof (IH W1 s r false (d - 1) al beta) as Hrec.
    destruct (minimax_alpha_beta _ _ _ _ fuel W1 s r false (d - 1) al beta)
      as [[[m1 v1] W2]| |] eqn:Hsmall; [|by rewrite Hrec|done].
    rewrite Hrec by done.
    destruct (Qle_bool beta _); [done|apply IHs].
  - generalize (RobberMove r) as bm. generalize beta at 2 4 6 as ev.
    generalize beta as be.
    generalize (robber_transitions cops r) as succs.
    induction succs as [|s rest IHs]; intros be ev bm W1; [done|].
    pose proof (IH W1 cops s true d alpha be) as Hrec.
    destruct (minimax_alpha_beta _ _ _ _ fuel W1 cops s true d alpha be)
      as [[[m1 v1] W2]| |] eqn:Hsmall; [|by rewrite Hrec|done].
    rewrite Hrec by done.
    destruct (Qle_bool _ alpha); [done|apply IHs].
Qed.

End Fuel.

(** Calls enough for a search of the given depth, whoever moves first. *)
Definition search_fuel (remaining_depth : Z) : nat :=
  (2 * Z.to_nat remaining_depth + 1)%nat.

Lemma calls_needed_le cop_turn remaining_depth :
  (calls_needed cop_turn remaining_depth <= search_fuel remaining_depth)%nat.
Proof.
  unfold calls_needed, search_fuel. case_decide; destruct cop_turn; lia.
Qed.

(** A run with enough fuel ends by a [return] or by an exception. *)
Lemma minimax_result cop_transitions robber_transitions finish_time clock
    fuel W cop_positions robber_position cop_turn remaining_depth alpha beta :
  (search_fuel remaining_depth <= fuel)%nat ->
  minimax_alpha_beta cop_transitions robber_transitions finish_time clock
    fuel W cop_positions robber_position cop_turn remaining_depth alpha beta = Raise \/
  exists m v W',
    minimax_alpha_beta cop_transitions robber_transitions finish_time clock
      fuel W cop_positions robber_position cop_turn remaining_depth alpha beta
    = Return (m, v, W').
Proof.
  intros Hfuel.
  pose proof (minimax_enough_fuel cop_transitions robber_transitions finish_time
    clock fuel W cop_positions robber_position cop_turn remaining_depth alpha beta)
    as Hne.
  destruct (minimax_alpha_beta _ _ _ _ fuel W _ _ _ _ _ _) as [[[m v] W']| |].
  - right. by exists m, v, W'.
  - by left.
  - exfalso. apply Hne; [|done].
    pose proof (calls_needed_le cop_turn remaining_depth). lia.
Qed.

(** X4. The search terminates.  Whatever the transition functions list,
    a search of depth [d] nests at most [2 * d + 1] calls (one for a depth
    that is not positive): with that much fuel or more the run ends by a
    return or an exception, and its result is the same for every such
    amount of fuel. *)
Theorem minimax_terminates
    (cop_transitions : list Z -> Z -> list (list Z))
    (robber_transitions : list Z -> Z -> list Z)
    (finish_time : Q) (clock : nat -> Q) (fuel : nat) (W : World)
    (cop_positions : list Z) (robber_position : Z) (cop_turn : bool)
    (remaining_depth : Z) (alpha beta : Q) :
  (search_fuel remaining_depth <= fuel)%nat ->
  minimax_alpha_beta cop_transitions robber_transitions finish_time clock
    fuel W cop_positions robber_position cop_turn remaining_depth alpha beta
  <> OutOfFuel /\
  minimax_alpha_beta cop_transitions robber_transitions finish_time clock
    fuel W cop_positions robber_position cop_turn remaining_depth alpha beta
  = minimax_alpha_beta cop_transitions robber_transitions finish_time clock
      (search_fuel remaining_depth) W cop_positions robber_position cop_turn
      remaining_depth alpha beta.
Proof.
  intros Hfuel.
  assert (forall f, (search_fuel remaining_depth <= f)%nat ->
    minimax_alpha_beta cop_transitions robber_transitions finish_time clock
      f W cop_positions robber_position cop_turn remaining_depth alpha beta
    <> OutOfFuel) as Hne.
  { intros f Hf. apply minimax_enough_fuel.
    pose proof (calls_needed_le cop_turn remaining_depth). lia. }
  split; [by apply Hne|].
  induction Hfuel as [|f Hf IH]; [done|].
  rewrite minimax_more_fuel; [exact IH|by apply Hne].
Qed.

Lemma minimax_terminates_witness :
  minimax_alpha_beta (λ _ _, []) (λ _ _, []) 10%Q (λ _, 0%Q)
    9 sample_world [2; 0] 1 true 2 0%Q 1%Q <> OutOfFuel /\
  minimax_alpha_beta (λ _ _, []) (λ _ _, []) 10%Q (λ _, 0%Q)
    9 sample_world [2; 0] 1 true 2 0%Q 1%Q
  = minimax_alpha_beta (λ _ _, []) (λ _ _, []) 10%Q (λ _, 0%Q)
      5 sample_world [2; 0] 1 true 2 0%Q 1%Q.
Proof.
  apply (minimax_terminates (λ _ _, []) (λ _ _, []) 10%Q (λ _, 0%Q)
           9 sample_world [2; 0] 1 true 2 0%Q 1%Q).
  vm_compute. lia.
Defined.

(** ** The values of the game *)

(** The three values a state can take: 0 (no capture found), 1 (capture),
    and 1/2 (the search ran out of time). *)
Definition game_value (q : Q) : Prop := q = 0%Q \/ q = (1 # 2)%Q \/ q = 1%Q.

(** Every evaluation stored in the table is one of the three values. *)
Definition table_values_ok (W : World) : Prop :=
  forall k e, table (transposition W) !! k = Some e ->
              game_value (stored_evaluation e).

Lemma getitem_entry T item m v :
  getitem T item = Some (m, v) ->
  exists k e, item_key T item = Some k /\ table T !! k = Some e /\
              m = stored_move e /\ v = stored_evaluation e.
Proof.
  destruct item as [[[cops r] turn] depth]. unfold getitem. simpl.
  destruct (key T cops r turn) as [k|]; [|done]. simpl.
  destruct (table T !! k) as [e|] eqn:He; [|done]. simpl.
  intros [= <- <-]. by exists k, e.
Qed.

Lemma table_values_setitem W item m v T' :
  table_values_ok W -> game_value v ->
  setitem (transposition W) item (m, v) = Some T' ->
  table_values_ok (with_transposition W T').
Proof.
  intros Hok Hv Hset.
  assert (is_Some (setitem (transposition W) item (m, v))) as Hs by (by eexists).
  apply setitem_is_Some in Hs as [k Hk].
  destruct (setitem_spec _ item (m, v) k Hk) as (T1 & HT1 & Hl & Hother & _).
  rewrite Hset in HT1. injection HT1 as <-.
  intros k' e He. simpl in He. destruct (decide (k' = k)) as [->|Hne].
  - rewrite Hl in He. injection He as <-.
    destruct (table (transposition W) !! k) as [old|] eqn:Hold; [|done].
    case_decide; [done|]. by apply (Hok k).
  - rewrite Hother in He by done. by apply (Hok k').
Qed.

(** X5. The search only deals in the values 0, 1/2 and 1.  Started with
    bounds among these values on a table that stores nothing else (an
    empty one, say), a run with enough fuel either raises or returns one
    of the three values, and the table it leaves stores nothing else. *)
Theorem minimax_values
    (cop_transitions : list Z -> Z -> list (list Z))
    (robber_transitions : list Z -> Z -> list Z)
    (finish_time : Q) (clock : nat -> Q) (fuel : nat) (W : World)
    (cop_positions : list Z) (robber_position : Z) (cop_turn : bool)
    (remaining_depth : Z) (alpha beta : Q) :
  (search_fuel remaining_depth <= fuel)%nat ->
  table_values_ok W -> game_value alpha -> game_value beta ->
  minimax_alpha_beta cop_transitions robber_transitions finish_time clock
    fuel W cop_positions robber_position cop_turn remaining_depth alpha beta = Raise \/
  exists m v W',
    minimax_alpha_beta cop_transitions robber_transitions finish_time clock
      fuel W cop_positions robber_position cop_turn remaining_depth alpha beta
    = Return (m, v, W') /\
    game_value v /\ table_values_ok W'.
Proof.
  intros Hfuel Hok Ha Hb.
  destruct (minimax_result cop_transitions robber_transitions finish_time clock
    fuel W cop_positions robber_position cop_turn remaining_depth alpha beta Hfuel)
    as [Hr|(m & v & W' & Hr)]; [by left|right].
  exists m, v, W'. split; [done|].
  apply (minimax_inv cop_transitions robber_transitions finish_time clock
           table_values_ok game_value) with (fuel := fuel) (W := W)
           (cop_positions := cop_positions) (robber_position := robber_position)
           (cop_turn := cop_turn) (remaining_depth := remaining_depth)
           (alpha := alpha) (beta := beta) (m := m); try done.
  - intros W0 item m0 v0 T' H0 Hv0 Hset. by eapply table_values_setitem.
  - intros W0 item m0 v0 H0 (k & e & _ & He & _ & ->)%getitem_entry.
    by apply (H0 k).
  - by left.
  - right. by left.
  - right. by right.
Qed.

Lemma table_values_sample : table_values_ok sample_world.
Proof. intros k e He. vm_compute in He. discriminate. Qed.

Lemma minimax_values_witness :
  minimax_alpha_beta (λ _ _, [[1; 0]; [2; 1]]) (λ _ r, [r; 2]) 10%Q (λ _, 0%Q)
    5 sample_world [2; 0] 1 true 2 0%Q 1%Q = Raise \/
  exists m v W',
    minimax_alpha_beta (λ _ _, [[1; 0]; [2; 1]]) (λ _ r, [r; 2]) 10%Q (λ _, 0%Q)
      5 sample_world [2; 0] 1 true 2 0%Q 1%Q = Return (m, v, W') /\
    game_value v /\ table_values_ok W'.
Proof.
  apply (minimax_values (λ _ _, [[1; 0]; [2; 1]]) (λ _ r, [r; 2]) 10%Q (λ _, 0%Q)
           5 sample_world [2; 0] 1 true 2 0%Q 1%Q).
  - vm_compute. lia.
  - exact table_values_sample.
  - by left.
  - right. by right.
Defined.

(** ** The table across a search *)

(** [W] is a later state of [W0]: the same random keys, every
    configuration that the membership test accepted still accepted, and
    no clock reading taken back. *)
Record later_world (W0 W : World) : Prop := {
  later_cop_keys : cop_keys (transposition W) = cop_keys (transposition W0);
  later_robber_keys : robber_keys (transposition W) = robber_keys (transposition W0);
  later_turn_key : cop_turn_key (transposition W) = cop_turn_key (transposition W0);
  later_contains : forall item,
    contains (transposition W0) item = Some true ->
    contains (transposition W) item = Some true;
  later_clock : (clock_reads W0 <= clock_reads W)%nat
}.

Lemma later_world_refl W : later_world W W.
Proof. by split. Qed.

Lemma setitem_with_table T item value T' :
  setitem T item value = Some T' -> exists t, T' = with_table T t.
Proof.
  destruct item as [[[cops r] turn] depth], value as [mv ev].
  unfold setitem. destruct (key T cops r turn) as [k|]; [|done]. simpl.
  destruct (table T !! k); intros [= <-]; by eexists.
Qed.

Lemma setitem_keeps_contained T item value T' other :
  setitem T item value = Some T' ->
  contains T other = Some true -> contains T' other = Some true.
Proof.
  intros Hset (k' & e' & Hk' & He' & Hd')%contains_true.
  assert (is_Some (setitem T item value)) as Hs by (by eexists).
  apply setitem_is_Some in Hs as [k Hk].
  destruct (setitem_spec T item value k Hk) as (T1 & HT1 & Hl & Hother & Hkeys).
  rewrite Hset in HT1. injection HT1 as <-.
  apply contains_true. destruct (decide (k' = k)) as [->|Hne].
  - rewrite He' in Hl. eexists k, _. rewrite Hkeys. split_and!; [done|exact Hl|].
    case_decide; unfold entry_of; simpl; lia.
  - exists k', e'. by rewrite Hkeys, Hother.
Qed.

(** X6. A search never spoils the table it was given.  A run with enough
    fuel either raises or returns, and the state it returns has the random
    keys it started with, still accepts every configuration (at its depth)
    that the membership test accepted before, and has taken its clock
    readings in order. *)
Theorem minimax_keeps_table
    (cop_transitions : list Z -> Z -> list (list Z))
    (robber_transitions : list Z -> Z -> list Z)
    (finish_time : Q) (clock : nat -> Q) (fuel : nat) (W : World)
    (cop_positions : list Z) (robber_position : Z) (cop_turn : bool)
    (remaining_depth : Z) (alpha beta : Q) :
  (search_fuel remaining_depth <= fuel)%nat ->
  minimax_alpha_beta cop_transitions robber_transitions finish_time clock
    fuel W cop_positions robber_position cop_turn remaining_depth alpha beta = Raise \/
  exists m v W',
    minimax_alpha_beta cop_transitions robber_transitions finish_time clock
      fuel W cop_positions robber_position cop_turn remaining_depth alpha beta
    = Return (m, v, W') /\
    later_world W W'.
Proof.
  intros Hfuel.
  destruct (minimax_result cop_transitions robber_transitions finish_time clock
    fuel W cop_positions robber_position cop_turn remaining_depth alpha beta Hfuel)
    as [Hr|(m & v & W' & Hr)]; [by left|right].
  exists m, v, W'. split; [done|].
  apply (minimax_inv cop_transitions robber_transitions finish_time clock
           (later_world W) (λ _, True)) with (fuel := fuel) (W := W)
           (cop_positions := cop_positions) (robber_position := robber_position)
           (cop_turn := cop_turn) (remaining_depth := remaining_depth)
           (alpha := alpha) (beta := beta) (m := m) (v := v); try done.
  - intros W0 [? ? ? ? ?]. split; simpl; try done. lia.
  - intros W0 item m0 v0 T' [Hc Hr' Ht Hin Hcl] _ Hset.
    destruct (setitem_with_table _ _ _ _ Hset) as [t ->].
    split; simpl; try done.
    intros other Ho. eapply setitem_keeps_contained; [exact Hset|]. by apply Hin.
Qed.

Lemma minimax_keeps_table_witness :
  minimax_alpha_beta (λ _ _, [[1; 0]; [2; 1]]) (λ _ r, [r; 2]) 10%Q (λ _, 0%Q)
    5 sample_world [2; 0] 1 true 2 0%Q 1%Q = Raise \/
  exists m v W',
    minimax_alpha_beta (λ _ _, [[1; 0]; [2; 1]]) (λ _ r, [r; 2]) 10%Q (λ _, 0%Q)
      5 sample_world [2; 0] 1 true 2 0%Q 1%Q = Return (m, v, W') /\
    later_world sample_world W'.
Proof.
  apply (minimax_keeps_table (λ _ _, [[1; 0]; [2; 1]]) (λ _ r, [r; 2]) 10%Q
           (λ _, 0%Q) 5 sample_world [2; 0] 1 true 2 0%Q 1%Q).
  vm_compute. lia.
Defined.

Example minimax_sample_run :
  exists m W',
    minimax_alpha_beta (λ _ _, [[1; 0]; [2; 1]]) (λ _ r, [r; 2]) 10%Q (λ _, 0%Q)
      5 sample_world [2; 0] 1 true 2 0%Q 1%Q = Return (m, 1%Q, W').
Proof. vm_compute. eauto. Qed.

End AlphaBeta.

(* ===================================================================== *)
(** * networkx.Graph as the engine uses it                                *)
(* ===================================================================== *)

Module Graphs.

(** An undirected graph is its adjacency structure: every node with the
    list of its neighbours, nodes and neighbours in insertion order (the
    order [graph.nodes], [graph.neighbors] and [graph.edges] iterate in). *)
Definition Graph : Type := list (Z * list Z).

Definition nodes (g : Graph) : list Z := g.*1.

Definition number_of_nodes (g : Graph) : nat := length g.

Fixpoint adjacency (g : Graph) (v : Z) : option (list Z) :=
  match g with
  | [] => None
  | (u, ns) :: g' => if decide (u = v) then Some ns else adjacency g' v
  end.

(** [graph.neighbors(v)]; the empty list stands in for a node that is not
    in the graph, where the library raises, so callers guard with
    [has_node] where the source can reach that case. *)
Definition neighbors (g : Graph) (v : Z) : list Z := default [] (adjacency g v).

Definition has_node (g : Graph) (v : Z) : bool := bool_decide (v ∈ nodes g).

(** [graph.degree[v]]: a self-loop counts twice. *)
Definition degree (g : Graph) (v : Z) : nat :=
  (length (neighbors g v) + if bool_decide (v ∈ neighbors g v) then 1 else 0)%nat.

(** [graph.edges]: every node in turn with those of its neighbours that
    were not visited as a node before, so each edge comes once. *)
Fixpoint edges_from (seen : list Z) (g : Graph) : list (Z * Z) :=
  match g with
  | [] => []
  | (n, nbrs) :: g' =>
      ((λ nbr, (n, nbr)) <$> filter (λ nbr, nbr ∉ seen) nbrs)
        ++ edges_from (n :: seen) g'
  end.

Definition edges (g : Graph) : list (Z * Z) := edges_from [] g.

(** [graph.subgraph(keep)]: the sub-graph induced by a set of nodes. *)
Definition subgraph (g : Graph) (keep : gset Z) : Graph :=
  (λ p : Z * list Z, (p.1, filter (λ v, v ∈ keep) p.2))
    <$> filter (λ p : Z * list Z, p.1 ∈ keep) g.

(** [add_node], and one direction of [add_edge]. *)
Definition add_node (g : Graph) (v : Z) : Graph :=
  if decide (v ∈ nodes g) then g else g ++ [(v, [])].

Fixpoint add_neighbor (g : Graph) (u v : Z) : Graph :=
  match g with
  | [] => []
  | (x, ns) :: g' =>
      if decide (x = u)
      then (x, if decide (v ∈ ns) then ns else ns ++ [v]) :: g'
      else (x, ns) :: add_neighbor g' u v
  end.

Definition add_edge (g : Graph) (e : Z * Z) : Graph :=
  let g := add_node (add_node g e.1) e.2 in
  add_neighbor (add_neighbor g e.1 e.2) e.2 e.1.

Definition add_nodes_from (g : Graph) (vs : list Z) : Graph := fold_left add_node vs g.
Definition add_edges_from (g : Graph) (es : list (Z * Z)) : Graph := fold_left add_edge es g.

(** [Graph(edgelist)] *)
Definition of_edges (es : list (Z * Z)) : Graph := add_edges_from [] es.

(** What the library maintains of a graph object. *)
Record wf_graph (g : Graph) : Prop := {
  wf_nodup : NoDup (nodes g);
  wf_closed : forall u v, v ∈ neighbors g u -> v ∈ nodes g;
  wf_sym : forall u v, v ∈ neighbors g u -> u ∈ neighbors g v
}.

Definition adjacent (g : Graph) (u v : Z) : Prop := v ∈ neighbors g u.

Definition reachable (g : Graph) : Z -> Z -> Prop := rtc (adjacent g).

Definition connected (g : Graph) : Prop :=
  forall u v, u ∈ nodes g -> v ∈ nodes g -> reachable g u v.

(** A walk: a non-empty list of nodes, each adjacent to the next. *)
Fixpoint is_walk (g : Graph) (p : list Z) : bool :=
  match p with
  | [] => false
  | u :: p' =>
      match p' with
      | [] => true
      | v :: _ => bool_decide (v ∈ neighbors g u) && is_walk g p'
      end
  end.

Definition walk (g : Graph) (s t : Z) (p : list Z) : Prop :=
  head p = Some s /\ last p = Some t /\ is_walk g p = true.

(** The nodes within [k] steps of [s], for checking connectivity of a
    given graph by computation. *)
Fixpoint reach_within (g : Graph) (k : nat) (s : Z) : list Z :=
  match k with
  | O => [s]
  | S k' => let r := reach_within g k' s in remove_dups (r ++ (r ≫= neighbors g))
  end.

Definition connectedb (g : Graph) : bool :=
  forallb (λ u, forallb (λ v, bool_decide (v ∈ reach_within g (length g) u)) (nodes g))
          (nodes g).

Definition wf_graphb (g : Graph) : bool :=
  bool_decide (NoDup (nodes g))
  && forallb (λ p : Z * list Z,
       forallb (λ v, bool_decide (v ∈ nodes g) && bool_decide (p.1 ∈ neighbors g v)) p.2) g.

Lemma adjacency_Some g v ns : adjacency g v = Some ns -> (v, ns) ∈ g.
Proof.
  induction g as [|[u ms] g IH]; simpl; [done|].
  case_decide as Hu; [intros [= <-]; subst; left|]. intros H. right. by apply IH.
Qed.

Lemma adjacency_None g v : adjacency g v = None <-> v ∉ nodes g.
Proof.
  induction g as [|[u ms] g IH]; simpl.
  - split; [intros _ H; by apply elem_of_nil in H|done].
  - case_decide as Hu.
    + split; [done|]. intros H. exfalso. apply H. subst. left.
    + rewrite IH. unfold nodes. rewrite not_elem_of_cons.
      split; [by intros ?; split|by intros [_ ?]].
Qed.

Lemma adjacency_NoDup g v ns :
  NoDup (nodes g) -> (v, ns) ∈ g -> adjacency g v = Some ns.
Proof.
  induction g as [|[u ms] g IH]; simpl; intros Hnd Hin.
  - by apply elem_of_nil in Hin.
  - apply NoDup_cons in Hnd as [Hu Hnd]. apply elem_of_cons in Hin as [[= -> ->]|Hin].
    + by rewrite decide_True.
    + case_decide as Hv; [|by apply IH]. subst. exfalso. apply Hu.
      apply list_elem_of_fmap. by exists (v, ns).
Qed.

Lemma neighbors_in_nodes g u v : v ∈ neighbors g u -> u ∈ nodes g.
Proof.
  unfold neighbors. destruct (adjacency g u) as [ns|] eqn:H; simpl.
  - intros _. apply adjacency_Some in H. apply list_elem_of_fmap. by exists (u, ns).
  - by intros ?%elem_of_nil.
Qed.

Lemma reach_within_sound g k s v : v ∈ reach_within g k s -> reachable g s v.
Proof.
  revert v. induction k as [|k IH]; intros v; simpl.
  - intros ->%list_elem_of_singleton. apply rtc_refl.
  - intros [H|H]%elem_of_remove_dups%elem_of_app; [by apply IH|].
    apply list_elem_of_bind in H as (u & Hv & Hu).
    eapply rtc_r; [by apply IH|done].
Qed.

Lemma connectedb_sound g : connectedb g = true -> connected g.
Proof.
  unfold connectedb. intros H u v Hu Hv.
  rewrite forallb_forall in H. specialize (H u (proj1 (list_elem_of_In _ _) Hu)).
  rewrite forallb_forall in H. specialize (H v (proj1 (list_elem_of_In _ _) Hv)).
  apply bool_decide_eq_true in H. by eapply reach_within_sound.
Qed.

Lemma wf_graphb_sound g : wf_graphb g = true -> wf_graph g.
Proof.
  unfold wf_graphb. intros [Hnd H]%andb_prop.
  apply bool_decide_eq_true in Hnd. rewrite forallb_forall in H.
  assert (forall u v, v ∈ neighbors g u -> v ∈ nodes g /\ u ∈ neighbors g v) as Hall.
  { intros u v Hv. unfold neighbors in Hv at 1.
    destruct (adjacency g u) as [ns|] eqn:Hadj; simpl in Hv;
      [|by apply elem_of_nil in Hv].
    apply adjacency_Some, list_elem_of_In, H in Hadj. simpl in Hadj.
    rewrite forallb_forall in Hadj.
    apply list_elem_of_In, Hadj in Hv. apply andb_prop in Hv as [H1 H2].
    by apply bool_decide_eq_true in H1, H2. }
  split; [done| |]; intros u v Hv; by destruct (Hall u v Hv).
Qed.

Lemma walk_head_step g s t p :
  walk g s t p -> nth_error p 1 = None \/ exists v, nth_error p 1 = Some v /\ v ∈ neighbors g s.
Proof.
  intros (Hh & _ & Hw). destruct p as [|u [|v p]]; simpl in *; [done|by left|].
  right. injection Hh as ->. apply andb_prop in Hw as [Hv _].
  apply bool_decide_eq_true in Hv. eauto.
Qed.

(** The path 0 - 1 - 2 and the path 0 - 1 - 2 - 3. *)
Definition path3 : Graph := of_edges [(0, 1); (1, 2)].
Definition path4 : Graph := of_edges [(0, 1); (1, 2); (2, 3)].

Example path3_adjacency : path3 = [(0, [1]); (1, [0; 2]); (2, [1])].
Proof. reflexivity. Qed.

Example path4_edges : edges path4 = [(0, 1); (1, 2); (2, 3)].
Proof. reflexivity. Qed.

(** ** Edges and indices *)

Lemma length_nodes g : length (nodes g) = length g.
Proof. unfold nodes. apply length_fmap. Qed.

Lemma edges_from_elem seen g u v :
  (u, v) ∈ edges_from seen g <->
  exists pre ns post,
    g = pre ++ (u, ns) :: post /\ v ∈ ns /\ (v ∉ seen) /\ (v ∉ nodes pre).
Proof.
  revert seen. induction g as [|[n nbrs] g IH]; intros seen.
  - split; [by intros ?%elem_of_nil|].
    intros (pre & ns & post & Hg & _). by destruct pre.
  - cbn [edges_from]. rewrite elem_of_app, list_elem_of_fmap. split.
    + intros [(nbr & [= -> ->] & Hin)|Hin].
      * apply list_elem_of_filter in Hin as [Hseen Hin].
        exists [], nbrs, g. split_and!; [done|done|done|]. by intros ?%elem_of_nil.
      * apply IH in Hin as (pre & ns & post & -> & Hv & Hseen & Hpre).
        apply not_elem_of_cons in Hseen as [Hvn Hseen].
        exists ((n, nbrs) :: pre), ns, post. split_and!; [done|done|done|].
        unfold nodes. rewrite fmap_cons. apply not_elem_of_cons. done.
    + intros (pre & ns & post & Hg & Hv & Hseen & Hpre).
      destruct pre as [|[n' nbrs'] pre]; simpl in Hg; injection Hg as -> -> ->.
      * left. exists v. split; [done|]. by apply list_elem_of_filter.
      * right. apply IH. unfold nodes in Hpre. rewrite fmap_cons in Hpre.
        apply not_elem_of_cons in Hpre as [Hvn Hpre].
        exists pre, ns, post. split_and!; [done|done| |done].
        apply not_elem_of_cons. done.
Qed.

Lemma edges_adjacent g u v :
  NoDup (nodes g) -> (u, v) ∈ edges g -> v ∈ neighbors g u.
Proof.
  intros Hnd Hin. apply edges_from_elem in Hin as (pre & ns & post & -> & Hv & _).
  unfold neighbors. rewrite (adjacency_NoDup _ u ns Hnd); [done|].
  apply elem_of_app. right. left.
Qed.

Lemma edges_cover g u v :
  wf_graph g -> v ∈ neighbors g u -> u ≠ v ->
  (u, v) ∈ edges g \/ (v, u) ∈ edges g.
Proof.
  intros Hwf Hv Hne. pose proof (wf_nodup _ Hwf) as Hnd.
  pose proof (wf_sym _ Hwf u v Hv) as Hu.
  unfold neighbors in Hv at 1.
  destruct (adjacency g u) as [ns|] eqn:Hadj; simpl in Hv; [|by apply elem_of_nil in Hv].
  apply adjacency_Some, list_elem_of_split in Hadj as (pre & post & Hg).
  destruct (decide (v ∈ nodes pre)) as [Hpre|Hpre].
  - right. apply list_elem_of_fmap in Hpre as ([v' ms] & -> & Hin). simpl in *.
    apply list_elem_of_split in Hin as (pre1 & pre2 & ->).
    apply edges_from_elem. exists pre1, ms, (pre2 ++ (u, ns) :: post).
    split_and!.
    + by rewrite Hg, <- app_assoc.
    + unfold neighbors in Hu. rewrite (adjacency_NoDup g v' ms Hnd) in Hu; [done|].
      rewrite Hg. apply elem_of_app. left. apply elem_of_app. right. left.
    + by intros ?%elem_of_nil.
    + intros Hin. rewrite Hg in Hnd. unfold nodes in Hnd.
      rewrite !fmap_app, fmap_cons in Hnd.
      apply NoDup_app in Hnd as (_ & Hdis & _). apply (Hdis u).
      * apply elem_of_app. by left.
      * left.
  - left. apply edges_from_elem. exists pre, ns, post.
    split_and!; [done|done|by intros ?%elem_of_nil|done].
Qed.

(** The position of the first occurrence of an element of a list. *)
Definition index_of {A} `{!EqDecision A} (l : list A) (x : A) : option nat :=
  fst <$> list_find (λ y, y = x) l.

Lemma index_of_Some {A} `{!EqDecision A} (l : list A) x i :
  index_of l x = Some i -> l !! i = Some x.
Proof.
  unfold index_of. destruct (list_find _ l) as [[j y]|] eqn:H; [|done].
  simpl. intros [= ->]. apply list_find_Some in H as (H & -> & _). done.
Qed.

Lemma index_of_lookup {A} `{!EqDecision A} (l : list A) x i :
  NoDup l -> l !! i = Some x -> index_of l x = Some i.
Proof.
  intros Hnd Hi. unfold index_of.
  destruct (list_find (λ y, y = x) l) as [[j y]|] eqn:H.
  - apply list_find_Some in H as (Hj & -> & _). simpl. f_equal.
    by eapply NoDup_lookup.
  - eapply list_find_None, Forall_lookup_1 in H; [|done]. done.
Qed.

Lemma index_of_elem {A} `{!EqDecision A} (l : list A) x :
  x ∈ l -> is_Some (index_of l x).
Proof.
  intros Hin. unfold index_of.
  destruct (list_find (λ y, y = x) l) as [[j y]|] eqn:H; [by eexists|].
  apply list_find_None in H. apply list_elem_of_lookup in Hin as [i Hi].
  by eapply Forall_lookup_1 in H.
Qed.

(** [node_indices = {node: i for i, node in enumerate(graph.nodes)}] *)
Definition node_index (nodes : list Z) (node : Z) : option nat := index_of nodes node.

Lemma node_index_Some nodes x i :
  node_index nodes x = Some i -> nodes !! i = Some x.
Proof. apply index_of_Some. Qed.

Lemma node_index_lookup nodes x i :
  NoDup nodes -> nodes !! i = Some x -> node_index nodes x = Some i.
Proof. apply index_of_lookup. Qed.

Lemma node_index_elem nodes x : x ∈ nodes -> is_Some (node_index nodes x).
Proof. apply index_of_elem. Qed.

Lemma node_index_inj nodes x y i :
  node_index nodes x = Some i -> node_index nodes y = Some i -> x = y.
Proof. intros Hx%node_index_Some Hy%node_index_Some. congruence. Qed.

(** In a connected graph with a second node every node has a neighbour
    other than itself. *)
Lemma reachable_other_neighbor g x z :
  reachable g x z -> z ≠ x -> exists y, y ∈ neighbors g x /\ y ≠ x.
Proof.
  induction 1 as [x|x y z Hxy Hyz IH]; intros Hne; [done|].
  destruct (decide (y = x)) as [->|Hy]; [by apply IH|]. eauto.
Qed.

Lemma second_node (l : list Z) x :
  NoDup l -> (2 <= length l)%nat -> exists z, z ∈ l /\ z ≠ x.
Proof.
  intros Hnd Hlen. destruct l as [|a [|b l]]; simpl in Hlen; [lia|lia|].
  apply NoDup_cons in Hnd as [Hab _].
  destruct (decide (a = x)) as [->|Ha].
  - exists b. split; [right; left|]. intros ->. apply Hab. left.
  - exists a. split; [left|done].
Qed.

(** ** Building a graph *)

Lemma nodes_add_node g v :
  nodes (add_node g v) = if decide (v ∈ nodes g) then nodes g else nodes g ++ [v].
Proof.
  unfold add_node. case_decide; [done|]. unfold nodes. by rewrite fmap_app.
Qed.

Lemma adjacency_app g1 g2 u :
  adjacency (g1 ++ g2) u =
  match adjacency g1 u with Some ns => Some ns | None => adjacency g2 u end.
Proof.
  induction g1 as [|[x ns] g1 IH]; simpl; [done|]. by case_decide.
Qed.

Lemma neighbors_add_node g v u : neighbors (add_node g v) u = neighbors g u.
Proof.
  unfold add_node. case_decide as Hv; [done|]. unfold neighbors.
  rewrite adjacency_app. destruct (adjacency g u) as [ns|] eqn:Hu; [done|].
  simpl. by case_decide.
Qed.

Lemma nodes_add_neighbor g u v : nodes (add_neighbor g u v) = nodes g.
Proof.
  induction g as [|[x ns] g IH]; [done|]. cbn [add_neighbor].
  case_decide; unfold nodes in *; rewrite !fmap_cons; [done|]. by rewrite IH.
Qed.

Lemma neighbors_add_neighbor g u v x w :
  w ∈ neighbors (add_neighbor g u v) x <->
  w ∈ neighbors g x \/ (x = u /\ w = v /\ u ∈ nodes g).
Proof.
  unfold neighbors. induction g as [|[y ns] g IH].
  - simpl. split; [by intros ?%elem_of_nil|].
    intros [?%elem_of_nil|(_ & _ & ?%elem_of_nil)]; done.
  - cbn [add_neighbor]. destruct (decide (y = u)) as [->|Hyu].
    + cbn [adjacency]. destruct (decide (u = x)) as [->|Hux]; simpl.
      * destruct (decide (v ∈ ns)) as [Hv|Hv].
        -- split; [by left|]. intros [?|(_ & -> & _)]; done.
        -- rewrite elem_of_app, list_elem_of_singleton. split.
           ++ intros [?| ->]; [by left|]. right. split_and!; [done|done|]. left.
           ++ intros [?|(_ & -> & _)]; [by left|by right].
      * split; [by left|]. intros [?|(? & _)]; [done|congruence].
    + cbn [adjacency]. destruct (decide (y = x)) as [->|Hyx]; simpl.
      * split; [by left|]. intros [?|(? & _)]; [done|congruence].
      * rewrite IH. unfold nodes.
        assert (u ∈ ((y, ns) :: g).*1 <-> u ∈ g.*1) as ->; [|done].
        rewrite fmap_cons, elem_of_cons. simpl.
        split; [intros [?|?]; [congruence|done]|by right].
Qed.

Lemma add_node_elem g v x : x ∈ nodes (add_node g v) <-> x ∈ nodes g \/ x = v.
Proof.
  rewrite nodes_add_node. case_decide as Hv.
  - split; [by left|]. intros [?| ->]; done.
  - by rewrite elem_of_app, list_elem_of_singleton.
Qed.

Lemma nodes_add_edge g e x :
  x ∈ nodes (add_edge g e) <-> x ∈ nodes g \/ x = e.1 \/ x = e.2.
Proof.
  unfold add_edge. rewrite !nodes_add_neighbor, !add_node_elem. tauto.
Qed.

Lemma NoDup_add_node g v : NoDup (nodes g) -> NoDup (nodes (add_node g v)).
Proof.
  intros H. rewrite nodes_add_node. case_decide; [done|].
  apply NoDup_app. split_and!; [done| |apply NoDup_singleton].
  intros x Hx ->%list_elem_of_singleton. done.
Qed.

Lemma NoDup_add_edge g e : NoDup (nodes g) -> NoDup (nodes (add_edge g e)).
Proof.
  intros H. unfold add_edge. rewrite !nodes_add_neighbor.
  by do 2 apply NoDup_add_node.
Qed.

Lemma neighbors_add_edge g e x w :
  w ∈ neighbors (add_edge g e) x <->
  w ∈ neighbors g x \/ (x = e.1 /\ w = e.2) \/ (x = e.2 /\ w = e.1).
Proof.
  unfold add_edge.
  rewrite !neighbors_add_neighbor, !nodes_add_neighbor, !neighbors_add_node.
  assert (e.1 ∈ nodes (add_node (add_node g e.1) e.2)) as H1
    by (rewrite !add_node_elem; auto).
  assert (e.2 ∈ nodes (add_node (add_node g e.1) e.2)) as H2
    by (rewrite !add_node_elem; auto).
  tauto.
Qed.

Lemma nodes_add_nodes_from g vs x :
  x ∈ nodes (add_nodes_from g vs) <-> x ∈ nodes g \/ x ∈ vs.
Proof.
  unfold add_nodes_from. revert g. induction vs as [|v vs IH]; intros g; simpl.
  - split; [by left|]. intros [?|?%elem_of_nil]; done.
  - rewrite IH, add_node_elem, elem_of_cons. tauto.
Qed.

Lemma NoDup_add_nodes_from g vs :
  NoDup (nodes g) -> NoDup (nodes (add_nodes_from g vs)).
Proof.
  unfold add_nodes_from. revert g. induction vs as [|v vs IH]; intros g H; simpl;
    [done|]. by apply IH, NoDup_add_node.
Qed.

Lemma neighbors_add_nodes_from g vs u :
  neighbors (add_nodes_from g vs) u = neighbors g u.
Proof.
  unfold add_nodes_from. revert g. induction vs as [|v vs IH]; intros g; simpl;
    [done|]. by rewrite IH, neighbors_add_node.
Qed.

Lemma nodes_add_edges_from g es x :
  x ∈ nodes (add_edges_from g es) <->
  x ∈ nodes g \/ exists e, e ∈ es /\ (x = e.1 \/ x = e.2).
Proof.
  unfold add_edges_from. revert g. induction es as [|e es IH]; intros g; simpl.
  - split; [by left|]. intros [?|(e & ?%elem_of_nil & _)]; done.
  - rewrite IH, nodes_add_edge. split.
    + intros [[?|He]|(e' & He' & Hx)]; [by left| |].
      * right. exists e. split; [left|done].
      * right. exists e'. split; [by right|done].
    + intros [?|(e' & [->|He']%elem_of_cons & Hx)]; [by left; left| |].
      * left. by right.
      * right. eauto.
Qed.

Lemma NoDup_add_edges_from g es :
  NoDup (nodes g) -> NoDup (nodes (add_edges_from g es)).
Proof.
  unfold add_edges_from. revert g. induction es as [|e es IH]; intros g H; simpl;
    [done|]. by apply IH, NoDup_add_edge.
Qed.

Lemma neighbors_add_edges_from g es x w :
  w ∈ neighbors (add_edges_from g es) x <->
  w ∈ neighbors g x \/ (x, w) ∈ es \/ (w, x) ∈ es.
Proof.
  unfold add_edges_from. revert g. induction es as [|e es IH]; intros g; simpl.
  - split; [by left|]. intros [?|[?%elem_of_nil|?%elem_of_nil]]; done.
  - rewrite IH, neighbors_add_edge, !elem_of_cons. destruct e as [a b]. simpl.
    split.
    + intros [[?|[[-> ->]|[-> ->]]]|[?|?]]; auto.
    + intros [?|[[[= -> ->]|?]|[[= -> ->]|?]]]; auto.
Qed.

(** A graph built from nodes and edges over those nodes is well formed. *)
Lemma wf_built vs es :
  (forall e, e ∈ es -> e.1 ∈ vs /\ e.2 ∈ vs) ->
  wf_graph (add_edges_from (add_nodes_from [] vs) es) /\
  (forall x, x ∈ nodes (add_edges_from (add_nodes_from [] vs) es) <-> x ∈ vs) /\
  (forall x w, w ∈ neighbors (add_edges_from (add_nodes_from [] vs) es) x <->
               (x, w) ∈ es \/ (w, x) ∈ es).
Proof.
  intros Hes.
  assert (forall x w, w ∈ neighbors (add_edges_from (add_nodes_from [] vs) es) x <->
                      (x, w) ∈ es \/ (w, x) ∈ es) as Hnb.
  { intros x w. rewrite neighbors_add_edges_from, neighbors_add_nodes_from.
    split; [intros [?%elem_of_nil|?]; done|by right]. }
  assert (forall x, x ∈ nodes (add_edges_from (add_nodes_from [] vs) es) <-> x ∈ vs)
    as Hnodes.
  { intros x. rewrite nodes_add_edges_from, nodes_add_nodes_from. split.
    - intros [[?%elem_of_nil|?]|(e & He & [->| ->])]; [done|done| |];
        by destruct (Hes e He).
    - intros ?. left. by right. }
  split; [|done]. split.
  - apply NoDup_add_edges_from, NoDup_add_nodes_from. constructor.
  - intros u v Hv. apply Hnodes. apply Hnb in Hv as [H|H];
      destruct (Hes _ H); done.
  - intros u v Hv. apply Hnb. apply Hnb in Hv. tauto.
Qed.

End Graphs.

(* ===================================================================== *)
(** * engine/modules/util/search.py: disjoint-path pursuit                *)
(* ===================================================================== *)

Module Search.
Import Graphs.

(** [penalty = defaultdict(lambda: 0)]: a read of a missing node gives 0
    (and stores that 0, which no later read can tell from a missing key). *)
Definition penalty_get (penalty : gmap Z Z) (v : Z) : Z := default 0 (penalty !! v).

(** [penalty[node] += 1] *)
Definition penalty_incr (penalty : gmap Z Z) (node : Z) : gmap Z Z :=
  <[node := penalty_get penalty node + 1]> penalty.

(** [first_step_on_path]; [None] is the [IndexError] of an empty path. *)
Definition first_step_on_path (path : list Z) : option Z :=
  match path with
  | [] => None
  | [x] => Some x
  | _ :: y :: _ => Some y
  end.

Section DisjointSearch.

(** [networkx.astar_path(graph, source, target, heuristic)] is library
    code: the search functions are stated over any function in its place.
    [None] is one of its exceptions ([NodeNotFound], [NetworkXNoPath]). *)
Variable astar_path : Graph -> Z -> Z -> (Z -> Z -> Z) -> option (list Z).

(** [penalty_astar]: the path, and the penalty dictionary after the call. *)
Definition penalty_astar (graph : Graph) (source target : Z) (penalty : gmap Z Z)
  : option (list Z * gmap Z Z) :=
  path ← astar_path graph source target (λ v _, penalty_get penalty v);
  Some (path, fold_left penalty_incr path penalty).

(** The loop of [disjoint_search_steps] from a given penalty dictionary
    and the moves collected so far; the final dictionary is returned too. *)
Fixpoint disjoint_search_loop (graph : Graph) (robber_position : Z)
    (cop_positions : list Z) (penalty : gmap Z Z) (move : list Z)
  : option (list Z * gmap Z Z) :=
  match cop_positions with
  | [] => Some (move, penalty)
  | cop_position :: rest =>
      '(path, penalty) ← penalty_astar graph cop_position robber_position penalty;
      step ← first_step_on_path path;
      disjoint_search_loop graph robber_position rest penalty (move ++ [step])
  end.

(** [disjoint_search_steps] *)
Definition disjoint_search_steps (graph : Graph) (cop_positions : list Z)
    (robber_position : Z) : option (list Z) :=
  fst <$> disjoint_search_loop graph robber_position cop_positions ∅ [].

(** The library's contract on one graph: between two nodes of the graph
    that are joined by a path the search returns a walk from the source to
    the target, whatever the heuristic is. *)
Definition astar_finds_walks (graph : Graph) : Prop :=
  forall source target heuristic,
    source ∈ nodes graph -> target ∈ nodes graph ->
    reachable graph source target ->
    exists path, astar_path graph source target heuristic = Some path /\
                 walk graph source target path.

(** The reading of the pursuit's description that also penalises the
    neighbourhood of a planned path. *)
Definition penalises_path_and_neighbours (graph : Graph) (source target : Z)
    (penalty : gmap Z Z) : Prop :=
  forall path penalty',
    penalty_astar graph source target penalty = Some (path, penalty') ->
    forall v, (v ∈ path \/ exists u, u ∈ path /\ v ∈ neighbors graph u) ->
              penalty_get penalty v < penalty_get penalty' v.

End DisjointSearch.

(** ** A reference search in the library's place

    The best-first loop of [astar_path] on unit edge weights: the queue
    holds [(priority, count, node, cost, parent)], the entry with the least
    [(priority, count)] is popped, [enqueued] keeps the best known cost and
    the heuristic value of a node, [explored] its parent. *)
Record queue_item : Type := {
  q_priority : Z; q_count : nat; q_node : Z; q_dist : Z; q_parent : option Z
}.

Definition item_before (a b : queue_item) : bool :=
  bool_decide (q_priority a < q_priority b)
  || (bool_decide (q_priority a = q_priority b) && bool_decide (q_count a <= q_count b)%nat).

Fixpoint heappop (queue : list queue_item) : option (queue_item * list queue_item) :=
  match queue with
  | [] => None
  | x :: queue' =>
      match heappop queue' with
      | None => Some (x, [])
      | Some (m, rest) =>
          if item_before x m then Some (x, queue') else Some (m, x :: rest)
      end
  end.

Fixpoint trace_back (fuel : nat) (explored : gmap Z (option Z)) (node : option Z)
    (path : list Z) : list Z :=
  match fuel, node with
  | S fuel', Some n =>
      trace_back fuel' explored (default None (explored !! n)) (n :: path)
  | _, _ => path
  end.

Definition relax (target : Z) (heuristic : Z -> Z -> Z) (curnode dist : Z)
    (st : list queue_item * gmap Z (Z * Z) * nat) (neighbor : Z)
  : list queue_item * gmap Z (Z * Z) * nat :=
  let '(queue, enqueued, c) := st in
  let ncost := dist + 1 in
  let push h :=
    (queue ++ [{| q_priority := ncost + h; q_count := c; q_node := neighbor;
                  q_dist := ncost; q_parent := Some curnode |}],
     <[neighbor := (ncost, h)]> enqueued, S c) in
  match enqueued !! neighbor with
  | Some (qcost, h) => if decide (qcost <= ncost) then st else push h
  | None => push (heuristic neighbor target)
  end.

Fixpoint astar_loop (fuel : nat) (graph : Graph) (target : Z)
    (heuristic : Z -> Z -> Z) (queue : list queue_item)
    (enqueued : gmap Z (Z * Z)) (explored : gmap Z (option Z)) (c : nat)
  : option (list Z) :=
  match fuel with
  | O => None
  | S fuel' =>
      match heappop queue with
      | None => None
      | Some (it, queue) =>
          let curnode := q_node it in
          if decide (curnode = target)
          then Some (trace_back (S (length graph)) explored (q_parent it) [curnode])
          else
            let stale :=
              match explored !! curnode with
              | Some None => true
              | Some (Some _) =>
                  match enqueued !! curnode with
                  | Some (qcost, _) => bool_decide (qcost < q_dist it)
                  | None => false
                  end
              | None => false
              end in
            if stale
            then astar_loop fuel' graph target heuristic queue enqueued explored c
            else
              let explored := <[curnode := q_parent it]> explored in
              let '(queue, enqueued, c) :=
                fold_left (relax target heuristic curnode (q_dist it))
                          (neighbors graph curnode) (queue, enqueued, c) in
              astar_loop fuel' graph target heuristic queue enqueued explored c
      end
  end.

Definition astar_reference (graph : Graph) (source target : Z)
    (heuristic : Z -> Z -> Z) : option (list Z) :=
  if has_node graph source && has_node graph target
  then astar_loop (S (length graph * length graph)) graph target heuristic
         [{| q_priority := 0; q_count := 0; q_node := source; q_dist := 0;
             q_parent := None |}] ∅ ∅ 1
  else None.

(** The same search run without a heuristic (uniform cost). *)
Definition uniform_cost_search (graph : Graph) (source target : Z)
    (_ : Z -> Z -> Z) : option (list Z) :=
  astar_reference graph source target (λ _ _, 0).

Example astar_reference_path4 : astar_reference path4 0 3 (λ _ _, 0) = Some [0; 1; 2; 3].
Proof. vm_compute. reflexivity. Qed.

Example astar_reference_same_node : astar_reference path4 2 2 (λ _ _, 0) = Some [2].
Proof. vm_compute. reflexivity. Qed.

(** Two cops on the 4-cycle 0 - 1 - 2 - 3 - 0, both on node 0, robber on
    node 2: the first cop is sent over node 1, and the penalty left on that
    path sends the second cop over node 3. *)
Definition cycle4 : Graph := of_edges [(0, 1); (1, 2); (2, 3); (3, 0)].

Example disjoint_search_steps_cycle4 :
  disjoint_search_steps astar_reference cycle4 [0; 0] 2 = Some [1; 3].
Proof. vm_compute. reflexivity. Qed.

(** ** The penalty dictionary *)

Lemma penalty_get_incr penalty node v :
  penalty_get (penalty_incr penalty node) v =
  penalty_get penalty v + (if decide (node = v) then 1 else 0).
Proof.
  unfold penalty_incr, penalty_get at 1. destruct (decide (node = v)) as [->|Hne].
  - by rewrite lookup_insert_eq.
  - rewrite lookup_insert_ne by done. fold (penalty_get penalty v). lia.
Qed.

Lemma penalty_get_fold path penalty v :
  penalty_get (fold_left penalty_incr path penalty) v =
  penalty_get penalty v + Z.of_nat (length (filter (v =.) path)).
Proof.
  revert penalty. induction path as [|node path IH]; intros penalty; simpl.
  - lia.
  - rewrite IH, penalty_get_incr, filter_cons.
    destruct (decide (node = v)) as [->|Hne].
    + rewrite decide_True by done. simpl. lia.
    + rewrite decide_False by congruence. lia.
Qed.

Lemma filter_eq_length_pos (v : Z) (path : list Z) :
  v ∈ path <-> (0 < length (filter (v =.) path))%nat.
Proof.
  induction path as [|x path IH].
  - split; [by intros ?%elem_of_nil|simpl; lia].
  - rewrite filter_cons, elem_of_cons. destruct (decide (v = x)) as [->|Hne].
    + simpl. split; [lia|by left].
    + rewrite <- IH. split; [by intros [?|?]|by right].
Qed.

(** C8, as the code has it. Planning the path of one cop raises the penalty
    of every node by the number of times the path visits it: by at least
    one on the path, and not at all off the path, neighbours of the path
    included.  The next cop of [disjoint_search_steps] is planned with the
    dictionary so updated. *)
Theorem penalty_astar_touches_path_only
    (astar_path : Graph -> Z -> Z -> (Z -> Z -> Z) -> option (list Z))
    (graph : Graph) (source target : Z) (penalty penalty' : gmap Z Z)
    (path : list Z) :
  penalty_astar astar_path graph source target penalty = Some (path, penalty') ->
  astar_path graph source target (λ v _, penalty_get penalty v) = Some path /\
  (forall v, penalty_get penalty' v =
             penalty_get penalty v + Z.of_nat (length (filter (v =.) path))) /\
  (forall v, v ∈ path -> penalty_get penalty v < penalty_get penalty' v) /\
  (forall v, v ∉ path -> penalty_get penalty' v = penalty_get penalty v) /\
  (forall rest move,
     disjoint_search_loop astar_path graph target (source :: rest) penalty move =
     step ← first_step_on_path path;
     disjoint_search_loop astar_path graph target rest penalty' (move ++ [step])).
Proof.
  unfold penalty_astar. intros H.
  destruct (astar_path graph source target _) as [p|] eqn:Hp; [|done].
  simpl in H. injection H as -> <-.
  split_and!; [done|apply penalty_get_fold| | |].
  - intros v Hv. rewrite penalty_get_fold.
    apply filter_eq_length_pos in Hv. lia.
  - intros v Hv. rewrite penalty_get_fold.
    destruct (length (filter (v =.) path)) eqn:Hl; [lia|].
    exfalso. apply Hv, filter_eq_length_pos. lia.
  - intros rest move. cbn [disjoint_search_loop]. unfold penalty_astar.
    rewrite Hp. done.
Qed.

Lemma penalty_astar_touches_path_only_witness :
  penalty_get (fold_left penalty_incr [0; 1] ∅) 0 = 1 /\
  penalty_get (fold_left penalty_incr [0; 1] ∅) 1 = 1 /\
  penalty_get (fold_left penalty_incr [0; 1] ∅) 2 = 0.
Proof.
  destruct (penalty_astar_touches_path_only astar_reference path3 0 1 ∅
              (fold_left penalty_incr [0; 1] ∅) [0; 1])
    as (_ & Hall & _).
  - vm_compute. reflexivity.
  - rewrite !Hall. vm_compute. done.
Defined.

(** On the path 0 - 1 - 2 the cop on node 0 is sent along [0; 1] to the
    robber on node 1.  Node 2 is a neighbour of node 1 on that path, and its
    penalty stays 0. *)
Lemma penalty_astar_skips_neighbours :
  ~ penalises_path_and_neighbours astar_reference path3 0 1 ∅.
Proof.
  intros H.
  specialize (H [0; 1] (fold_left penalty_incr [0; 1] ∅) eq_refl 2).
  assert (penalty_get ∅ 2 < penalty_get (fold_left penalty_incr [0; 1] ∅) 2) as Hlt.
  { apply H. right. exists 1. split.
    - apply list_elem_of_In. simpl. auto.
    - apply list_elem_of_In. vm_compute. auto. }
  vm_compute in Hlt. discriminate.
Qed.

(** ** Legality of the pursuit move *)

Lemma first_step_on_walk graph s t path :
  walk graph s t path ->
  exists step, first_step_on_path path = Some step /\
               (step = s \/ step ∈ neighbors graph s).
Proof.
  intros (Hh & _ & Hw). destruct path as [|u [|v p]]; simpl in *; [done| |].
  - injection Hh as ->. eauto.
  - injection Hh as ->. apply andb_prop in Hw as [Hv _].
    apply bool_decide_eq_true in Hv. eauto.
Qed.

Section Legality.

Variable astar_path : Graph -> Z -> Z -> (Z -> Z -> Z) -> option (list Z).
Variable graph : Graph.
Variable robber_position : Z.
Hypothesis astar_ok : astar_finds_walks astar_path graph.
Hypothesis graph_connected : connected graph.
Hypothesis robber_in_graph : robber_position ∈ nodes graph.

(** A step the pursuit may give a cop: the second node of a walk from the
    cop to the robber, or the cop's node when the walk is that node alone. *)
Definition pursuit_step (cop_position step : Z) : Prop :=
  (exists path, walk graph cop_position robber_position path /\
                first_step_on_path path = Some step) /\
  (step = cop_position \/ step ∈ neighbors graph cop_position).

Lemma disjoint_search_loop_legal cop_positions penalty move :
  Forall (λ c, c ∈ nodes graph) cop_positions ->
  exists steps penalty',
    disjoint_search_loop astar_path graph robber_position cop_positions penalty move
      = Some (move ++ steps, penalty') /\
    Forall2 pursuit_step cop_positions steps.
Proof.
  revert penalty move.
  induction cop_positions as [|c rest IH]; intros penalty move Hin.
  - exists [], penalty. simpl. rewrite app_nil_r. split; [done|constructor].
  - apply Forall_cons in Hin as [Hc Hrest].
    destruct (astar_ok c robber_position (λ v _, penalty_get penalty v) Hc
                robber_in_graph (graph_connected c robber_position Hc robber_in_graph))
      as (path & Hpath & Hwalk).
    destruct (first_step_on_walk _ _ _ _ Hwalk) as (step & Hstep & Hadj).
    destruct (IH (fold_left penalty_incr path penalty) (move ++ [step]) Hrest)
      as (steps & penalty' & Hloop & Hall).
    exists (step :: steps), penalty'. split.
    + cbn [disjoint_search_loop]. unfold penalty_astar. rewrite Hpath. simpl.
      rewrite Hstep. simpl. rewrite Hloop. by rewrite <- app_assoc.
    + constructor; [|done]. split; [eauto|done].
Qed.


End Legality.

Lemma uniform_cost_search_path3 : astar_finds_walks uniform_cost_search path3.
Proof.
  intros s t h Hs Ht _. unfold uniform_cost_search.
  apply list_elem_of_In in Hs, Ht. simpl in Hs, Ht.
  destruct Hs as [<-|[<-|[<-|[]]]], Ht as [<-|[<-|[<-|[]]]];
    eexists; (split; [vm_compute; reflexivity|]); by vm_compute.
Qed.


(* ===================================================================== *)
(** ** [farthest_node]: the last node a breadth-first search visits        *)
(* ===================================================================== *)

Import Outcome.
#[local] Set Warnings "-clear-no-such-hyp".

(** The [while discovered_nodes:] loop of [farthest_node].  The queue
    may hold a node several times; a node is marked when it is popped. *)
Fixpoint farthest_loop (fuel : nat) (graph : Graph) (discovered_nodes : list Z)
    (visited : gset Z) (last_visited_node : Z) : outcome Z :=
  match fuel with
  | O => OutOfFuel
  | S fuel' =>
      match discovered_nodes with
      | [] => Return last_visited_node
      | node :: discovered_nodes =>
          if decide (node ∈ visited)
          then farthest_loop fuel' graph discovered_nodes visited last_visited_node
          else if has_node graph node then
            let visited := {[node]} ∪ visited in
            let unvisited_neighbors :=
              filter (λ v, v ∉ visited) (neighbors graph node) in
            farthest_loop fuel' graph (discovered_nodes ++ unvisited_neighbors)
              visited node
          else Raise
      end
  end.

(** The number of entries of all adjacency lists. *)
Definition adjacency_entries (graph : Graph) : nat :=
  sum_list_with (λ p : Z * list Z, length p.2) graph.

(** [farthest_node]; [sources[0]] raises on an empty list.  Every round
    pops one entry and only the first visit of a node pushes entries, one
    per neighbour at most, which bounds the rounds. *)
Definition farthest_node (graph : Graph) (sources : list Z) : outcome Z :=
  match sources with
  | [] => Raise
  | first :: _ =>
      farthest_loop (length sources + adjacency_entries graph + 1) graph sources ∅ first
  end.

Example farthest_node_path4 : farthest_node path4 [0] = Return 3.
Proof. vm_compute. reflexivity. Qed.

Example farthest_node_path4_two_sources : farthest_node path4 [0; 3] = Return 2.
Proof. vm_compute. reflexivity. Qed.

(** The adjacency entries of the nodes that are not visited yet. *)
Definition pending (graph : Graph) (visited : gset Z) : nat :=
  sum_list_with (λ p : Z * list Z, length p.2)
    (filter (λ p : Z * list Z, p.1 ∉ visited) graph).

Lemma pending_cons u ns graph (visited : gset Z) :
  pending ((u, ns) :: graph) visited =
    if decide (u ∈ visited) then pending graph visited
    else (length ns + pending graph visited)%nat.
Proof.
  unfold pending.
  rewrite (filter_cons (λ p : Z * list Z, p.1 ∉ visited)). cbn [fst].
  destruct (decide (u ∉ visited)) as [Hu|Hu].
  - by rewrite decide_False.
  - rewrite decide_True; [done|]. by apply dec_stable.
Qed.

Lemma pending_empty graph : pending graph ∅ = adjacency_entries graph.
Proof.
  induction graph as [|[u ns] g IH]; [done|].
  rewrite pending_cons, decide_False by set_solver.
  unfold adjacency_entries in *. simpl. by rewrite IH.
Qed.

Lemma pending_mono graph (visited visited' : gset Z) :
  visited ⊆ visited' -> (pending graph visited' <= pending graph visited)%nat.
Proof.
  intros Hsub. induction graph as [|[u ns] g IH]; [done|].
  rewrite !pending_cons.
  destruct (decide (u ∈ visited)) as [Hu|Hu].
  - by rewrite decide_True by set_solver.
  - destruct (decide (u ∈ visited')); lia.
Qed.

Lemma pending_visit graph (visited : gset Z) node :
  node ∉ visited -> node ∈ nodes graph ->
  (length (neighbors graph node) + pending graph ({[node]} ∪ visited)
     <= pending graph visited)%nat.
Proof.
  intros Hnew. unfold neighbors, nodes.
  induction graph as [|[u ns] g IH]; [by intros ?%elem_of_nil|].
  rewrite fmap_cons. cbn [fst adjacency]. rewrite !pending_cons.
  destruct (decide (u = node)) as [->|Hne].
  - intros _. rewrite decide_True by set_solver. rewrite decide_False by done.
    simpl. pose proof (pending_mono g visited ({[node]} ∪ visited)) as Hm.
    specialize (Hm ltac:(set_solver)). lia.
  - intros [?|Hin]%elem_of_cons; [congruence|]. specialize (IH Hin).
    destruct (decide (u ∈ visited)) as [Hu|Hu].
    + by rewrite decide_True by set_solver.
    + rewrite decide_False by set_solver. lia.
Qed.

Lemma has_node_true graph v : has_node graph v = true <-> v ∈ nodes graph.
Proof. unfold has_node. apply bool_decide_eq_true. Qed.

Lemma length_filter_le {A} (P : A -> Prop) `{!forall x, Decision (P x)} (l : list A) :
  (length (filter P l) <= length l)%nat.
Proof.
  induction l as [|x l IH]; [done|].
  rewrite filter_cons. destruct (decide (P x)); simpl; lia.
Qed.

(** A source reaches the node. *)
Definition reached_from (graph : Graph) (sources : list Z) (v : Z) : Prop :=
  exists s, s ∈ sources /\ reachable graph s v.

Lemma farthest_loop_spec fuel :
  forall graph sources discovered_nodes visited last_visited_node,
    (length discovered_nodes + pending graph visited < fuel)%nat ->
    (forall u v, v ∈ neighbors graph u -> v ∈ nodes graph) ->
    (forall v, v ∈ discovered_nodes ->
               v ∈ nodes graph /\ reached_from graph sources v) ->
    last_visited_node ∈ nodes graph /\ reached_from graph sources last_visited_node ->
    exists v,
      farthest_loop fuel graph discovered_nodes visited last_visited_node = Return v /\
      v ∈ nodes graph /\ reached_from graph sources v.
Proof.
  induction fuel as [|fuel IH];
    intros graph sources queue visited last Hfuel Hclosed Hqueue Hlast; [lia|].
  cbn [farthest_loop]. destruct queue as [|node queue].
  { by exists last. }
  cbn [length] in Hfuel.
  destruct (Hqueue node ltac:(left)) as [Hnode Hreach].
  destruct (decide (node ∈ visited)) as [Hvis|Hvis].
  { apply IH; [lia|done| |done]. intros v Hv. apply Hqueue. by right. }
  rewrite (proj2 (has_node_true graph node)) by done. cbv zeta.
  apply IH; [|done| |done].
  - rewrite length_app.
    pose proof (pending_visit graph visited node Hvis Hnode).
    pose proof (length_filter_le (λ v, v ∉ {[node]} ∪ visited) (neighbors graph node)).
    lia.
  - intros v [Hv|Hv]%elem_of_app.
    + apply Hqueue. by right.
    + apply list_elem_of_filter in Hv as [_ Hv]. split; [by eapply Hclosed|].
      destruct Hreach as (s & Hs & Hr). exists s. split; [done|].
      eapply rtc_r; [exact Hr|exact Hv].
Qed.

(** [farthest_node] raises on an empty list of sources; otherwise it
    ends and returns a node of the graph that some source reaches. *)
Lemma farthest_node_spec (graph : Graph) (sources : list Z) :
  (forall u v, v ∈ neighbors graph u -> v ∈ nodes graph) ->
  (forall s, s ∈ sources -> s ∈ nodes graph) ->
  match sources with
  | [] => farthest_node graph sources = Raise
  | _ :: _ =>
      exists v, farthest_node graph sources = Return v /\
                v ∈ nodes graph /\ reached_from graph sources v
  end.
Proof.
  intros Hclosed Hsources. destruct sources as [|first rest]; [done|].
  unfold farthest_node.
  assert (forall v, v ∈ first :: rest ->
            v ∈ nodes graph /\ reached_from graph (first :: rest) v) as Hq.
  { intros v Hv. split; [by apply Hsources|]. exists v. split; [done|]. apply rtc_refl. }
  apply farthest_loop_spec; [|done|done|apply Hq; left].
  rewrite pending_empty. lia.
Qed.

Lemma path4_closed u v : v ∈ neighbors path4 u -> v ∈ nodes path4.
Proof. apply (wf_closed _ (wf_graphb_sound path4 ltac:(vm_compute; reflexivity))). Qed.

(* ===================================================================== *)
(** ** [multi_target_shortest_path]: breadth-first search to a target set  *)
(* ===================================================================== *)

(** One turn of [for neighbor in unvisited_neighbors]: the filter is
    lazy, so its test reads [predecessors] as the turns before left it. *)
Definition discover (node : Z) (visited : gset Z) (st : list Z * gmap Z Z)
    (neighbor : Z) : list Z * gmap Z Z :=
  if decide ((neighbor ∉ visited) /\ st.2 !! neighbor = None)
  then (st.1 ++ [neighbor], <[neighbor := node]> st.2)
  else st.

(** The loop of [trace_path]: [path] grows from the target backwards. *)
Fixpoint trace_loop (fuel : nat) (predecessors : gmap Z Z) (target : Z)
    (path : list Z) : outcome (list Z) :=
  match fuel with
  | O => OutOfFuel
  | S fuel' =>
      match predecessors !! target with
      | None => Return path
      | Some previous => trace_loop fuel' predecessors previous (path ++ [previous])
      end
  end.

(** [trace_path]; a chain of predecessors without a cycle has at most one
    node more than there are predecessors. *)
Definition trace_path (predecessors : gmap Z Z) (target : Z) : outcome (list Z) :=
  match trace_loop (S (size predecessors)) predecessors target [target] with
  | Return path => Return (reverse path)
  | Raise => Raise
  | OutOfFuel => OutOfFuel
  end.

(** The [while discovered_nodes:] loop; falling out of it raises. *)
Fixpoint shortest_path_loop (fuel : nat) (graph : Graph) (targets : gset Z)
    (discovered_nodes : list Z) (visited : gset Z) (predecessors : gmap Z Z)
  : outcome (list Z) :=
  match fuel with
  | O => OutOfFuel
  | S fuel' =>
      match discovered_nodes with
      | [] => Raise
      | node :: discovered_nodes =>
          if decide (node ∈ visited)
          then shortest_path_loop fuel' graph targets discovered_nodes visited
                 predecessors
          else if decide (node ∈ targets) then trace_path predecessors node
          else if has_node graph node then
            let visited := {[node]} ∪ visited in
            let st := fold_left (discover node visited) (neighbors graph node)
                        (discovered_nodes, predecessors) in
            shortest_path_loop fuel' graph targets st.1 visited st.2
          else Raise
      end
  end.

(** [multi_target_shortest_path]: every node enters the queue once at
    most, which bounds the rounds. *)
Definition multi_target_shortest_path (graph : Graph) (source : Z)
    (targets : list Z) : outcome (list Z) :=
  shortest_path_loop (length graph + 2) graph (list_to_set targets) [source] ∅ ∅.

Example multi_target_shortest_path_path4 :
  multi_target_shortest_path path4 0 [3; 2] = Return [0; 1; 2].
Proof. vm_compute. reflexivity. Qed.

Example multi_target_shortest_path_none :
  multi_target_shortest_path path4 0 [7] = Raise.
Proof. vm_compute. reflexivity. Qed.

(** *** Walks *)

Lemma is_walk_snoc g p u v :
  is_walk g p = true -> last p = Some u -> v ∈ neighbors g u ->
  is_walk g (p ++ [v]) = true.
Proof.
  induction p as [|x p IH]; [done|]. intros Hw Hl Hv.
  destruct p as [|y p].
  - simpl in *. injection Hl as ->. by rewrite bool_decide_eq_true_2.
  - change (is_walk g (x :: y :: p)) with
      (bool_decide (y ∈ neighbors g x) && is_walk g (y :: p)) in Hw.
    apply andb_prop in Hw as [Hxy Hw].
    change (is_walk g ((x :: y :: p) ++ [v])) with
      (bool_decide (y ∈ neighbors g x) && is_walk g ((y :: p) ++ [v])).
    rewrite Hxy. simpl. apply IH; done.
Qed.

Lemma walk_snoc g s u v p :
  walk g s u p -> v ∈ neighbors g u -> walk g s v (p ++ [v]).
Proof.
  intros (Hh & Hl & Hw) Hv. split_and!.
  - destruct p; [done|]. done.
  - by rewrite last_snoc.
  - by eapply is_walk_snoc.
Qed.

Lemma walk_singleton g s : walk g s s [s].
Proof. done. Qed.

Lemma walk_reachable g s t p : walk g s t p -> reachable g s t.
Proof.
  revert s. induction p as [|x p IH]; intros s (Hh & Hl & Hw); [done|].
  injection Hh as ->. destruct p as [|y p].
  - injection Hl as ->. apply rtc_refl.
  - change (is_walk g (s :: y :: p)) with
      (bool_decide (y ∈ neighbors g s) && is_walk g (y :: p)) in Hw.
    apply andb_prop in Hw as [Hxy Hw]. apply bool_decide_eq_true in Hxy.
    eapply rtc_l; [exact Hxy|]. apply IH. split_and!; [done| |done].
    by rewrite last_cons_cons in Hl.
Qed.

Lemma size_list_to_set_nodes graph :
  (size (list_to_set (nodes graph) : gset Z) <= length graph)%nat.
Proof.
  rewrite <- length_nodes. generalize (nodes graph) as l.
  induction l as [|x l IH].
  - rewrite list_to_set_nil, size_empty. simpl. lia.
  - rewrite list_to_set_cons. cbn [length].
    destruct (decide (x ∈ (list_to_set l : gset Z))) as [Hx|Hx].
    + assert ({[x]} ∪ list_to_set l = (list_to_set l : gset Z)) as Heq by set_solver.
      rewrite Heq. lia.
    + rewrite size_union by set_solver. rewrite size_singleton. lia.
Qed.

(** *** The invariant of the search *)

(** What the loop keeps, with the number [rank] of steps at which each
    node was discovered: every predecessor is an edge of the graph back to
    a node discovered one step earlier, so the chains of predecessors lead
    to the source. *)
Record bfs_inv (graph : Graph) (source : Z) (targets : gset Z) (rank : Z -> nat)
    (queue : list Z) (visited : gset Z) (predecessors : gmap Z Z) : Prop := {
  inv_source : predecessors !! source = None;
  inv_rank_source : rank source = 0%nat;
  inv_pred : forall v u, predecessors !! v = Some u ->
    v ∈ neighbors graph u /\ (u = source \/ is_Some (predecessors !! u)) /\
    rank v = S (rank u) /\ (rank v <= size predecessors)%nat;
  inv_known : forall v, v ∈ visited \/ v ∈ queue ->
    v = source \/ is_Some (predecessors !! v);
  inv_queued : forall v, is_Some (predecessors !! v) -> v ∈ visited \/ v ∈ queue;
  inv_nodes : forall v, v ∈ queue -> v ∈ nodes graph;
  inv_targets : forall v, v ∈ visited -> v ∉ targets
}.

(** The queue holds nodes of rank [d] followed by nodes of rank [d + 1],
    and no visited node has a rank above [d]. *)
Definition layers (rank : Z -> nat) (d : nat) (queue : list Z) (visited : gset Z)
  : Prop :=
  exists front back,
    queue = front ++ back /\
    Forall (λ x, rank x = d) front /\ Forall (λ x, rank x = S d) back /\
    forall v, v ∈ visited -> (rank v <= d)%nat.

(** Every neighbour of a visited node is visited or waits in the queue,
    and was discovered one step later at most. *)
Definition closed_upto (graph : Graph) (rank : Z -> nat) (visited : gset Z)
    (queue : list Z) : Prop :=
  forall u v, u ∈ visited -> v ∈ neighbors graph u ->
    (v ∈ visited \/ v ∈ queue) /\ (rank v <= S (rank u))%nat.

(** Following the predecessors from a known node gives a walk from the
    source with as many edges as the rank of the node. *)
Lemma trace_loop_walk graph source targets rank queue visited predecessors :
  bfs_inv graph source targets rank queue visited predecessors ->
  forall n fuel v path,
    (rank v <= n)%nat -> (n < fuel)%nat ->
    v = source \/ is_Some (predecessors !! v) ->
    exists rest,
      trace_loop fuel predecessors v path = Return (path ++ rest) /\
      length rest = rank v /\
      walk graph source v (reverse (v :: rest)).
Proof.
  intros Hinv. induction n as [|n IH]; intros fuel v path Hrank Hfuel Hknown.
  - destruct fuel as [|fuel]; [lia|]. cbn [trace_loop].
    destruct (predecessors !! v) as [u|] eqn:Hv.
    + destruct (inv_pred _ _ _ _ _ _ _ Hinv v u Hv) as (_ & _ & ? & _). lia.
    + destruct Hknown as [->|[? ?]]; [|done].
      exists []. rewrite app_nil_r, (inv_rank_source _ _ _ _ _ _ _ Hinv). done.
  - destruct fuel as [|fuel]; [lia|]. cbn [trace_loop].
    destruct (predecessors !! v) as [u|] eqn:Hv.
    + destruct (inv_pred _ _ _ _ _ _ _ Hinv v u Hv) as (Hedge & Hu & Hr & _).
      destruct (IH fuel u (path ++ [u])) as (rest & Htrace & Hlen & Hwalk);
        [lia|lia|done|].
      exists (u :: rest). rewrite Htrace, <- app_assoc. split; [done|].
      split; [simpl; lia|].
      rewrite reverse_cons. by eapply walk_snoc.
    + destruct Hknown as [->|[? ?]]; [|done].
      exists []. rewrite app_nil_r, (inv_rank_source _ _ _ _ _ _ _ Hinv). done.
Qed.

Lemma trace_path_walk graph source targets rank queue visited predecessors v :
  bfs_inv graph source targets rank queue visited predecessors ->
  v = source \/ is_Some (predecessors !! v) ->
  exists path, trace_path predecessors v = Return path /\
               walk graph source v path /\ length path = S (rank v).
Proof.
  intros Hinv Hknown. unfold trace_path.
  destruct (trace_loop_walk _ _ _ _ _ _ _ Hinv (size predecessors)
              (S (size predecessors)) v [v]) as (rest & Htrace & Hlen & Hwalk);
    [|lia|done|].
  - destruct Hknown as [->|[u Hu]].
    + rewrite (inv_rank_source _ _ _ _ _ _ _ Hinv). lia.
    + destruct (inv_pred _ _ _ _ _ _ _ Hinv v u Hu) as (_ & _ & _ & ?). lia.
  - rewrite Htrace. eexists. split; [done|]. split; [done|].
    rewrite length_reverse. simpl. lia.
Qed.

(** The nodes that have no predecessor yet. *)
Definition undiscovered (graph : Graph) (predecessors : gmap Z Z) : gset Z :=
  list_to_set (nodes graph) ∖ dom predecessors.

(** One turn of the inner loop keeps the invariant. *)
Lemma discover_inv graph source targets rank queue visited predecessors node v :
  bfs_inv graph source targets rank queue visited predecessors ->
  layers rank (rank node) queue visited ->
  source ∈ visited -> node ∈ visited ->
  v ∈ neighbors graph node -> v ∈ nodes graph ->
  let st := discover node visited (queue, predecessors) v in
  exists rank',
    bfs_inv graph source targets rank' st.1 visited st.2 /\
    layers rank' (rank' node) st.1 visited /\
    (forall x, x ∈ visited \/ x ∈ queue -> rank' x = rank x) /\
    (forall x, x ∈ queue -> x ∈ st.1) /\
    ((v ∈ visited \/ v ∈ st.1) /\ (rank' v <= S (rank' node))%nat) /\
    (length st.1 + size (undiscovered graph st.2)
       <= length queue + size (undiscovered graph predecessors))%nat.
Proof.
  intros Hinv Hlayers Hsource Hnode Hedge Hv. unfold discover. cbn [fst snd].
  destruct (decide ((v ∉ visited) /\ predecessors !! v = None)) as [[Hnew Hnone]|Hold];
    cbn [fst snd].
  - assert (v <> source) as Hvs by (intros ->; done).
    assert (v <> node) as Hvn by (intros ->; done).
    assert (v ∉ queue) as Hvq.
    { intros Hq. destruct (inv_known _ _ _ _ _ _ _ Hinv v) as [?|[? ?]];
        [by right|done|congruence]. }
    exists (λ x, if decide (x = v) then S (rank node) else rank x). cbv beta.
    rewrite (decide_False (P := node = v)) by done.
    rewrite (decide_True (P := v = v)) by done.
    assert (forall x, x ∈ visited \/ x ∈ queue ->
              (if decide (x = v) then S (rank node) else rank x) = rank x) as Hagree.
    { intros x Hx. rewrite decide_False; [done|]. intros ->. by destruct Hx. }
    split; [|split; [|split; [|split; [|split]]]].
    + destruct Hinv as [Hs Hrs Hp Hk Hq Hn Ht]. split.
      * by rewrite lookup_insert_ne.
      * by rewrite decide_False.
      * intros x u. rewrite map_size_insert_None by done.
        destruct (decide (x = v)) as [->|Hxv].
        -- rewrite lookup_insert_eq. intros [= <-]. rewrite decide_False by done.
           rewrite lookup_insert_ne by done.
           split; [done|split; [|split; [done|]]].
           ++ apply Hk. by left.
           ++ destruct (Hk node ltac:(by left)) as [->|[w Hw]].
              ** rewrite Hrs. lia.
              ** destruct (Hp _ _ Hw) as (_ & _ & _ & ?). lia.
        -- rewrite lookup_insert_ne by done. intros Hx.
           destruct (Hp _ _ Hx) as (He & Hu & Hr & Hsize).
           assert (u <> v) as Huv.
           { intros ->. destruct Hu as [?|[? ?]]; congruence. }
           rewrite (decide_False (P := u = v)) by done.
           rewrite lookup_insert_ne by done. split; [done|split; [done|split; [done|lia]]].
      * intros x Hx. destruct (decide (x = v)) as [->|Hxv].
        -- right. rewrite lookup_insert_eq. by eexists.
        -- rewrite lookup_insert_ne by done. apply Hk.
           destruct Hx as [?|[?|?%list_elem_of_singleton]%elem_of_app]; auto. done.
      * intros x. destruct (decide (x = v)) as [->|Hxv].
        -- intros _. right. apply elem_of_app. right. by apply list_elem_of_singleton.
        -- rewrite lookup_insert_ne by done. intros Hx.
           destruct (Hq x Hx); [by left|right]. apply elem_of_app. by left.
      * intros x [?|Hx%list_elem_of_singleton]%elem_of_app; [by apply Hn|by subst x].
      * done.
    + destruct Hlayers as (front & back & -> & Hfront & Hback & Hvis).
      exists front, (back ++ [v]). split; [by rewrite app_assoc|].
      rewrite Forall_forall in Hfront. rewrite Forall_forall in Hback.
      split_and!.
      * apply Forall_forall. intros x Hx. rewrite decide_False; [by apply Hfront|].
        intros ->. apply Hvq. apply elem_of_app. by left.
      * apply Forall_app. split.
        -- apply Forall_forall. intros x Hx. rewrite decide_False; [by apply Hback|].
           intros ->. apply Hvq. apply elem_of_app. by right.
        -- apply Forall_singleton. by rewrite decide_True.
      * intros x Hx. rewrite decide_False by (intros ->; done). by apply Hvis.
    + exact Hagree.
    + intros x Hx. apply elem_of_app. by left.
    + split; [|lia]. right. apply elem_of_app. right. by apply list_elem_of_singleton.
    + rewrite length_app. simpl. unfold undiscovered. rewrite dom_insert_L.
      assert (size (list_to_set (nodes graph) ∖ ({[v]} ∪ dom predecessors) : gset Z)
              < size (list_to_set (nodes graph) ∖ dom predecessors : gset Z))%nat.
      { apply subset_size. split; [set_solver|].
        intros Hsub. specialize (Hsub v).
        assert (v ∈ (list_to_set (nodes graph) ∖ dom predecessors : gset Z)) as Hin.
        { apply elem_of_difference. split; [by apply elem_of_list_to_set|].
          by apply not_elem_of_dom. }
        apply Hsub in Hin. set_solver. }
      lia.
  - exists rank. split; [done|]. split; [done|]. split; [done|]. split; [done|].
    split; [|done].
    destruct Hlayers as (front & back & -> & Hfront & Hback & Hvis).
    destruct (decide (v ∈ visited)) as [Hvv|Hnv].
    { split; [by left|]. specialize (Hvis v Hvv). lia. }
    destruct (predecessors !! v) as [u|] eqn:Hu; [|exfalso; by apply Hold].
    destruct (inv_queued _ _ _ _ _ _ _ Hinv v) as [?|Hq]; [by eexists|done|].
    split; [by right|].
    apply elem_of_app in Hq as [Hq|Hq].
    + rewrite Forall_forall in Hfront. rewrite (Hfront v Hq). lia.
    + rewrite Forall_forall in Hback. rewrite (Hback v Hq). lia.
Qed.

Lemma fold_discover_inv graph source targets visited node ns :
  source ∈ visited -> node ∈ visited ->
  (forall v, v ∈ ns -> v ∈ neighbors graph node /\ v ∈ nodes graph) ->
  forall rank queue predecessors,
    bfs_inv graph source targets rank queue visited predecessors ->
    layers rank (rank node) queue visited ->
    let st := fold_left (discover node visited) ns (queue, predecessors) in
    exists rank',
      bfs_inv graph source targets rank' st.1 visited st.2 /\
      layers rank' (rank' node) st.1 visited /\
      (forall x, x ∈ visited \/ x ∈ queue -> rank' x = rank x) /\
      (forall x, x ∈ queue -> x ∈ st.1) /\
      (forall v, v ∈ ns ->
         (v ∈ visited \/ v ∈ st.1) /\ (rank' v <= S (rank' node))%nat) /\
      (length st.1 + size (undiscovered graph st.2)
         <= length queue + size (undiscovered graph predecessors))%nat.
Proof.
  intros Hsource Hnode.
  induction ns as [|v ns IH]; intros Hns rank queue pred Hinv Hlayers.
  - simpl. exists rank. split_and!; try done. by intros ? ?%elem_of_nil.
  - cbn [fold_left].
    destruct (Hns v ltac:(left)) as [Hedge Hv].
    pose proof (discover_inv graph source targets rank queue visited pred node v
                  Hinv Hlayers Hsource Hnode Hedge Hv) as Hstep.
    destruct (discover node visited (queue, pred) v) as [queue1 pred1].
    cbn [fst snd] in Hstep. cbv zeta in Hstep.
    destruct Hstep as (rank1 & Hinv1 & Hlayers1 & Hagree1 & Hsub1 & [Hv1 Hr1] & Hm1).
    destruct (IH ltac:(intros x Hx; apply Hns; by right) rank1 queue1 pred1
                Hinv1 Hlayers1)
      as (rank2 & Hinv2 & Hlayers2 & Hagree2 & Hsub2 & Hns2 & Hm2).
    exists rank2. split; [done|]. split; [done|].
    assert (rank2 node = rank1 node) as Hnode2 by (apply Hagree2; by left).
    split; [|split; [|split]].
    + intros x Hx. rewrite Hagree2, Hagree1; [done|done|].
      destruct Hx as [?|?]; [by left|right; by apply Hsub1].
    + intros x Hx. by apply Hsub2, Hsub1.
    + intros x [->|Hx]%elem_of_cons; [|by apply Hns2].
      split.
      * destruct Hv1 as [?|?]; [by left|right; by apply Hsub2].
      * rewrite Hnode2, Hagree2; [done|].
        destruct Hv1 as [?|?]; [by left|by right].
    + lia.
Qed.

Lemma layers_pop rank d node queue visited :
  layers rank d (node :: queue) visited ->
  layers rank (rank node) queue visited /\
  (forall x, x ∈ queue -> (rank node <= rank x)%nat) /\
  (forall v, v ∈ visited -> (rank v <= rank node)%nat).
Proof.
  intros (front & back & Heq & Hfront & Hback & Hvis).
  destruct front as [|a front].
  - simpl in Heq. subst back. apply Forall_cons in Hback as [Hnode Hback].
    rewrite Hnode. split_and!.
    + exists queue, []. rewrite app_nil_r. split_and!; [done|done|constructor|].
      intros v Hv. specialize (Hvis v Hv). lia.
    + rewrite Forall_forall in Hback. intros x Hx. rewrite (Hback x Hx). lia.
    + intros v Hv. specialize (Hvis v Hv). lia.
  - injection Heq as <- ->. apply Forall_cons in Hfront as [Hnode Hfront].
    rewrite Hnode. split_and!.
    + by exists front, back.
    + rewrite Forall_forall in Hfront. rewrite Forall_forall in Hback.
      intros x [Hx|Hx]%elem_of_app; [rewrite (Hfront x Hx)|rewrite (Hback x Hx)]; lia.
    + done.
Qed.

Lemma layers_visit rank node queue (visited : gset Z) :
  layers rank (rank node) queue visited ->
  layers rank (rank node) queue ({[node]} ∪ visited).
Proof.
  intros (front & back & Heq & Hfront & Hback & Hvis).
  exists front, back. split_and!; try done.
  intros v [->%elem_of_singleton|Hv]%elem_of_union; [lia|by apply Hvis].
Qed.

Lemma is_walk_snoc_inv g p v :
  p <> [] -> is_walk g (p ++ [v]) = true ->
  is_walk g p = true /\ exists u, last p = Some u /\ v ∈ neighbors g u.
Proof.
  induction p as [|x p IH]; [done|]. intros _ Hw. destruct p as [|y p].
  - simpl in Hw. apply andb_prop in Hw as [Hv _]. apply bool_decide_eq_true in Hv.
    split; [done|]. by exists x.
  - change (is_walk g ((x :: y :: p) ++ [v])) with
      (bool_decide (y ∈ neighbors g x) && is_walk g ((y :: p) ++ [v])) in Hw.
    apply andb_prop in Hw as [Hxy Hw]. destruct (IH ltac:(done) Hw) as [Hp (u & Hu & Hv)].
    split.
    + change (is_walk g (x :: y :: p)) with
        (bool_decide (y ∈ neighbors g x) && is_walk g (y :: p)).
      by rewrite Hxy, Hp.
    + exists u. by rewrite last_cons_cons.
Qed.

(** Where a walk from the source ends: at a known node of at most the
    rank the walk allows, unless a node that waits in the queue has a
    smaller rank than that. *)
Lemma walk_meets_queue graph source targets rank queue visited predecessors :
  bfs_inv graph source targets rank queue visited predecessors ->
  closed_upto graph rank visited queue ->
  source ∈ visited \/ source ∈ queue ->
  forall p w, walk graph source w p ->
    ((w ∈ visited \/ w ∈ queue) /\ (S (rank w) <= length p)%nat) \/
    exists x, x ∈ queue /\ (S (rank x) < length p)%nat.
Proof.
  intros Hinv Hclosed Hsrc p.
  induction p as [|v p IH] using rev_ind; intros w (Hh & Hl & Hw); [done|].
  rewrite last_snoc in Hl. injection Hl as ->.
  destruct (decide (p = [])) as [->|Hp].
  - simpl in Hh. injection Hh as ->. left. split; [done|].
    rewrite (inv_rank_source _ _ _ _ _ _ _ Hinv). simpl. lia.
  - destruct (is_walk_snoc_inv graph p w Hp Hw) as [Hwp (u & Hu & Hedge)].
    assert (walk graph source u p) as Hwalk.
    { split_and!; [|done|done]. destruct p; [done|]. done. }
    rewrite length_app. simpl.
    destruct (IH u Hwalk) as [[[Hvis|Hq] Hr]|(x & Hx & Hr)].
    + left. destruct (Hclosed u w Hvis Hedge) as [Hk Hrw]. split; [done|lia].
    + right. exists u. split; [done|lia].
    + right. exists x. split; [done|lia].
Qed.

Lemma closed_reachable graph rank (visited : gset Z) s t :
  closed_upto graph rank visited [] -> s ∈ visited -> reachable graph s t ->
  t ∈ visited.
Proof.
  intros Hclosed Hs Hreach. induction Hreach as [|x y z Hxy _ IH]; [done|].
  apply IH. destruct (Hclosed x y Hs Hxy) as [[?|?%elem_of_nil] _]; done.
Qed.

Lemma shortest_path_loop_spec fuel :
  forall graph source targets rank queue visited predecessors d,
    (forall u v, v ∈ neighbors graph u -> v ∈ nodes graph) ->
    bfs_inv graph source targets rank queue visited predecessors ->
    closed_upto graph rank visited queue ->
    layers rank d queue visited ->
    source ∈ visited \/ queue = [source] ->
    (length queue + size (undiscovered graph predecessors) < fuel)%nat ->
    (exists path t,
       shortest_path_loop fuel graph targets queue visited predecessors
         = Return path /\
       t ∈ targets /\ walk graph source t path /\
       forall p t', t' ∈ targets -> walk graph source t' p ->
                    (length path <= length p)%nat) \/
    (shortest_path_loop fuel graph targets queue visited predecessors = Raise /\
     forall t, t ∈ targets -> ~ reachable graph source t).
Proof.
  induction fuel as [|fuel IH];
    intros graph source targets rank queue visited pred d
           Hgraph Hinv Hclosed Hlayers Hsrc Hfuel; [lia|].
  cbn [shortest_path_loop]. destruct queue as [|node queue].
  { right. split; [done|]. intros t Ht Hreach.
    destruct Hsrc as [Hsrc|?]; [|done].
    apply (inv_targets _ _ _ _ _ _ _ Hinv t); [|done].
    by eapply closed_reachable. }
  cbn [length] in Hfuel.
  destruct (layers_pop _ _ _ _ _ Hlayers) as (Hlayers' & Hmin & Hmax).
  destruct (decide (node ∈ visited)) as [Hvis|Hvis].
  { apply (IH graph source targets rank _ _ _ (rank node)); [done| | |done| |lia].
    - destruct Hinv as [Hs Hrs Hp Hk Hq Hn Ht]. split; try done.
      + intros v [?|?]; apply Hk; [by left|right; by right].
      + intros v Hv. destruct (Hq v Hv) as [?|[->|?]%elem_of_cons]; auto.
      + intros v Hv. apply Hn. by right.
    - intros u v Hu Hv. destruct (Hclosed u v Hu Hv) as [[?|[->|?]%elem_of_cons] ?]; auto.
    - left. destruct Hsrc as [?|[= -> _]]; done. }
  destruct (decide (node ∈ targets)) as [Htarget|Htarget].
  { left. destruct (trace_path_walk _ _ _ _ _ _ _ node Hinv)
      as (path & Hpath & Hwalk & Hlen).
    - apply (inv_known _ _ _ _ _ _ _ Hinv). right. left.
    - exists path, node. split_and!; [done|done|done|].
      intros p t' Ht' Hp. rewrite Hlen.
      destruct (walk_meets_queue _ _ _ _ _ _ _ Hinv Hclosed) with (p := p) (w := t')
        as [[[Hv|Hq] Hr]|(x & Hx & Hr)]; [| |by apply (inv_targets _ _ _ _ _ _ _ Hinv) in Hv| | ].
      + destruct Hsrc as [?|[= -> _]]; [by left|right; left].
      + done.
      + apply elem_of_cons in Hq as [->|Hq]; [lia|]. specialize (Hmin _ Hq). lia.
      + apply elem_of_cons in Hx as [->|Hx]; [lia|]. specialize (Hmin _ Hx). lia. }
  assert (node ∈ nodes graph) as Hnode
    by (apply (inv_nodes _ _ _ _ _ _ _ Hinv); left).
  rewrite (proj2 (has_node_true graph node)) by done. cbv zeta.
  set (visited' := {[node]} ∪ visited).
  assert (bfs_inv graph source targets rank queue visited' pred) as Hinv'.
  { destruct Hinv as [Hs Hrs Hp Hk Hq Hn Ht]. split; try done.
    - intros v [[->%elem_of_singleton|?]%elem_of_union|?]; apply Hk.
      + right. left.
      + by left.
      + right. by right.
    - intros v Hv. destruct (Hq v Hv) as [?|[->|?]%elem_of_cons].
      + left. set_solver.
      + left. set_solver.
      + by right.
    - intros v Hv. apply Hn. by right.
    - intros v [->%elem_of_singleton|?]%elem_of_union; [done|by apply Ht]. }
  assert (source ∈ visited') as Hsrc'.
  { destruct Hsrc as [?|[= -> _]]; set_solver. }
  pose proof (fold_discover_inv graph source targets visited' node
                (neighbors graph node) Hsrc' ltac:(set_solver)
                ltac:(intros v Hv; split; [done|by eapply Hgraph])
                rank queue pred Hinv' (layers_visit _ _ _ _ Hlayers')) as Hfold.
  destruct (fold_left (discover node visited') (neighbors graph node) (queue, pred))
    as [queue1 pred1].
  cbn [fst snd] in Hfold |- *. cbv zeta in Hfold.
  destruct Hfold as (rank1 & Hinv1 & Hlayers1 & Hagree & Hsub & Hnbrs & Hm).
  apply (IH graph source targets rank1 _ _ _ (rank1 node));
    [done|done| |done|by left|lia].
  intros u v [->%elem_of_singleton|Hu]%elem_of_union Hv.
  - by apply Hnbrs.
  - destruct (Hclosed u v Hu Hv) as [Hk Hr].
    assert (rank1 u = rank u) as -> by (apply Hagree; left; set_solver).
    assert (v ∈ visited' \/ v ∈ queue) as Hk'.
    { destruct Hk as [?|[->|?]%elem_of_cons]; [left|left|by right]; set_solver. }
    rewrite (Hagree v Hk'). split; [|done].
    destruct Hk' as [?|?]; [by left|right; by apply Hsub].
Qed.

(** X12. [multi_target_shortest_path] on a graph whose adjacency lists
    only name nodes of the graph, from a node of the graph: the search
    ends.  When a target can be reached from the source it returns a walk
    of the graph from the source to one of the targets, and no walk from
    the source to any target is shorter; it raises exactly when no target
    can be reached. *)
Theorem multi_target_shortest_path_spec (graph : Graph) (source : Z)
    (targets : list Z) :
  (forall u v, v ∈ neighbors graph u -> v ∈ nodes graph) ->
  source ∈ nodes graph ->
  (exists path t,
     multi_target_shortest_path graph source targets = Return path /\
     t ∈ targets /\ walk graph source t path /\
     forall p t', t' ∈ targets -> walk graph source t' p ->
                  (length path <= length p)%nat) \/
  (multi_target_shortest_path graph source targets = Raise /\
   forall t, t ∈ targets -> ~ reachable graph source t).
Proof.
  intros Hgraph Hsource. unfold multi_target_shortest_path.
  destruct (shortest_path_loop_spec (length graph + 2) graph source
              (list_to_set targets) (λ _, 0%nat) [source] ∅ ∅ 0%nat Hgraph)
    as [(path & t & Hpath & Ht & Hwalk & Hshort)|[Hraise Hnone]].
  - split; try done.
    + intros v [?|Hv%list_elem_of_singleton]; [set_solver|by left].
    + intros v [? Hv]. by rewrite lookup_empty in Hv.
    + intros v Hv%list_elem_of_singleton. by subst v.
  - intros u v Hu. set_solver.
  - exists [source], []. split_and!; [done|by constructor|constructor|set_solver].
  - by right.
  - unfold undiscovered. rewrite dom_empty_L.
    pose proof (size_list_to_set_nodes graph). simpl.
    assert (list_to_set (nodes graph) ∖ ∅ = (list_to_set (nodes graph) : gset Z))
      as Heq by set_solver.
    rewrite Heq. lia.
  - left. exists path, t. split_and!; [done|set_solver|done|].
    intros p t' Ht'. apply Hshort. set_solver.
  - right. split; [done|]. intros t Ht. apply Hnone. set_solver.
Qed.

Lemma multi_target_shortest_path_spec_witness :
  (exists path t,
     multi_target_shortest_path path4 0 [3; 2] = Return path /\
     t ∈ [3; 2] /\ walk path4 0 t path /\
     forall p t', t' ∈ [3; 2] -> walk path4 0 t' p -> (length path <= length p)%nat) \/
  (multi_target_shortest_path path4 0 [3; 2] = Raise /\
   forall t, t ∈ [3; 2] -> ~ reachable path4 0 t).
Proof.
  apply (multi_target_shortest_path_spec path4 0 [3; 2] path4_closed).
  apply list_elem_of_In. simpl. auto.
Defined.

(** X13. The cases outside that: a source that is itself a target is
    answered by the one-node path at once, in the graph or not; a source
    that is neither a target nor a node of the graph raises, as asking for
    its neighbours does. *)
Theorem multi_target_shortest_path_edge_cases (graph : Graph) (source : Z)
    (targets : list Z) :
  (source ∈ targets ->
     multi_target_shortest_path graph source targets = Return [source]) /\
  (source ∉ targets -> source ∉ nodes graph ->
     multi_target_shortest_path graph source targets = Raise).
Proof.
  unfold multi_target_shortest_path.
  replace (length graph + 2)%nat with (S (S (length graph))) by lia.
  cbn [shortest_path_loop]. rewrite decide_False by set_solver. split.
  - intros Ht. rewrite decide_True by set_solver. done.
  - intros Ht Hn. rewrite decide_False by set_solver.
    unfold has_node. by rewrite bool_decide_eq_false_2.
Qed.

Lemma multi_target_shortest_path_edge_cases_witness :
  multi_target_shortest_path path4 7 [3; 7] = Return [7] /\
  multi_target_shortest_path path4 7 [3; 2] = Raise.
Proof.
  split.
  - apply (multi_target_shortest_path_edge_cases path4 7 [3; 7]).
    apply list_elem_of_In. simpl. auto.
  - apply (multi_target_shortest_path_edge_cases path4 7 [3; 2]).
    + intros H. apply list_elem_of_In in H. simpl in H. intuition lia.
    + intros H. apply list_elem_of_In in H. simpl in H. intuition lia.
Defined.

(* ===================================================================== *)
(** ** [farthest_node] returns a node farthest from the sources            *)
(* ===================================================================== *)

(** A walk of the graph from one of the sources to [v]. *)
Definition source_walk (graph : Graph) (sources : list Z) (v : Z) (p : list Z)
  : Prop :=
  exists s, s ∈ sources /\ walk graph s v p.

(** The invariant of the loop.  Every entry of the queue is taken with
    the number of steps after which it was pushed, and every visited node
    with the number [rank] of steps after which it was visited. *)
Record far_inv (graph : Graph) (sources : list Z) (rank : Z -> nat)
    (entries : list (Z * nat)) (visited : gset Z) : Prop := {
  far_layers : exists d front back,
    entries = front ++ back /\
    Forall (λ e : Z * nat, e.2 = d) front /\
    Forall (λ e : Z * nat, e.2 = S d) back /\
    forall v, v ∈ visited -> (rank v <= d)%nat;
  far_entry_walk : forall x l, (x, l) ∈ entries ->
    exists p, source_walk graph sources x p /\ length p = S l;
  far_visited_walk : forall v, v ∈ visited ->
    exists p, source_walk graph sources v p /\ length p = S (rank v);
  far_visited_min : forall v p, v ∈ visited -> source_walk graph sources v p ->
    (S (rank v) <= length p)%nat;
  far_closed : forall u v, u ∈ visited -> v ∈ neighbors graph u ->
    (v ∈ visited /\ (rank v <= S (rank u))%nat) \/
    (exists l, (v, l) ∈ entries /\ (l <= S (rank u))%nat);
  far_sources : forall s, s ∈ sources ->
    (s ∈ visited /\ rank s = 0%nat) \/ (s, 0%nat) ∈ entries;
  far_nodes : forall x l, (x, l) ∈ entries -> x ∈ nodes graph;
  far_visited_nodes : forall v, v ∈ visited -> v ∈ nodes graph
}.

(** Where a walk from a source ends: at a visited node of at most the
    rank the walk allows, unless an entry of the queue was pushed after
    fewer steps than the walk has. *)
Lemma source_walk_meets graph sources rank entries visited :
  far_inv graph sources rank entries visited ->
  forall p w, source_walk graph sources w p ->
    (w ∈ visited /\ (S (rank w) <= length p)%nat) \/
    exists x l, (x, l) ∈ entries /\ (S l <= length p)%nat.
Proof.
  intros Hinv p.
  induction p as [|v p IH] using rev_ind; intros w (s & Hs & Hh & Hl & Hw); [done|].
  rewrite last_snoc in Hl. injection Hl as Hl. subst v.
  destruct (decide (p = [])) as [->|Hp].
  - simpl in Hh. injection Hh as Hh. subst s.
    destruct (far_sources _ _ _ _ _ Hinv w Hs) as [[Hv Hr]|He].
    + left. split; [done|]. rewrite Hr. simpl. lia.
    + right. exists w, 0%nat. split; [done|]. simpl. lia.
  - destruct (is_walk_snoc_inv graph p w Hp Hw) as [Hwp (u & Hu & Hedge)].
    assert (source_walk graph sources u p) as Hwalk.
    { exists s. split; [done|]. split_and!; [|done|done]. destruct p; [done|]. done. }
    rewrite length_app. simpl.
    destruct (IH u Hwalk) as [[Hvis Hr]|(x & l & Hx & Hr)].
    + destruct (far_closed _ _ _ _ _ Hinv u w Hvis Hedge) as [[Hv Hrw]|(l & Hl & Hrl)].
      * left. split; [done|lia].
      * right. exists w, l. split; [done|lia].
    + right. exists x, l. split; [done|lia].
Qed.

Lemma far_layers_pop (rank : Z -> nat) d node l (entries : list (Z * nat))
    (visited : gset Z) :
  (exists front back,
     (node, l) :: entries = front ++ back /\
     Forall (λ e : Z * nat, e.2 = d) front /\
     Forall (λ e : Z * nat, e.2 = S d) back /\
     forall v, v ∈ visited -> (rank v <= d)%nat) ->
  (exists front back,
     entries = front ++ back /\
     Forall (λ e : Z * nat, e.2 = l) front /\
     Forall (λ e : Z * nat, e.2 = S l) back) /\
  (forall x l', (x, l') ∈ entries -> (l <= l')%nat) /\
  (forall v, v ∈ visited -> (rank v <= l)%nat).
Proof.
  intros (front & back & Heq & Hfront & Hback & Hvis).
  destruct front as [|a front].
  - simpl in Heq. subst back. apply Forall_cons in Hback as [Hnode Hback].
    simpl in Hnode. subst l. split_and!.
    + exists entries, []. rewrite app_nil_r. split_and!; [done|done|constructor].
    + rewrite Forall_forall in Hback. intros x l' Hx.
      specialize (Hback _ Hx). simpl in Hback. lia.
    + intros v Hv. specialize (Hvis v Hv). lia.
  - injection Heq as <- ->. apply Forall_cons in Hfront as [Hnode Hfront].
    simpl in Hnode. subst l. split_and!.
    + by exists front, back.
    + rewrite Forall_forall in Hfront. rewrite Forall_forall in Hback.
      intros x l' [Hx|Hx]%elem_of_app;
        [specialize (Hfront _ Hx)|specialize (Hback _ Hx)]; simpl in *; lia.
    + done.
Qed.

Lemma fmap_fst_pair {A B} (b : B) (l : list A) : ((λ v, (v, b)) <$> l).*1 = l.
Proof. induction l as [|x l IH]; [done|]. rewrite !fmap_cons. simpl. by rewrite IH. Qed.

Lemma farthest_loop_farthest fuel :
  forall graph sources rank entries visited last_visited_node,
    (forall u v, v ∈ neighbors graph u -> v ∈ nodes graph) ->
    far_inv graph sources rank entries visited ->
    (length entries + pending graph visited < fuel)%nat ->
    (entries <> [] /\ visited = ∅) \/
      (last_visited_node ∈ visited /\
       forall v, v ∈ visited -> (rank v <= rank last_visited_node)%nat) ->
    exists r p,
      farthest_loop fuel graph entries.*1 visited last_visited_node = Return r /\
      r ∈ nodes graph /\
      source_walk graph sources r p /\
      (forall q, source_walk graph sources r q -> (length p <= length q)%nat) /\
      (forall w q, source_walk graph sources w q ->
         exists q', source_walk graph sources w q' /\ (length q' <= length p)%nat).
Proof.
  induction fuel as [|fuel IH];
    intros graph sources rank entries visited last Hgraph Hinv Hfuel Hlast; [lia|].
  cbn [farthest_loop]. destruct entries as [|[node l] entries].
  { destruct Hlast as [[? _]|[Hlast Hmax]]; [done|].
    destruct (far_visited_walk _ _ _ _ _ Hinv last Hlast) as (p & Hp & Hlen).
    exists last, p. simpl. split_and!; [done| |done| |].
    - by apply (far_visited_nodes _ _ _ _ _ Hinv).
    - intros q Hq. rewrite Hlen. by apply (far_visited_min _ _ _ _ _ Hinv).
    - intros w q Hq.
      destruct (source_walk_meets _ _ _ _ _ Hinv q w Hq)
        as [[Hv Hr]|(x & l & Hx%elem_of_nil & _)]; [|done].
      destruct (far_visited_walk _ _ _ _ _ Hinv w Hv) as (q' & Hq' & Hlen').
      exists q'. split; [done|]. specialize (Hmax w Hv). lia. }
  rewrite fmap_cons. cbn [fst length] in *.
  destruct (far_layers _ _ _ _ _ Hinv) as (d & front0 & back0 & Hlayers0).
  destruct (far_layers_pop rank d node l entries visited
              ltac:(by exists front0, back0))
    as ((front & back & Hentries & Hfront & Hback) & Hmin & Hmax).
  assert (node ∈ nodes graph) as Hnode
    by (apply (far_nodes _ _ _ _ _ Hinv node l); left).
  destruct (decide (node ∈ visited)) as [Hvis|Hvis].
  { assert (visited <> ∅) as Hne by set_solver.
    apply (IH graph sources rank entries visited last); [done| |lia|].
    - destruct Hinv as [Hl Hew Hvw Hvm Hc Hs Hn Hvn]. split; try done.
      + exists l, front, back. done.
      + intros x l' Hx. apply Hew. by right.
      + intros u v Hu Hv. destruct (Hc u v Hu Hv) as [?|(l' & Hl' & Hr)]; [by left|].
        apply elem_of_cons in Hl' as [[= -> ->]|Hl'].
        * left. split; [done|]. specialize (Hmax _ Hvis). lia.
        * right. by exists l'.
      + intros s Hs'. destruct (Hs s Hs') as [?|[[= -> <-]|?]%elem_of_cons].
        * by left.
        * left. split; [done|]. specialize (Hmax _ Hvis). lia.
        * by right.
      + intros x l' Hx. apply (Hn x l'). by right.
    - right. destruct Hlast as [[_ ?]|?]; done. }
  rewrite (proj2 (has_node_true graph node)) by done. cbv zeta.
  set (visited' := {[node]} ∪ visited).
  set (fresh := filter (λ v, v ∉ visited') (neighbors graph node)).
  set (rank' := λ x, if decide (x = node) then l else rank x).
  assert (forall v, v ∈ visited -> rank' v = rank v) as Hagree.
  { intros v Hv. unfold rank'. rewrite decide_False; [done|]. by intros ->. }
  assert (rank' node = l) as Hrank_node by (unfold rank'; by rewrite decide_True).
  assert (forall v, v ∈ visited' -> (rank' v <= l)%nat) as Hmax'.
  { intros v [->%elem_of_singleton|Hv]%elem_of_union; [lia|].
    rewrite Hagree by done. by apply Hmax. }
  destruct (far_entry_walk _ _ _ _ _ Hinv node l ltac:(left)) as (pn & Hpn & Hlenn).
  assert (entries.*1 ++ fresh = (entries ++ ((λ v, (v, S l)) <$> fresh)).*1) as ->.
  { by rewrite fmap_app, fmap_fst_pair. }
  apply (IH graph sources rank'); [done| | |].
  - destruct Hinv as [Hl Hew Hvw Hvm Hc Hs Hn Hvn]. split.
    + exists l, front, (back ++ ((λ v, (v, S l)) <$> fresh)).
      rewrite Hentries, app_assoc. split_and!; [done|done| |done].
      apply Forall_app. split; [done|]. apply Forall_fmap. by apply Forall_true.
    + intros x l' [Hx|Hx]%elem_of_app; [apply Hew; by right|].
      apply list_elem_of_fmap in Hx as (v & [= -> ->] & Hv).
      apply list_elem_of_filter in Hv as [_ Hv].
      destruct Hpn as (s & Hs' & Hwalk).
      exists (pn ++ [v]). split; [|rewrite length_app; simpl; lia].
      exists s. split; [done|]. by eapply walk_snoc.
    + intros v [->%elem_of_singleton|Hv]%elem_of_union.
      * exists pn. by rewrite Hrank_node.
      * rewrite Hagree by done. by apply Hvw.
    + intros v p [->%elem_of_singleton|Hv]%elem_of_union Hp.
      * rewrite Hrank_node.
        destruct (source_walk_meets graph sources rank ((node, l) :: entries) visited
                    ltac:(by split) p node Hp) as [[? _]|(x & l' & Hx & Hr)]; [done|].
        apply elem_of_cons in Hx as [[= -> ->]|Hx]; [done|].
        specialize (Hmin _ _ Hx). lia.
      * rewrite Hagree by done. by apply Hvm.
    + intros u v Hu Hv.
      assert (v ∈ visited' \/ v ∉ visited') as [Hvv|Hvv]
        by (destruct (decide (v ∈ visited')); auto).
      { left. split; [done|]. specialize (Hmax' v Hvv).
        apply elem_of_union in Hu as [->%elem_of_singleton|Hu].
        - rewrite Hrank_node. lia.
        - destruct (Hc u v Hu Hv) as [[Hvo Hr]|(l' & Hl' & Hr)].
          + apply elem_of_union in Hvv as [->%elem_of_singleton|Hvv'].
            * done.
            * rewrite !Hagree by done. done.
          + rewrite (Hagree u) by done.
            apply elem_of_cons in Hl' as [[= -> ->]|Hl'].
            * by rewrite Hrank_node.
            * specialize (Hmin _ _ Hl'). lia. }
      right. apply elem_of_union in Hu as [->%elem_of_singleton|Hu].
      * exists (S l). rewrite Hrank_node. split; [|lia].
        apply elem_of_app. right. apply list_elem_of_fmap. exists v. split; [done|].
        by apply list_elem_of_filter.
      * rewrite (Hagree u) by done.
        destruct (Hc u v Hu Hv) as [[Hvo Hr]|(l' & Hl' & Hr)].
        -- exfalso. apply Hvv. set_solver.
        -- apply elem_of_cons in Hl' as [[= -> ->]|Hl'].
           ++ exfalso. apply Hvv. set_solver.
           ++ exists l'. split; [|done]. apply elem_of_app. by left.
    + intros s Hs'. destruct (Hs s Hs') as [[Hv Hr]|[[= -> <-]|He]%elem_of_cons].
      * left. split; [set_solver|]. by rewrite Hagree.
      * left. split; [set_solver|done].
      * right. apply elem_of_app. by left.
    + intros x l' [Hx|Hx]%elem_of_app; [apply (Hn x l'); by right|].
      apply list_elem_of_fmap in Hx as (v & [= -> ->] & Hv).
      apply list_elem_of_filter in Hv as [_ Hv]. by eapply Hgraph.
    + intros v [->%elem_of_singleton|Hv]%elem_of_union; [done|by apply Hvn].
  - rewrite length_app, length_fmap.
    pose proof (pending_visit graph visited node Hvis Hnode).
    pose proof (length_filter_le (λ v, v ∉ visited') (neighbors graph node)).
    fold fresh in H0. fold visited' in H. lia.
  - right. split; [set_solver|]. intros v Hv. rewrite Hrank_node. by apply Hmax'.
Qed.

(** X11. [farthest_node] raises on an empty list of sources.  On a graph
    whose adjacency lists only name nodes of the graph, with sources that
    are nodes of it, the search ends and returns a node of the graph that
    is farthest from the sources: some source reaches it by a walk [p]
    that no walk from a source to it undercuts, and every node that a
    source reaches at all is reached by a walk no longer than [p]. *)
Theorem farthest_node_farthest (graph : Graph) (sources : list Z) :
  (forall u v, v ∈ neighbors graph u -> v ∈ nodes graph) ->
  (forall s, s ∈ sources -> s ∈ nodes graph) ->
  match sources with
  | [] => farthest_node graph sources = Raise
  | _ :: _ =>
      exists r p,
        farthest_node graph sources = Return r /\
        r ∈ nodes graph /\
        source_walk graph sources r p /\
        (forall q, source_walk graph sources r q -> (length p <= length q)%nat) /\
        (forall w q, source_walk graph sources w q ->
           exists q', source_walk graph sources w q' /\ (length q' <= length p)%nat)
  end.
Proof.
  intros Hgraph Hsources. destruct sources as [|first rest]; [done|].
  unfold farthest_node. remember (first :: rest) as sources eqn:Hsrc.
  pose proof (farthest_loop_farthest (length sources + adjacency_entries graph + 1)
                graph sources (λ _, 0%nat) ((λ s, (s, 0%nat)) <$> sources) ∅ first
                Hgraph) as Hloop.
  rewrite fmap_fst_pair in Hloop. apply Hloop.
  - split.
    + exists 0%nat, ((λ s, (s, 0%nat)) <$> sources), []. rewrite app_nil_r.
      split_and!; [done| |constructor|set_solver].
      apply Forall_fmap. by apply Forall_true.
    + intros x l (s & [= -> ->] & Hs)%list_elem_of_fmap.
      exists [s]. split; [|done]. exists s. split; [done|apply walk_singleton].
    + set_solver.
    + set_solver.
    + set_solver.
    + intros s Hs. right. apply list_elem_of_fmap. by exists s.
    + intros x l (s & [= -> ->] & Hs)%list_elem_of_fmap. by apply Hsources.
    + set_solver.
  - rewrite length_fmap, pending_empty. lia.
  - left. split; [|done]. by rewrite Hsrc.
Qed.

Lemma farthest_node_farthest_witness :
  exists r p,
    farthest_node path4 [0; 3] = Return r /\
    r ∈ nodes path4 /\
    source_walk path4 [0; 3] r p /\
    (forall q, source_walk path4 [0; 3] r q -> (length p <= length q)%nat) /\
    (forall w q, source_walk path4 [0; 3] w q ->
       exists q', source_walk path4 [0; 3] w q' /\ (length q' <= length p)%nat).
Proof.
  apply (farthest_node_farthest path4 [0; 3] path4_closed).
  intros s Hs. apply list_elem_of_In in Hs. apply list_elem_of_In.
  simpl in *. intuition lia.
Defined.

End Search.

(* ===================================================================== *)
(** * engine/modules/minimax/engine.py: contour sub-graphs                *)
(* ===================================================================== *)

Module Engine.
Import Outcome Graphs.

(** One round of the loop of [effective_game_graph]: the radius it ran
    at, the next contour it computed, and what it yielded, if anything.  A
    yielded pair holds the sub-graph and the value of [hidden_cops] at the
    time of the yield (the generator hands out the one set object it keeps
    updating). *)
Record contour_round : Type := {
  round_radius : Z;
  round_next_contour : gset Z;
  round_yield : option (Graph * gset Z)
}.

(** [{neighbor for node in contour for neighbor in graph.neighbors(node)
      if neighbor not in visited_nodes}] *)
Definition next_contour_of (graph : Graph) (contour visited_nodes : gset Z) : gset Z :=
  list_to_set (filter (λ neighbor, neighbor ∉ visited_nodes)
                      (elements contour ≫= neighbors graph)).

(** The [while contour:] loop; [fuel] bounds the number of rounds. *)
Fixpoint contour_loop (fuel : nat) (graph : Graph) (max_radius : Z)
    (contour hidden_cops visited_nodes : gset Z) (radius : Z)
  : outcome (list contour_round) :=
  match fuel with
  | O => OutOfFuel
  | S fuel' =>
      if decide (contour = ∅) then Return []
      else if decide (max_radius < radius) then Return []
      else if negb (forallb (has_node graph) (elements contour)) then Raise
      else
        let visited_nodes := visited_nodes ∪ contour in
        let next_contour := next_contour_of graph contour visited_nodes in
        let newly_found_cops := hidden_cops ∩ next_contour in
        let hidden_cops :=
          if decide (newly_found_cops = ∅) then hidden_cops
          else hidden_cops ∖ newly_found_cops in
        let yielded :=
          if decide (newly_found_cops = ∅) then None
          else Some (subgraph graph (visited_nodes ∪ next_contour), hidden_cops) in
        match contour_loop fuel' graph max_radius next_contour hidden_cops
                visited_nodes (radius + 1) with
        | Return rounds =>
            Return ({| round_radius := radius; round_next_contour := next_contour;
                       round_yield := yielded |} :: rounds)
        | Raise => Raise
        | OutOfFuel => OutOfFuel
        end
  end.

(** [set(range(n_cops))] *)
Definition range_set (n : nat) : gset Z := list_to_set (Z.of_nat <$> seq 0 n).

(** The rounds of a run of [effective_game_graph]. *)
Definition contour_rounds (graph : Graph) (cop_positions : list Z)
    (robber_position : Z) (max_radius : Z) : outcome (list contour_round) :=
  let n_cops := length cop_positions in
  let contour : gset Z := {[ robber_position ]} in
  let hidden_cops := range_set n_cops ∖ contour in
  contour_loop (S (S (length graph))) graph max_radius contour hidden_cops ∅ 0.

(** [effective_game_graph]: the pairs the generator yields, in order. *)
Definition effective_game_graph (graph : Graph) (cop_positions : list Z)
    (robber_position : Z) (max_radius : Z) : outcome (list (Graph * gset Z)) :=
  match contour_rounds graph cop_positions robber_position max_radius with
  | Return rounds => Return (omap round_yield rounds)
  | Raise => Raise
  | OutOfFuel => OutOfFuel
  end.

(** What the docstring and the caller ask of a yielded set: the indices of
    the cops whose positions lie outside the yielded sub-graph. *)
Definition cops_outside (sub : Graph) (cop_positions : list Z) : gset Z :=
  list_to_set
    (omap (λ ic : nat * Z, if has_node sub ic.2 then None else Some (Z.of_nat ic.1))
          (imap pair cop_positions)).

(** The frontier holds the position of some cop. *)
Definition frontier_holds_cop (frontier : gset Z) (cop_positions : list Z) : bool :=
  existsb (λ c, bool_decide (c ∈ frontier)) cop_positions.

(** C3 at the path 0 - 1 - 2 - 3 with the one cop on node 3 and the
    robber on node 1.  The code tests the cop indices, not the cop
    positions, against the frontier.  The first frontier [{0, 2}] holds no
    cop, but holds the node 0, which is also the index of the cop: the
    sub-graph on 0, 1, 2 is yielded with an empty set, although the cop
    stands outside it.  The second frontier [{3}] reaches the cop and
    nothing is yielded. *)
Theorem effective_game_graph_tests_indices :
  contour_rounds path4 [3] 1 6 =
    Return [ {| round_radius := 0; round_next_contour := {[0; 2]};
                round_yield := Some ([(0, [1]); (1, [0; 2]); (2, [1])], ∅) |};
             {| round_radius := 1; round_next_contour := {[3]}; round_yield := None |};
             {| round_radius := 2; round_next_contour := ∅; round_yield := None |} ] /\
  effective_game_graph path4 [3] 1 6 =
    Return [([(0, [1]); (1, [0; 2]); (2, [1])], ∅)] /\
  frontier_holds_cop {[0; 2]} [3] = false /\
  frontier_holds_cop {[3]} [3] = true /\
  cops_outside [(0, [1]); (1, [0; 2]); (2, [1])] [3] = {[0]}.
Proof. vm_compute. repeat split; reflexivity. Qed.

(** With the cop on node 0 instead, index and position coincide and the
    run is the documented one. *)
Example effective_game_graph_cop_on_node_0 :
  effective_game_graph path4 [0] 2 6 =
    Return [([(0, [1]); (1, [0; 2]); (2, [1; 3]); (3, [2])], ∅)].
Proof. vm_compute. reflexivity. Qed.

#[local] Set Warnings "-clear-no-such-hyp".

(** ** The rounds of the contour search *)

(** The nodes of a graph as a set. *)
Definition node_set (graph : Graph) : gset Z := list_to_set (nodes graph).

Lemma node_set_size graph : (size (node_set graph) <= length graph)%nat.
Proof.
  unfold node_set. rewrite <- length_nodes.
  generalize (nodes graph) as l. induction l as [|x l IH].
  - rewrite list_to_set_nil, size_empty. simpl. lia.
  - rewrite list_to_set_cons. cbn [length].
    destruct (decide (x ∈ (list_to_set l : gset Z))) as [Hx|Hx].
    + assert ({[x]} ∪ list_to_set l = (list_to_set l : gset Z)) as Heq by set_solver.
      rewrite Heq. lia.
    + rewrite size_union by set_solver. rewrite size_singleton. lia.
Qed.

Lemma all_has_node graph (contour : gset Z) :
  forallb (has_node graph) (elements contour) = true <-> contour ⊆ node_set graph.
Proof.
  rewrite forallb_forall. unfold has_node, node_set. split.
  - intros H x Hx. apply elem_of_list_to_set.
    specialize (H x). rewrite bool_decide_eq_true in H. apply H.
    apply list_elem_of_In. by apply elem_of_elements.
  - intros H x Hx%list_elem_of_In%elem_of_elements.
    apply bool_decide_eq_true. apply (elem_of_list_to_set (C := gset Z)). by apply H.
Qed.

Lemma next_contour_elem graph contour visited x :
  x ∈ next_contour_of graph contour visited <->
  (x ∉ visited) /\ exists node, node ∈ contour /\ x ∈ neighbors graph node.
Proof.
  unfold next_contour_of.
  rewrite elem_of_list_to_set, list_elem_of_filter, list_elem_of_bind.
  split.
  - intros [? (node & ? & ?%elem_of_elements)]. eauto.
  - intros [? (node & ? & ?)]. split; [done|]. exists node.
    by rewrite elem_of_elements.
Qed.

Lemma omap_cons_unfold {A B} (f : A -> option B) x l :
  omap f (x :: l) = match f x with Some y => y :: omap f l | None => omap f l end.
Proof. done. Qed.

Lemma length_omap_le {A B} (f : A -> option B) l :
  (length (omap f l) <= length l)%nat.
Proof.
  induction l as [|x l IH]; [done|].
  rewrite omap_cons_unfold. destruct (f x); simpl; lia.
Qed.

(** One more round is run only on a non-empty contour of nodes of the
    graph that were not visited, so the visited nodes grow in every round. *)
Lemma contour_loop_rounds fuel :
  forall graph max_radius contour hidden_cops visited_nodes radius,
    visited_nodes ⊆ node_set graph ->
    contour ## visited_nodes ->
    (size (node_set graph ∖ visited_nodes) < fuel)%nat ->
    contour_loop fuel graph max_radius contour hidden_cops visited_nodes radius
      = Raise \/
    exists rounds,
      contour_loop fuel graph max_radius contour hidden_cops visited_nodes radius
        = Return rounds /\
      (length rounds <= size (node_set graph ∖ visited_nodes))%nat /\
      (Z.of_nat (length rounds) <= Z.max 0 (max_radius - radius + 1)).
Proof.
  induction fuel as [|fuel IH];
    intros graph max_radius contour hidden visited radius Hvis Hdisj Hfuel; [lia|].
  cbn [contour_loop].
  destruct (decide (contour = ∅)) as [Hempty|Hne].
  { right. exists []. simpl. split_and!; [done|lia|lia]. }
  destruct (decide (max_radius < radius)) as [Hrad|Hrad].
  { right. exists []. simpl. split_and!; [done|lia|lia]. }
  destruct (forallb (has_node graph) (elements contour)) eqn:Hall; simpl; [|by left].
  apply all_has_node in Hall. cbv zeta.
  set (visited' := visited ∪ contour).
  set (next := next_contour_of graph contour visited').
  assert (node_set graph ∖ visited' ⊂ node_set graph ∖ visited) as Hless.
  { apply set_choose_L in Hne as [x Hx]. split; [set_solver|].
    intros Hsub. assert (x ∈ node_set graph ∖ visited') as Hx'.
    { apply Hsub. set_solver. }
    set_solver. }
  apply subset_size in Hless.
  match goal with
  | |- context [contour_loop fuel graph max_radius next ?h visited' (radius + 1)] =>
      destruct (IH graph max_radius next h visited' (radius + 1))
        as [Hr|(rounds & Hr & Hlen & Hrounds)]
  end.
  - set_solver.
  - intros x Hx Hx'. apply next_contour_elem in Hx as [Hx _]. done.
  - lia.
  - left. by rewrite Hr.
  - right. rewrite Hr. eexists. split; [done|]. simpl. split; lia.
Qed.

(** X7. The search around the robber ends.  For every graph, cop
    positions, robber position and radius, [effective_game_graph] ends by
    itself, with an exception or after at most as many rounds as the graph
    has nodes and at most [max_radius + 1] rounds; and it yields at most one
    pair per round. *)
Theorem effective_game_graph_terminates (graph : Graph) (cop_positions : list Z)
    (robber_position : Z) (max_radius : Z) :
  (contour_rounds graph cop_positions robber_position max_radius = Raise /\
   effective_game_graph graph cop_positions robber_position max_radius = Raise) \/
  exists rounds,
    contour_rounds graph cop_positions robber_position max_radius = Return rounds /\
    effective_game_graph graph cop_positions robber_position max_radius
      = Return (omap round_yield rounds) /\
    (length rounds <= length graph)%nat /\
    Z.of_nat (length rounds) <= Z.max 0 (max_radius + 1) /\
    (length (omap round_yield rounds) <= length rounds)%nat.
Proof.
  unfold effective_game_graph, contour_rounds.
  destruct (contour_loop_rounds (S (S (length graph))) graph max_radius
              {[robber_position]}
              (range_set (length cop_positions) ∖ {[robber_position]}) ∅ 0)
    as [Hr|(rounds & Hr & Hlen & Hrad)].
  - set_solver.
  - set_solver.
  - pose proof (node_set_size graph) as Hsize.
    assert (node_set graph ∖ ∅ = node_set graph) as Heq by set_solver.
    rewrite Heq. lia.
  - left. by rewrite Hr.
  - right. exists rounds. rewrite Hr. split_and!; try done.
    + pose proof (node_set_size graph) as Hsize.
      assert (node_set graph ∖ ∅ = node_set graph) as Heq by set_solver.
      rewrite Heq in Hlen. lia.
    + lia.
    + apply length_omap_le.
Qed.

(** ** The pairs it yields *)

(** Each yielded set is strictly smaller than the one before it. *)
Fixpoint shrinking (hidden_cops : gset Z) (yields : list (Graph * gset Z)) : Prop :=
  match yields with
  | [] => True
  | (_, hidden) :: rest => hidden ⊂ hidden_cops /\ shrinking hidden rest
  end.

Lemma shrinking_length hidden_cops yields :
  shrinking hidden_cops yields -> (length yields <= size hidden_cops)%nat.
Proof.
  revert hidden_cops. induction yields as [|[g h] yields IH]; intros hidden; simpl.
  - lia.
  - intros [Hsub Hrest]. apply IH in Hrest. apply subset_size in Hsub. lia.
Qed.

Lemma shrinking_subset hidden_cops yields g h :
  shrinking hidden_cops yields -> (g, h) ∈ yields -> h ⊂ hidden_cops.
Proof.
  revert hidden_cops. induction yields as [|[g' h'] yields IH]; intros hidden; simpl.
  - by intros _ ?%elem_of_nil.
  - intros [Hsub Hrest] [[= -> ->]|Hin]%elem_of_cons; [done|].
    specialize (IH _ Hrest Hin). set_solver.
Qed.

Lemma contour_loop_shrinking fuel :
  forall graph max_radius contour hidden_cops visited_nodes radius rounds,
    contour_loop fuel graph max_radius contour hidden_cops visited_nodes radius
      = Return rounds ->
    shrinking hidden_cops (omap round_yield rounds).
Proof.
  induction fuel as [|fuel IH];
    intros graph max_radius contour hidden visited radius rounds; [done|].
  cbn [contour_loop].
  destruct (decide (contour = ∅)); [by intros [= <-]|].
  destruct (decide (max_radius < radius)); [by intros [= <-]|].
  destruct (forallb (has_node graph) (elements contour)); simpl; [|done].
  cbv zeta.
  set (visited' := visited ∪ contour).
  set (next := next_contour_of graph contour visited').
  destruct (decide (hidden ∩ next = ∅)) as [Hnone|Hsome].
  - destruct (contour_loop fuel graph max_radius next hidden visited' (radius + 1))
      as [rest| |] eqn:Hrest; [|done|done].
    intros [= <-]. rewrite omap_cons_unfold. simpl. by eapply IH.
  - destruct (contour_loop fuel graph max_radius next (hidden ∖ (hidden ∩ next))
                visited' (radius + 1)) as [rest| |] eqn:Hrest; [|done|done].
    intros [= <-]. rewrite omap_cons_unfold. simpl. split; [|by eapply IH].
    apply set_choose_L in Hsome as [x Hx]. split; [set_solver|].
    intros Hsub. specialize (Hsub x). set_solver.
Qed.

Lemma size_list_to_set_le (l : list Z) :
  (size (list_to_set l : gset Z) <= length l)%nat.
Proof.
  induction l as [|x l IH].
  - rewrite list_to_set_nil, size_empty. simpl. lia.
  - rewrite list_to_set_cons. cbn [length].
    destruct (decide (x ∈ (list_to_set l : gset Z))) as [Hx|Hx].
    + assert ({[x]} ∪ list_to_set l = (list_to_set l : gset Z)) as Heq by set_solver.
      rewrite Heq. lia.
    + rewrite size_union by set_solver. rewrite size_singleton. lia.
Qed.

Lemma range_set_elem n i : i ∈ range_set n <-> 0 <= i < Z.of_nat n.
Proof.
  unfold range_set. rewrite elem_of_list_to_set, list_elem_of_fmap. split.
  - intros (k & -> & Hk%elem_of_seq). lia.
  - intros Hi. exists (Z.to_nat i). split; [lia|]. apply elem_of_seq. lia.
Qed.

(** X8. The sets that [effective_game_graph] yields.  They start from
    the numbers below the number of cops, without the number that equals
    the robber's node: every yielded set is strictly smaller than the one
    yielded before it and holds only such numbers, so there are at most as
    many yields as cops. *)
Theorem effective_game_graph_hidden_cops (graph : Graph) (cop_positions : list Z)
    (robber_position : Z) (max_radius : Z) (yields : list (Graph * gset Z)) :
  effective_game_graph graph cop_positions robber_position max_radius
    = Return yields ->
  shrinking (range_set (length cop_positions) ∖ {[robber_position]}) yields /\
  (length yields <= length cop_positions)%nat /\
  (forall sub hidden i, (sub, hidden) ∈ yields -> i ∈ hidden ->
     0 <= i < Z.of_nat (length cop_positions) /\ i <> robber_position).
Proof.
  unfold effective_game_graph, contour_rounds.
  destruct (contour_loop _ _ _ _ _ _ _) as [rounds| |] eqn:Hloop; [|done|done].
  intros [= <-]. apply contour_loop_shrinking in Hloop.
  split_and!; [done| |].
  - apply shrinking_length in Hloop.
    pose proof (size_list_to_set_le (Z.of_nat <$> seq 0 (length cop_positions))) as H.
    rewrite length_fmap, length_seq in H. fold (range_set (length cop_positions)) in H.
    assert (size (range_set (length cop_positions) ∖ {[robber_position]})
              <= size (range_set (length cop_positions)))%nat
      by (apply subseteq_size; set_solver).
    lia.
  - intros sub hidden i Hin Hi.
    pose proof (shrinking_subset _ _ _ _ Hloop Hin) as [Hsub _].
    apply Hsub in Hi. apply elem_of_difference in Hi as [Hi Hne].
    apply range_set_elem in Hi. set_solver.
Qed.

Definition path4_yields : list (Graph * gset Z) :=
  [([(1, [2]); (2, [1; 3]); (3, [2])], {[0]});
   ([(0, [1]); (1, [0; 2]); (2, [1; 3]); (3, [2])], ∅)].

Lemma effective_game_graph_hidden_cops_witness :
  shrinking (range_set 2 ∖ {[2]}) path4_yields /\
  (length path4_yields <= 2)%nat /\
  (forall sub hidden i, (sub, hidden) ∈ path4_yields -> i ∈ hidden ->
     0 <= i < Z.of_nat 2 /\ i <> 2).
Proof.
  apply (effective_game_graph_hidden_cops path4 [0; 3] 2 6 path4_yields).
  vm_compute. reflexivity.
Defined.

(** ** The sub-graphs it yields *)

Lemma adjacency_subgraph g (keep : gset Z) v :
  adjacency (subgraph g keep) v =
    if decide (v ∈ keep) then filter (λ w, w ∈ keep) <$> adjacency g v else None.
Proof.
  unfold subgraph. induction g as [|[u ns] g IH].
  - by case_decide.
  - rewrite (filter_cons (λ p : Z * list Z, p.1 ∈ keep)). cbn [fst adjacency].
    destruct (decide (u ∈ keep)) as [Hu|Hu].
    + rewrite fmap_cons. cbn [fst snd adjacency].
      destruct (decide (u = v)) as [Heq|Hne]; [|exact IH].
      subst v. by rewrite decide_True.
    + etrans; [exact IH|]. destruct (decide (u = v)) as [Heq|Hne]; [|done].
      subst v. by destruct (decide (u ∈ keep)).
Qed.

Lemma neighbors_subgraph g (keep : gset Z) v :
  neighbors (subgraph g keep) v =
    if decide (v ∈ keep) then filter (λ w, w ∈ keep) (neighbors g v) else [].
Proof.
  unfold neighbors. rewrite adjacency_subgraph.
  case_decide; [|done]. by destruct (adjacency g v).
Qed.

Lemma nodes_subgraph g (keep : gset Z) :
  nodes (subgraph g keep) = filter (λ v, v ∈ keep) (nodes g).
Proof.
  unfold subgraph, nodes. induction g as [|[u ns] g IH]; [done|].
  rewrite fmap_cons, (filter_cons (λ p : Z * list Z, p.1 ∈ keep)),
    (filter_cons (λ v : Z, v ∈ keep)). cbn [fst].
  destruct (decide (u ∈ keep)); [|exact IH].
  rewrite !fmap_cons. cbn [fst]. f_equal. exact IH.
Qed.

(** What the caller relies on in a yielded sub-graph. *)
Record robber_region (graph : Graph) (robber_position : Z) (sub : Graph) : Prop := {
  region_robber : has_node sub robber_position = true;
  region_moves : neighbors sub robber_position = neighbors graph robber_position;
  region_nodes : forall v, v ∈ nodes sub -> v ∈ nodes graph;
  region_edges : forall u v, v ∈ neighbors sub u -> v ∈ neighbors graph u
}.

Lemma subgraph_region graph r (keep : gset Z) :
  r ∈ nodes graph -> r ∈ keep ->
  (forall v, v ∈ neighbors graph r -> v ∈ keep) ->
  robber_region graph r (subgraph graph keep).
Proof.
  intros Hr Hkeep Hnbrs. split.
  - unfold has_node. apply bool_decide_eq_true. rewrite nodes_subgraph.
    by apply list_elem_of_filter.
  - rewrite neighbors_subgraph, decide_True by done.
    induction (neighbors graph r) as [|x l IH]; [done|].
    rewrite filter_cons, decide_True by (apply Hnbrs; left).
    f_equal. apply IH. intros v Hv. apply Hnbrs. by right.
  - intros v. rewrite nodes_subgraph. by intros [_ ?]%list_elem_of_filter.
  - intros u v. rewrite neighbors_subgraph. case_decide.
    + by intros [_ ?]%list_elem_of_filter.
    + by intros ?%elem_of_nil.
Qed.

Lemma contour_loop_regions fuel :
  forall graph r max_radius contour hidden_cops visited_nodes radius rounds,
    r ∈ contour \/
      (r ∈ visited_nodes /\ r ∈ nodes graph /\
       forall v, v ∈ neighbors graph r -> v ∈ visited_nodes ∪ contour) ->
    contour_loop fuel graph max_radius contour hidden_cops visited_nodes radius
      = Return rounds ->
    forall sub hidden, (sub, hidden) ∈ omap round_yield rounds ->
                       robber_region graph r sub.
Proof.
  induction fuel as [|fuel IH];
    intros graph r max_radius contour hidden visited radius rounds Hinv; [done|].
  cbn [contour_loop].
  destruct (decide (contour = ∅)).
  { intros [= <-] ? ? ?%elem_of_nil. done. }
  destruct (decide (max_radius < radius)).
  { intros [= <-] ? ? ?%elem_of_nil. done. }
  destruct (forallb (has_node graph) (elements contour)) eqn:Hall; simpl; [|done].
  apply all_has_node in Hall. cbv zeta.
  set (visited' := visited ∪ contour).
  set (next := next_contour_of graph contour visited').
  assert (r ∈ visited' /\ r ∈ nodes graph /\
          forall v, v ∈ neighbors graph r -> v ∈ visited' ∪ next) as Hinv'.
  { destruct Hinv as [Hr|(Hr & Hn & Hnb)].
    - split_and!; [set_solver| |].
      + apply Hall in Hr. by apply elem_of_list_to_set in Hr.
      + intros v Hv. destruct (decide (v ∈ visited')); [set_solver|].
        apply elem_of_union_r. apply next_contour_elem. split; [done|]. by exists r.
    - split_and!; [set_solver|done|]. intros v Hv. specialize (Hnb v Hv). set_solver. }
  assert (forall h rest,
            contour_loop fuel graph max_radius next h visited' (radius + 1)
              = Return rest ->
            forall sub hidden, (sub, hidden) ∈ omap round_yield rest ->
                               robber_region graph r sub) as Hrest.
  { intros h rest Hloop. eapply IH; [|exact Hloop]. right. exact Hinv'. }
  destruct (decide (hidden ∩ next = ∅)) as [Hnone|Hsome].
  - destruct (contour_loop fuel graph max_radius next hidden visited' (radius + 1))
      as [rest| |] eqn:Hloop; [|done|done].
    intros [= <-]. rewrite omap_cons_unfold. simpl. by eapply Hrest.
  - destruct (contour_loop fuel graph max_radius next (hidden ∖ (hidden ∩ next))
                visited' (radius + 1)) as [rest| |] eqn:Hloop; [|done|done].
    intros [= <-]. rewrite omap_cons_unfold. simpl.
    intros sub hid [[= -> ->]|Hin]%elem_of_cons; [|by eapply Hrest].
    destruct Hinv' as (Hr & Hn & Hnb).
    apply subgraph_region; [done|set_solver|done].
Qed.

(** X9. The sub-graphs that [effective_game_graph] yields.  Each one
    holds the robber's node with all the neighbours it has in the graph,
    so the robber has the same moves in the sub-graph as in the graph, and
    its nodes and edges are nodes and edges of the graph. *)
Theorem effective_game_graph_regions (graph : Graph) (cop_positions : list Z)
    (robber_position : Z) (max_radius : Z) (yields : list (Graph * gset Z)) :
  effective_game_graph graph cop_positions robber_position max_radius
    = Return yields ->
  forall sub hidden, (sub, hidden) ∈ yields ->
                     robber_region graph robber_position sub.
Proof.
  unfold effective_game_graph, contour_rounds.
  destruct (contour_loop _ _ _ _ _ _ _) as [rounds| |] eqn:Hloop; [|done|done].
  intros [= <-]. eapply contour_loop_regions; [|exact Hloop].
  left. set_solver.
Qed.

Lemma effective_game_graph_regions_witness :
  robber_region path4 2 [(1, [2]); (2, [1; 3]); (3, [2])].
Proof.
  apply (effective_game_graph_regions path4 [0; 3] 2 6 path4_yields
           ltac:(vm_compute; reflexivity) _ {[0]}).
  left.
Defined.

(** X10. The two ways the generator yields nothing.  With a negative
    radius it stops before the first round.  With a radius that is not
    negative and a robber position that is no node of the graph, the first
    round asks for the neighbours of that position and the library raises. *)
Theorem effective_game_graph_edge_cases (graph : Graph) (cop_positions : list Z)
    (robber_position : Z) (max_radius : Z) :
  (max_radius < 0 ->
     effective_game_graph graph cop_positions robber_position max_radius
       = Return []) /\
  (0 <= max_radius -> robber_position ∉ nodes graph ->
     effective_game_graph graph cop_positions robber_position max_radius = Raise).
Proof.
  unfold effective_game_graph, contour_rounds. cbn [contour_loop].
  rewrite decide_False by apply non_empty_singleton_L.
  split.
  - intros Hneg. by rewrite decide_True by lia.
  - intros Hrad Hnode. rewrite decide_False by lia.
    rewrite elements_singleton. cbn [forallb]. unfold has_node.
    by rewrite bool_decide_eq_false_2.
Qed.

Lemma effective_game_graph_edge_cases_witness :
  effective_game_graph path4 [0; 3] 2 (-1) = Return [] /\
  effective_game_graph path4 [0; 3] 7 6 = Raise.
Proof.
  split.
  - apply (effective_game_graph_edge_cases path4 [0; 3] 2 (-1)). lia.
  - apply (effective_game_graph_edge_cases path4 [0; 3] 7 6); [lia|].
    intros H. apply list_elem_of_In in H. simpl in H. intuition lia.
Defined.

End Engine.

(* ===================================================================== *)
(** * engine/cops.py: cops per connected component                        *)
(* ===================================================================== *)

Module Cops.
Import Graphs.

(** A [Component] object: its identity and its sub-graph.  Dictionaries
    keyed by components compare them by identity. *)
Record Component : Type := {
  component_id : nat;
  component_graph : Graph
}.

Definition same_component (a b : Component) : bool :=
  bool_decide (component_id a = component_id b).

(** A [dict[Component, int]] in insertion order. *)
Definition CopCount : Type := list (Component * Z).

(** [d[c] = z] *)
Fixpoint dict_set (d : CopCount) (c : Component) (z : Z) : CopCount :=
  match d with
  | [] => [(c, z)]
  | (c', k) :: d' =>
      if same_component c' c then (c', z) :: d' else (c', k) :: dict_set d' c z
  end.

(** [d[c] += z] for a key that is present. *)
Fixpoint dict_add (d : CopCount) (c : Component) (z : Z) : CopCount :=
  match d with
  | [] => []
  | (c', k) :: d' =>
      if same_component c' c then (c', k + z) :: d' else (c', k) :: dict_add d' c z
  end.

(** [sum(d.values())] *)
Definition dict_sum (d : CopCount) : Z := foldr Z.add 0 d.*2.

(** [d[c]], 0 for a missing key. *)
Fixpoint dict_get (d : CopCount) (c : Component) : Z :=
  match d with
  | [] => 0
  | (c', k) :: d' => if same_component c' c then k else dict_get d' c
  end.

(** [sorted(components, key=lambda c: c.graph.number_of_nodes())]:
    a stable sort, smallest first. *)
Definition component_size (c : Component) : nat := number_of_nodes (component_graph c).

Fixpoint insert_by_size (c : Component) (l : list Component) : list Component :=
  match l with
  | [] => [c]
  | c' :: l' =>
      if decide (component_size c <= component_size c')%nat
      then c :: l else c' :: insert_by_size c l'
  end.

Definition sorted_by_size (components : list Component) : list Component :=
  foldr insert_by_size [] components.

(** [heapq.nlargest(n, components, key=proportion)], that is
    [sorted(components, key=proportion, reverse=True)[:n]]: a stable sort,
    largest first, of which the first [n] are kept. *)
Fixpoint insert_by_proportion (proportion : Component -> Q) (c : Component)
    (l : list Component) : list Component :=
  match l with
  | [] => [c]
  | c' :: l' =>
      if Qle_bool (proportion c') (proportion c)
      then c :: l else c' :: insert_by_proportion proportion c l'
  end.

Definition sorted_by_proportion (proportion : Component -> Q)
    (components : list Component) : list Component :=
  foldr (insert_by_proportion proportion) [] components.

Definition nlargest (n : Z) (components : list Component)
    (proportion : Component -> Q) : list Component :=
  take (Z.to_nat n) (sorted_by_proportion proportion components).

(** The allocation of [Cops.__init__].  [cop_distribution] is the
    dictionary that [component_cop_distribution] built over the very list
    [components], read as a function; its items come in the order of that
    list. *)
Definition allocate_few (components : list Component) (cops_count : Z) : CopCount :=
  (fold_left
     (λ (st : CopCount * Z) component,
        (dict_set st.1 component (if decide (0 < st.2) then 1 else 0), st.2 - 1))
     (sorted_by_size components) ([], cops_count)).1.

Definition allocate_many (components : list Component)
    (cop_distribution : Component -> Q) (cops_count : Z) : CopCount :=
  let n_components := Z.of_nat (length components) in
  let n_cops := fold_left (λ d component, dict_set d component 1) components [] in
  let n_remaining_cops := cops_count - n_components in
  let n_cops :=
    fold_left
      (λ d component,
         dict_add d component
           (Qfloor (inject_Z n_remaining_cops * cop_distribution component)))
      components n_cops in
  let n_remaining_cops := cops_count - dict_sum n_cops in
  let fill_up_components := nlargest n_remaining_cops components cop_distribution in
  fold_left (λ d component, dict_add d component 1) fill_up_components n_cops.

Definition allocate (components : list Component)
    (cop_distribution : Component -> Q) (cops_count : Z) : CopCount :=
  if decide (cops_count < Z.of_nat (length components))
  then allocate_few components cops_count
  else allocate_many components cop_distribution cops_count.

(** The disjoint union of a 4-cycle and a complete graph on 4 nodes.  The
    demand of the cycle is its mean degree 2 (at most [sqrt 4]), that of
    the complete graph is [2 * (1 - (3 - 2) / (4 - 2)) = 1], so the
    proportions are 2/3 and 1/3. *)
Definition cycle_component : Component :=
  {| component_id := 0;
     component_graph := of_edges [(0, 1); (1, 2); (2, 3); (3, 0)] |}.

Definition clique_component : Component :=
  {| component_id := 1;
     component_graph := of_edges [(4, 5); (4, 6); (4, 7); (5, 6); (5, 7); (6, 7)] |}.

Definition sample_distribution (c : Component) : Q :=
  if decide (component_id c = 0%nat) then (2 # 3)%Q else (1 # 3)%Q.

Example allocate_four_cops :
  allocate [cycle_component; clique_component] sample_distribution 4
  = [(cycle_component, 3); (clique_component, 1)].
Proof. vm_compute. reflexivity. Qed.

Example allocate_one_cop :
  allocate [cycle_component; clique_component] sample_distribution 1
  = [(cycle_component, 1); (clique_component, 0)].
Proof. vm_compute. reflexivity. Qed.

(** ** Dictionary updates *)

Definition ids (l : list Component) : list nat := component_id <$> l.

Definition has_key (d : CopCount) (c : Component) : bool :=
  bool_decide (component_id c ∈ ids d.*1).

Lemma same_component_true a b : same_component a b = true <-> component_id a = component_id b.
Proof. unfold same_component. apply bool_decide_eq_true. Qed.

Lemma same_component_false a b : same_component a b = false <-> component_id a <> component_id b.
Proof. unfold same_component. apply bool_decide_eq_false. Qed.

Lemma has_key_cons c' k d c :
  has_key ((c', k) :: d) c = same_component c' c || has_key d c.
Proof.
  unfold has_key, ids, same_component. rewrite !fmap_cons. simpl.
  destruct (decide (component_id c' = component_id c)) as [He|He].
  - rewrite (bool_decide_eq_true_2 (component_id c' = component_id c)) by done.
    simpl. apply bool_decide_eq_true_2. rewrite He. left.
  - rewrite (bool_decide_eq_false_2 _ He). simpl.
    apply bool_decide_ext. rewrite elem_of_cons.
    split; [intros [?|?]; [congruence|done]|by right].
Qed.

Lemma dict_set_fresh d c z : has_key d c = false -> dict_set d c z = d ++ [(c, z)].
Proof.
  induction d as [|[c' k] d IH]; [done|]. rewrite has_key_cons.
  intros [H1 H2]%orb_false_elim. simpl. rewrite H1. by rewrite IH.
Qed.

Lemma dict_add_keys d c z : (dict_add d c z).*1 = d.*1.
Proof.
  induction d as [|[c' k] d IH]; [done|]. cbn [dict_add].
  destruct (same_component c' c); rewrite !fmap_cons; [done|]. by rewrite IH.
Qed.

Lemma has_key_add d c z c' : has_key (dict_add d c z) c' = has_key d c'.
Proof. unfold has_key. by rewrite dict_add_keys. Qed.

Lemma dict_get_add d c z c' :
  dict_get (dict_add d c z) c' =
  dict_get d c' + (if same_component c c' && has_key d c then z else 0).
Proof.
  induction d as [|[c0 k] d IH]; simpl.
  - rewrite andb_false_r. lia.
  - rewrite has_key_cons.
    destruct (same_component c0 c) eqn:H0c; simpl.
    + destruct (same_component c0 c') eqn:H0c'.
      * replace (same_component c c') with true; [simpl; lia|].
        symmetry. apply same_component_true.
        apply same_component_true in H0c, H0c'. congruence.
      * replace (same_component c c') with false; [simpl; lia|].
        symmetry. apply same_component_false.
        apply same_component_true in H0c. apply same_component_false in H0c'.
        congruence.
    + destruct (same_component c0 c') eqn:H0c'; [|apply IH].
      replace (same_component c c') with false; [simpl; lia|].
      symmetry. apply same_component_false.
      apply same_component_false in H0c. apply same_component_true in H0c'.
      congruence.
Qed.

Lemma dict_sum_cons c k d : dict_sum ((c, k) :: d) = k + dict_sum d.
Proof. done. Qed.

Lemma dict_sum_add d c z :
  dict_sum (dict_add d c z) = dict_sum d + (if has_key d c then z else 0).
Proof.
  induction d as [|[c0 k] d IH]; simpl; [done|].
  rewrite has_key_cons. destruct (same_component c0 c); simpl.
  - rewrite !dict_sum_cons. lia.
  - rewrite !dict_sum_cons, IH. lia.
Qed.

(** A dictionary is determined by its keys and their values. *)
Lemma dict_by_get d :
  NoDup (ids d.*1) -> d = (λ c, (c, dict_get d c)) <$> d.*1.
Proof.
  induction d as [|[c k] d IH]; [done|]. unfold ids. rewrite !fmap_cons. simpl.
  intros [Hc Hnd]%NoDup_cons. unfold same_component at 1.
  rewrite bool_decide_eq_true_2 by done. f_equal.
  rewrite IH at 1 by done. apply list_fmap_ext. intros i c' Hc'.
  replace (same_component c c') with false; [done|].
  symmetry. apply same_component_false. intros He. apply Hc. rewrite He.
  apply list_elem_of_fmap. exists c'. split; [done|]. by eapply list_elem_of_lookup_2.
Qed.

(** ** Folds of updates *)

Definition total (f : Component -> Z) (l : list Component) : Z :=
  foldr Z.add 0 (f <$> l).

Lemma total_cons f c l : total f (c :: l) = f c + total f l.
Proof. done. Qed.

Lemma total_ext f g l : (forall c, c ∈ l -> f c = g c) -> total f l = total g l.
Proof.
  induction l as [|c l IH]; intros H; [done|]. rewrite !total_cons.
  rewrite H by left. rewrite IH; [done|]. intros c' Hc'. apply H. by right.
Qed.

Lemma total_Permutation f l l' : l ≡ₚ l' -> total f l = total f l'.
Proof.
  induction 1 as [|c l l' _ IH|a b l|l1 l2 l3 _ IH1 _ IH2];
    rewrite ?total_cons; [done|lia|lia|congruence].
Qed.

Lemma total_const_0 l : total (λ _, 0) l = 0.
Proof. induction l as [|c l IH]; [done|]. rewrite total_cons. lia. Qed.

Lemma total_const_1 l : total (λ _, 1) l = Z.of_nat (length l).
Proof. induction l as [|c l IH]; [done|]. rewrite total_cons. simpl length. lia. Qed.

Lemma fold_add_keys (g : Component -> Z) l d :
  (fold_left (λ d c, dict_add d c (g c)) l d).*1 = d.*1.
Proof.
  revert d. induction l as [|c l IH]; intros d; [done|]. simpl.
  by rewrite IH, dict_add_keys.
Qed.

Lemma fold_add_get (g : Component -> Z) l d c' :
  dict_get (fold_left (λ d c, dict_add d c (g c)) l d) c' =
  dict_get d c' + total (λ c, if same_component c c' && has_key d c then g c else 0) l.
Proof.
  revert d. induction l as [|c l IH]; intros d; simpl.
  - unfold total. simpl. lia.
  - rewrite IH, dict_get_add, total_cons.
    rewrite (total_ext _ (λ c0, if same_component c0 c' && has_key d c0 then g c0 else 0)).
    + lia.
    + intros c0 _. by rewrite has_key_add.
Qed.

Lemma fold_add_sum (g : Component -> Z) l d :
  dict_sum (fold_left (λ d c, dict_add d c (g c)) l d) =
  dict_sum d + total (λ c, if has_key d c then g c else 0) l.
Proof.
  revert d. induction l as [|c l IH]; intros d; simpl.
  - unfold total. simpl. lia.
  - rewrite IH, dict_sum_add, total_cons.
    rewrite (total_ext _ (λ c0, if has_key d c0 then g c0 else 0)).
    + lia.
    + intros c0 _. by rewrite has_key_add.
Qed.

Lemma fold_set_fresh (z : Z) l d :
  NoDup (ids (d.*1 ++ l)) ->
  fold_left (λ d c, dict_set d c z) l d = d ++ ((λ c, (c, z)) <$> l).
Proof.
  revert d. induction l as [|c l IH]; intros d Hnd; simpl.
  - by rewrite app_nil_r.
  - assert (has_key d c = false) as Hc.
    { apply bool_decide_eq_false. unfold ids in Hnd. rewrite fmap_app in Hnd.
      apply NoDup_app in Hnd as (_ & Hd & _). intros Hin. apply (Hd _ Hin).
      rewrite fmap_cons. left. }
    rewrite dict_set_fresh by done. rewrite IH.
    + by rewrite <- app_assoc.
    + rewrite fmap_app. simpl. rewrite <- app_assoc. done.
Qed.

(** In a list of distinct components the updates meant for one of them are
    exactly its own. *)
Lemma total_own (g : Component -> Z) l c c' :
  NoDup (ids l) -> c ∈ l -> component_id c = component_id c' ->
  total (λ c0, if same_component c0 c' then g c0 else 0) l = g c.
Proof.
  induction l as [|c0 l IH]; intros Hnd Hin Hid.
  - by apply elem_of_nil in Hin.
  - unfold ids in Hnd. rewrite fmap_cons in Hnd. apply NoDup_cons in Hnd as [H0 Hnd].
    rewrite total_cons. apply elem_of_cons in Hin as [->|Hin].
    + replace (same_component c0 c') with true
        by (symmetry; by apply same_component_true).
      rewrite (total_ext _ (λ _, 0)), total_const_0; [lia|].
      intros c1 Hc1. replace (same_component c1 c') with false; [done|].
      symmetry. apply same_component_false. intros He. apply H0.
      rewrite Hid, <- He. apply list_elem_of_fmap. eauto.
    + replace (same_component c0 c') with false; [by rewrite IH|].
      symmetry. apply same_component_false. intros He. apply H0.
      rewrite He, <- Hid. apply list_elem_of_fmap. eauto.
Qed.

Lemma total_foreign (g : Component -> Z) l c' :
  component_id c' ∉ ids l ->
  total (λ c0, if same_component c0 c' then g c0 else 0) l = 0.
Proof.
  intros Hnin. rewrite (total_ext _ (λ _, 0)), total_const_0; [done|].
  intros c Hc. replace (same_component c c') with false; [done|].
  symmetry. apply same_component_false. intros He. apply Hnin. rewrite <- He.
  apply list_elem_of_fmap. eauto.
Qed.

(** ** The two sorts *)

Lemma insert_by_size_Permutation c l : insert_by_size c l ≡ₚ c :: l.
Proof.
  induction l as [|c' l IH]; [done|]. simpl. case_decide; [done|].
  rewrite IH. apply perm_swap.
Qed.

Lemma sorted_by_size_Permutation l : sorted_by_size l ≡ₚ l.
Proof.
  induction l as [|c l IH]; [done|]. simpl.
  by rewrite insert_by_size_Permutation, IH.
Qed.

Lemma insert_by_proportion_Permutation p c l : insert_by_proportion p c l ≡ₚ c :: l.
Proof.
  induction l as [|c' l IH]; [done|]. simpl.
  destruct (Qle_bool (p c') (p c)); [done|]. rewrite IH. apply perm_swap.
Qed.

Lemma sorted_by_proportion_Permutation p l : sorted_by_proportion p l ≡ₚ l.
Proof.
  induction l as [|c l IH]; [done|]. simpl.
  by rewrite insert_by_proportion_Permutation, IH.
Qed.

(** ** Floors of the shares *)

Definition Qsum (l : list Q) : Q := foldr Qplus 0%Q l.

Definition floor_share (n_remaining : Z) (proportion : Component -> Q)
    (c : Component) : Z :=
  Qfloor (inject_Z n_remaining * proportion c).

Lemma floors_le r p l :
  (inject_Z (total (floor_share r p) l) <= inject_Z r * Qsum (p <$> l))%Q.
Proof.
  induction l as [|c l IH].
  - unfold total, Qsum. simpl. change (inject_Z 0) with 0%Q. lra.
  - rewrite total_cons, fmap_cons, inject_Z_plus. unfold Qsum in *. simpl.
    pose proof (Qfloor_le (inject_Z r * p c)) as H. unfold floor_share at 1. lra.
Qed.

Lemma floors_ge r p l :
  (inject_Z r * Qsum (p <$> l) <= inject_Z (total (floor_share r p) l + Z.of_nat (length l)))%Q.
Proof.
  induction l as [|c l IH].
  - unfold total, Qsum. simpl. change (inject_Z (0 + Z.of_nat 0)) with 0%Q. lra.
  - rewrite total_cons, fmap_cons. simpl length. rewrite Nat2Z.inj_succ.
    replace (floor_share r p c + total (floor_share r p) l + Z.succ (Z.of_nat (length l)))
      with ((floor_share r p c + 1) + (total (floor_share r p) l + Z.of_nat (length l)))
      by lia.
    rewrite inject_Z_plus. unfold Qsum in *. simpl.
    pose proof (Qlt_floor (inject_Z r * p c)) as H. unfold floor_share at 1.
    rewrite inject_Z_plus in H. change (inject_Z 1) with 1%Q in H.
    rewrite inject_Z_plus. change (inject_Z 1) with 1%Q. lra.
Qed.

Lemma floors_gt r p c l :
  (inject_Z r * Qsum (p <$> c :: l)
   < inject_Z (total (floor_share r p) (c :: l) + Z.of_nat (length (c :: l))))%Q.
Proof.
  rewrite total_cons, fmap_cons. simpl length. rewrite Nat2Z.inj_succ.
  replace (floor_share r p c + total (floor_share r p) l + Z.succ (Z.of_nat (length l)))
    with ((floor_share r p c + 1) + (total (floor_share r p) l + Z.of_nat (length l)))
    by lia.
  rewrite inject_Z_plus. unfold Qsum. simpl.
  pose proof (Qlt_floor (inject_Z r * p c)) as H. unfold floor_share at 1.
  rewrite inject_Z_plus in H. change (inject_Z 1) with 1%Q in H.
  rewrite inject_Z_plus. change (inject_Z 1) with 1%Q.
  pose proof (floors_ge r p l) as H'. unfold Qsum in H'. lra.
Qed.

Lemma floor_share_nonneg r p c : 0 <= r -> (0 <= p c)%Q -> 0 <= floor_share r p c.
Proof.
  intros Hr Hp. unfold floor_share.
  rewrite <- (Qfloor_Z 0) at 1.
  apply Qfloor_resp_le. apply Qmult_le_0_compat; [|done].
  change 0%Q with (inject_Z 0). by rewrite <- Zle_Qle.
Qed.

Lemma dict_sum_fmap (f : Component -> Z) l :
  dict_sum ((λ c, (c, f c)) <$> l) = total f l.
Proof.
  induction l as [|c l IH]; [done|]. rewrite fmap_cons, dict_sum_cons, total_cons.
  by rewrite IH.
Qed.

Lemma keys_fmap (f : Component -> Z) (l : list Component) :
  ((λ c, (c, f c)) <$> l).*1 = l.
Proof.
  induction l as [|c l IH]; [done|]. rewrite !fmap_cons. simpl. by rewrite IH.
Qed.

Lemma dict_get_ones l c :
  component_id c ∈ ids l -> dict_get ((λ c, (c, 1)) <$> l) c = 1.
Proof.
  induction l as [|c0 l IH]; intros Hin.
  - by apply elem_of_nil in Hin.
  - rewrite fmap_cons. simpl. destruct (same_component c0 c) eqn:He; [done|].
    apply IH. unfold ids in Hin. rewrite fmap_cons in Hin.
    apply elem_of_cons in Hin as [Hin|Hin]; [|done].
    apply same_component_false in He. congruence.
Qed.

Lemma has_key_fmap (f : Component -> Z) l c :
  c ∈ l -> has_key ((λ c, (c, f c)) <$> l) c = true.
Proof.
  intros Hin. unfold has_key. rewrite keys_fmap. apply bool_decide_eq_true_2.
  apply list_elem_of_fmap. eauto.
Qed.

(** The loop of the branch with fewer cops than components. *)
Lemma fold_few l d k :
  NoDup (ids (d.*1 ++ l)) ->
  (fold_left
     (λ (st : CopCount * Z) component,
        (dict_set st.1 component (if decide (0 < st.2) then 1 else 0), st.2 - 1))
     l (d, k)).1
  = d ++ imap (λ i c, (c, if decide (Z.of_nat i < k) then 1 else 0)) l.
Proof.
  revert d k. induction l as [|c l IH]; intros d k Hnd.
  - simpl. by rewrite app_nil_r.
  - assert (has_key d c = false) as Hc.
    { apply bool_decide_eq_false. unfold ids in Hnd. rewrite fmap_app in Hnd.
      apply NoDup_app in Hnd as (_ & Hd & _). intros Hin. apply (Hd _ Hin).
      rewrite fmap_cons. left. }
    cbn [fold_left fst snd]. rewrite dict_set_fresh by done. rewrite IH.
    + rewrite <- app_assoc. f_equal. rewrite imap_cons. cbn [app].
      apply (f_equal2 cons); [reflexivity|].
      apply imap_ext. intros i c' _. cbn [compose]. f_equal.
      repeat case_decide; lia.
    + rewrite fmap_app. simpl. rewrite <- app_assoc. done.
Qed.

Section Allocation.

Variable components : list Component.
Variable cop_distribution : Component -> Q.
Variable cops_count : Z.

(** The components are distinct objects; the proportions are those of a
    distribution. *)
Hypothesis components_distinct : NoDup (ids components).
Hypothesis proportions_nonneg :
  forall c, c ∈ components -> (0 <= cop_distribution c)%Q.
Hypothesis proportions_sum : (Qsum (cop_distribution <$> components) == 1)%Q.

(** The cops that remain after one per component, the cops that remain
    after the floors of the shares, and the components that get one of
    those: the first of the components in the order of decreasing
    proportion. *)
Definition n_remaining : Z := cops_count - Z.of_nat (length components).

Definition left_over : Z :=
  n_remaining - total (floor_share n_remaining cop_distribution) components.

Definition fill_up_components : list Component :=
  take (Z.to_nat left_over) (sorted_by_proportion cop_distribution components).

Lemma left_over_bounds :
  0 <= left_over < Z.of_nat (length components).
Proof.
  unfold left_over.
  assert (inject_Z n_remaining * Qsum (cop_distribution <$> components)
          == inject_Z n_remaining)%Q as Hsum.
  { rewrite proportions_sum. ring. }
  split.
  - pose proof (floors_le n_remaining cop_distribution components) as H.
    rewrite Hsum in H. rewrite <- Zle_Qle in H. lia.
  - destruct components as [|c l] eqn:Hl.
    + unfold Qsum in proportions_sum. simpl in proportions_sum. lra.
    + pose proof (floors_gt n_remaining cop_distribution c l) as H.
      rewrite Hsum in H. rewrite <- Zlt_Qlt in H. lia.
Qed.

Lemma fill_up_length : Z.of_nat (length fill_up_components) = left_over.
Proof.
  unfold fill_up_components. pose proof left_over_bounds as H.
  rewrite length_take_le; [lia|].
  rewrite (Permutation_length (sorted_by_proportion_Permutation _ _)). lia.
Qed.

Lemma fill_up_sub c : c ∈ fill_up_components -> c ∈ components.
Proof.
  intros Hc. rewrite <- (sorted_by_proportion_Permutation cop_distribution).
  eapply (sublist_subseteq _ _ (sublist_take _ _)). exact Hc.
Qed.

Lemma fill_up_distinct : NoDup (ids fill_up_components).
Proof.
  unfold ids, fill_up_components. rewrite fmap_take.
  eapply sublist_NoDup; [|apply sublist_take].
  by rewrite (sorted_by_proportion_Permutation cop_distribution).
Qed.

Lemma allocate_many_closed_form :
  allocate_many components cop_distribution cops_count =
  (λ c, (c, 1 + floor_share n_remaining cop_distribution c
            + if bool_decide (component_id c ∈ ids fill_up_components) then 1 else 0))
    <$> components
  /\ dict_sum (allocate_many components cop_distribution cops_count) = cops_count.
Proof.
  unfold allocate_many.
  rewrite (fold_set_fresh 1 components []) by done. rewrite app_nil_l.
  set (d1 := (λ c, (c, 1)) <$> components).
  fold n_remaining.
  set (d2 := fold_left (λ d c, dict_add d c (Qfloor (inject_Z n_remaining * cop_distribution c)))
               components d1).
  assert (d2.*1 = components) as Hk2.
  { unfold d2. rewrite (fold_add_keys (floor_share n_remaining cop_distribution)).
    apply keys_fmap. }
  assert (dict_sum d2 = Z.of_nat (length components)
            + total (floor_share n_remaining cop_distribution) components) as Hs2.
  { unfold d2. rewrite (fold_add_sum (floor_share n_remaining cop_distribution)).
    unfold d1 at 1. rewrite dict_sum_fmap, total_const_1. f_equal.
    apply total_ext. intros c Hc. unfold d1. by rewrite has_key_fmap. }
  assert (forall c, c ∈ components ->
            dict_get d2 c = 1 + floor_share n_remaining cop_distribution c) as Hg2.
  { intros c Hc. unfold d2.
    rewrite (fold_add_get (floor_share n_remaining cop_distribution)).
    unfold d1 at 1. rewrite dict_get_ones by (apply list_elem_of_fmap; eauto).
    f_equal. rewrite <- (total_own (floor_share n_remaining cop_distribution)
                           components c c components_distinct Hc eq_refl).
    apply total_ext. intros c0 Hc0. unfold d1. rewrite has_key_fmap by done.
    by rewrite andb_true_r. }
  replace (cops_count - dict_sum d2) with left_over
    by (rewrite Hs2; unfold left_over, n_remaining; lia).
  unfold nlargest. fold fill_up_components.
  set (d3 := fold_left (λ d c, dict_add d c 1) fill_up_components d2).
  assert (forall c, c ∈ fill_up_components -> has_key d2 c = true) as Hfill.
  { intros c Hc. unfold has_key. rewrite Hk2. apply bool_decide_eq_true_2.
    apply list_elem_of_fmap. exists c. split; [done|by apply fill_up_sub]. }
  assert (d3.*1 = components) as Hk3.
  { unfold d3. by rewrite (fold_add_keys (λ _, 1)). }
  split.
  - rewrite (dict_by_get d3) by (by rewrite Hk3). rewrite Hk3.
    apply list_fmap_ext. intros i c Hi.
    assert (c ∈ components) as Hc by (by eapply list_elem_of_lookup_2).
    f_equal. unfold d3. rewrite (fold_add_get (λ _, 1)), (Hg2 c Hc). f_equal.
    rewrite (total_ext _ (λ c0, if same_component c0 c then 1 else 0)).
    2:{ intros c0 Hc0. by rewrite (Hfill c0 Hc0), andb_true_r. }
    destruct (bool_decide (component_id c ∈ ids fill_up_components)) eqn:Hb.
    + apply bool_decide_eq_true in Hb.
      apply list_elem_of_fmap in Hb as (c' & Hid & Hc').
      by rewrite (total_own (λ _, 1) fill_up_components c' c fill_up_distinct Hc').
    + apply bool_decide_eq_false in Hb. by apply (total_foreign (λ _, 1)).
  - unfold d3. rewrite (fold_add_sum (λ _, 1)), Hs2.
    rewrite (total_ext (λ c0, if has_key d2 c0 then 1 else 0) (λ _, 1)
               fill_up_components)
      by (intros c Hc; by rewrite (Hfill c Hc)).
    rewrite total_const_1, fill_up_length. unfold left_over, n_remaining. lia.
Qed.


End Allocation.

(** The stable sorts put the smallest component, and the largest
    proportion, first. *)
Lemma sorted_by_size_sorted l :
  Sorted (λ a b, (component_size a <= component_size b)%nat) (sorted_by_size l).
Proof.
  induction l as [|c l IH]; [constructor|]. simpl.
  induction IH as [|c' l' Hs IHs Hhd]; simpl; [by repeat constructor|].
  case_decide as Hle.
  - constructor; [by constructor|]. by constructor.
  - constructor; [done|]. destruct l' as [|c'' l'']; simpl.
    + constructor. lia.
    + case_decide; constructor; [lia|]. by inversion Hhd.
Qed.

Lemma sorted_by_proportion_sorted p l :
  Sorted (λ a b, (p b <= p a)%Q) (sorted_by_proportion p l).
Proof.
  induction l as [|c l IH]; [constructor|]. simpl.
  induction IH as [|c' l' Hs IHs Hhd]; simpl; [by repeat constructor|].
  destruct (Qle_bool (p c') (p c)) eqn:Hle.
  - apply Qle_bool_iff in Hle. constructor; [by constructor|]. by constructor.
  - assert (p c <= p c')%Q as Hge.
    { destruct (Qlt_le_dec (p c) (p c')) as [?|Hc]; [by apply Qlt_le_weak|].
      apply Qle_bool_iff in Hc. congruence. }
    constructor; [done|]. destruct l' as [|c'' l'']; simpl.
    + by constructor.
    + destruct (Qle_bool (p c'') (p c)); constructor; [done|]. by inversion Hhd.
Qed.


(** What is left of a share after its floor. *)
Definition fractional_remainder (n_remaining : Z) (proportion : Component -> Q)
    (c : Component) : Q :=
  (inject_Z n_remaining * proportion c
   - inject_Z (floor_share n_remaining proportion c))%Q.

(** The reading of the description with a biggest-remainder fill: no
    component that got a left-over cop has a smaller remainder than one
    that got none. *)
Definition biggest_remainder_fill (components : list Component)
    (cop_distribution : Component -> Q) (cops_count : Z) : Prop :=
  let r := cops_count - Z.of_nat (length components) in
  let n_cops := allocate components cop_distribution cops_count in
  forall c c', c ∈ components -> c' ∈ components ->
    dict_get n_cops c = 1 + floor_share r cop_distribution c + 1 ->
    dict_get n_cops c' = 1 + floor_share r cop_distribution c' ->
    (fractional_remainder r cop_distribution c'
     <= fractional_remainder r cop_distribution c)%Q.


End Cops.

(* ===================================================================== *)
(** * engine/modules/abstraction/pooling.py: vertex pooling               *)
(* ===================================================================== *)

Module Pooling.
Import Graphs.

(** The arrays of the union-find structure and of the marks, with the
    counter of abstract nodes: what the nested functions share. *)
Record state : Type := {
  uf_parents : list nat;
  uf_rank : list nat;
  marked : list bool;
  n_abstract_nodes : nat
}.

(** [find].  The loop body is
    [_v = uf_parents[_v] = uf_parents[uf_parents[_v]]]: Python assigns the
    targets from left to right, so [_v] becomes the grandparent first and
    the array is then written at that new [_v].  [None] is an [IndexError]
    or a loop that has not stopped after [fuel] rounds. *)
Fixpoint find_loop (fuel : nat) (parents : list nat) (v : nat)
  : option (list nat * nat) :=
  match fuel with
  | O => None
  | S fuel' =>
      p ← parents !! v;
      if decide (p = v) then Some (parents, v)
      else
        g ← parents !! p;
        if decide (g < length parents)%nat
        then find_loop fuel' (<[g := g]> parents) g
        else None
  end.

Definition find (parents : list nat) (v : nat) : option (list nat * nat) :=
  find_loop (S (length parents)) parents v.

(** [union] *)
Definition union (parents rank : list nat) (u v : nat)
  : option (list nat * list nat) :=
  '(parents, u) ← find parents u;
  '(parents, v) ← find parents v;
  rank_u ← rank !! u;
  rank_v ← rank !! v;
  if decide (rank_v < rank_u)%nat then Some (<[v := u]> parents, rank)
  else if decide (rank_u < rank_v)%nat then Some (<[u := v]> parents, rank)
  else Some (<[v := u]> parents, <[u := S rank_u]> rank).

(** An entry [(metric, u, v)] of the heap, and the order of tuples. *)
Definition edge_tuple : Type := (Q * nat * nat)%type.

Definition tuple_leb (a b : edge_tuple) : bool :=
  let '(ma, ua, va) := a in
  let '(mb, ub, vb) := b in
  if Qle_bool ma mb
  then if Qle_bool mb ma
       then bool_decide (ua < ub)%nat || (bool_decide (ua = ub) && bool_decide (va <= vb)%nat)
       else true
  else false.

Definition tuple_le (a b : edge_tuple) : Prop := tuple_leb a b = true.

#[global] Instance tuple_le_dec : RelDecision tuple_le.
Proof. intros a b. unfold tuple_le. apply _. Defined.

(** [heapify] and the successive [heappop]s hand out the entries in
    increasing order. *)
Definition heap_order (tuples : list edge_tuple) : list edge_tuple :=
  merge_sort tuple_le tuples.

(** The loop of [perform_vertex_pooling] over the entries in the order
    they are popped. *)
Fixpoint pooling_loop (strict : bool) (target_n_abstract_nodes : nat)
    (popped : list edge_tuple) (st : state) : option state :=
  match popped with
  | [] => Some st
  | (_, u, v) :: rest =>
      if decide (n_abstract_nodes st <= target_n_abstract_nodes)%nat then Some st
      else
        mu ← marked st !! u;
        mv ← marked st !! v;
        if (strict && (mu || mv)) || (negb strict && negb (xorb mu mv))
        then pooling_loop strict target_n_abstract_nodes rest st
        else
          '(parents, rank) ← union (uf_parents st) (uf_rank st) u v;
          pooling_loop strict target_n_abstract_nodes rest
            {| uf_parents := parents; uf_rank := rank;
               marked := <[v := true]> (<[u := true]> (marked st));
               n_abstract_nodes := n_abstract_nodes st - 1 |}
  end.

Definition perform_vertex_pooling (strict : bool) (target_n_abstract_nodes : nat)
    (mean_degree_edge_tuples : list edge_tuple) (st : state) : option state :=
  pooling_loop strict target_n_abstract_nodes (heap_order mean_degree_edge_tuples) st.

(** The finds of the last three lines, each on the array the one before
    left: [find(node) for node in uf_parents] and [find(i)] for every
    index. *)
Fixpoint find_values (indices : list nat) (parents : list nat)
  : option (list nat * list nat) :=
  match indices with
  | [] => Some (parents, [])
  | i :: rest =>
      p ← parents !! i;
      '(parents, r) ← find parents p;
      '(parents, rs) ← find_values rest parents;
      Some (parents, r :: rs)
  end.

Fixpoint find_indices (indices : list nat) (parents : list nat)
  : option (list nat * list nat) :=
  match indices with
  | [] => Some (parents, [])
  | i :: rest =>
      '(parents, r) ← find parents i;
      '(parents, rs) ← find_indices rest parents;
      Some (parents, r :: rs)
  end.

Section Pooling.

(** [statistics.geometric_mean] of two degrees is a float; the pooling
    is stated for any value the metric may take.  The order in which a
    Python [set] of integers is iterated is fixed by the interpreter; it
    is any function that lists the elements of the set once each. *)
Variable geometric_mean : nat -> nat -> Q.
Variable set_order : list nat -> list nat.

Definition make_mean_degree_edge_tuple (graph : Graph) (nodes : list Z)
    (u v : nat) : option edge_tuple :=
  node_u ← nodes !! u;
  node_v ← nodes !! v;
  Some (geometric_mean (degree graph node_u) (degree graph node_v), u, v).

(** The entries of the first phase: the edges that are no self-loops. *)
Definition strict_tuples (graph : Graph) (nodes : list Z) : option (list edge_tuple) :=
  mapM (λ e : Z * Z,
          u ← node_index nodes e.1;
          v ← node_index nodes e.2;
          make_mean_degree_edge_tuple graph nodes u v)
       (filter (λ e : Z * Z, e.1 ≠ e.2) (edges graph)).

(** The entries of the second phase: every unmarked node with each of
    its marked neighbours.  An entry is left out ([Some None]) when the
    neighbour is not marked. *)
Definition loose_tuple (graph : Graph) (nodes : list Z) (marks : list bool)
    (candidate : nat * Z) : option (option edge_tuple) :=
  marked_neighbor_index ← node_index nodes candidate.2;
  m ← marks !! marked_neighbor_index;
  if m : bool
  then Some <$> make_mean_degree_edge_tuple graph nodes candidate.1 marked_neighbor_index
  else Some None.

Definition loose_candidates (graph : Graph) (nodes : list Z) (marks : list bool)
  : option (list (nat * Z)) :=
  let unmarked_nodes :=
    filter (λ i, marks !! i = Some false) (seq 0 (length marks)) in
  mjoin <$>
    mapM (λ unmarked_node_index : nat,
            node ← nodes !! unmarked_node_index;
            Some ((λ neighbor, (unmarked_node_index, neighbor))
                    <$> neighbors graph node))
         unmarked_nodes.

Definition loose_tuples (graph : Graph) (nodes : list Z) (marks : list bool)
  : option (list edge_tuple) :=
  candidates ← loose_candidates graph nodes marks;
  entries ← mapM (loose_tuple graph nodes marks) candidates;
  Some (omap id entries).

(** [math.ceil(n_nodes / 2)] *)
Definition target_size (n_nodes : nat) : nat := (n_nodes + 1) / 2.

(** The state both phases leave. *)
Definition pooled_state (graph : Graph) : option state :=
  let nodes := nodes graph in
  let n_nodes := length nodes in
  let st := {| uf_parents := seq 0 n_nodes;
               uf_rank := replicate n_nodes 1%nat;
               marked := replicate n_nodes false;
               n_abstract_nodes := n_nodes |} in
  let target_n_abstract_nodes := target_size n_nodes in
  tuples ← strict_tuples graph nodes;
  st ← perform_vertex_pooling true target_n_abstract_nodes tuples st;
  if decide (target_n_abstract_nodes < n_abstract_nodes st)%nat
  then
    tuples ← loose_tuples graph nodes (marked st);
    perform_vertex_pooling false target_n_abstract_nodes tuples st
  else Some st.

(** [abstract_vertex_pooling]: the dictionary from the nodes to the
    abstract nodes, in the order of the nodes. *)
Definition abstract_vertex_pooling (graph : Graph) : option (list (Z * nat)) :=
  let nodes := nodes graph in
  st ← pooled_state graph;
  '(parents, roots) ← find_values (seq 0 (length (uf_parents st))) (uf_parents st);
  let uf_roots := set_order roots in
  let root_indices := index_of uf_roots in
  '(parents, found) ← find_indices (seq 0 (length nodes)) parents;
  abstract_nodes ← mapM root_indices found;
  Some (zip nodes abstract_nodes).

End Pooling.

(** A metric and a set order to run the pooling with: the product of the
    degrees orders pairs as their geometric mean does; small integers
    come out of a set in increasing order. *)
Definition degree_product (a b : nat) : Q := inject_Z (Z.of_nat (a * b)).

Definition increasing_order (l : list nat) : list nat :=
  merge_sort le (remove_dups l).

Example pooling_path4 :
  abstract_vertex_pooling degree_product increasing_order path4
  = Some [(0, 0%nat); (1, 0%nat); (2, 1%nat); (3, 1%nat)].
Proof. vm_compute. reflexivity. Qed.

(** The star with centre 0 and three leaves: the first phase contracts one
    edge, the second phase one more. *)
Definition star4 : Graph := of_edges [(0, 1); (0, 2); (0, 3)].

Example pooling_star4 :
  abstract_vertex_pooling degree_product increasing_order star4
  = Some [(0, 0%nat); (1, 0%nat); (2, 0%nat); (3, 1%nat)].
Proof. vm_compute. reflexivity. Qed.

Example pooling_path3 :
  abstract_vertex_pooling degree_product increasing_order path3
  = Some [(0, 0%nat); (1, 0%nat); (2, 1%nat)].
Proof. vm_compute. reflexivity. Qed.

(** ** The shape of the union-find forest *)

Definition is_root (parents : list nat) (i : nat) : Prop := parents !! i = Some i.

#[global] Instance is_root_dec parents i : Decision (is_root parents i).
Proof. unfold is_root. apply _. Defined.

Definition roots (parents : list nat) : list nat :=
  filter (is_root parents) (seq 0 (length parents)).

Definition marked_indices (marks : list bool) : list nat :=
  filter (λ i, marks !! i = Some true) (seq 0 (length marks)).

(** What holds of the shared state whenever the loop of
    [perform_vertex_pooling] is at its head: every tree has depth at most
    one; an unmarked node is a tree of its own, of rank 1; the root of a
    marked node has rank 2; the counter is the number of trees, it has not
    passed the target, and every contraction was paid for by a mark. *)
Record pool_inv (n target : nat) (st : state) : Prop := {
  inv_len_parents : length (uf_parents st) = n;
  inv_len_rank : length (uf_rank st) = n;
  inv_len_marked : length (marked st) = n;
  inv_flat : forall i p, uf_parents st !! i = Some p -> uf_parents st !! p = Some p;
  inv_unmarked : forall i, marked st !! i = Some false ->
      uf_parents st !! i = Some i /\ uf_rank st !! i = Some 1%nat /\
      forall j, uf_parents st !! j = Some i -> j = i;
  inv_marked : forall i p, marked st !! i = Some true ->
      uf_parents st !! i = Some p -> uf_rank st !! p = Some 2%nat;
  inv_count : n_abstract_nodes st = length (roots (uf_parents st));
  inv_budget :
    (2 * n_abstract_nodes st + length (marked_indices (marked st)) <= 2 * n)%nat;
  inv_target : (target <= n_abstract_nodes st)%nat
}.

Lemma filter_ext_in {A} (P Q : A -> Prop)
    `{!forall x, Decision (P x)} `{!forall x, Decision (Q x)} (l : list A) :
  (forall y, y ∈ l -> (P y <-> Q y)) -> filter P l = filter Q l.
Proof.
  induction l as [|a l IH]; intros Hl; [done|]. rewrite !filter_cons.
  assert (P a <-> Q a) as Ha by (apply Hl; left).
  rewrite IH by (intros y Hy; apply Hl; by right).
  destruct (decide (P a)) as [Hp|Hp].
  - by rewrite decide_True by (by apply Ha).
  - by rewrite decide_False by (by rewrite <- Ha).
Qed.

Lemma filter_all {A} (P : A -> Prop) `{!forall x, Decision (P x)} (l : list A) :
  (forall y, y ∈ l -> P y) -> filter P l = l.
Proof.
  induction l as [|a l IH]; intros Hl; [done|]. rewrite filter_cons.
  rewrite decide_True by (apply Hl; left).
  rewrite IH; [done|]. intros y Hy. apply Hl. by right.
Qed.

Lemma filter_none {A} (P : A -> Prop) `{!forall x, Decision (P x)} (l : list A) :
  (forall y, y ∈ l -> ~ P y) -> filter P l = [].
Proof.
  induction l as [|a l IH]; intros Hl; [done|]. rewrite filter_cons.
  rewrite decide_False by (apply Hl; left).
  apply IH. intros y Hy. apply Hl. by right.
Qed.

(** Changing a predicate at one element of a duplicate-free list changes
    the number of elements that satisfy it by one. *)
Lemma filter_length_flip {A} `{!EqDecision A} (P Q : A -> Prop)
    `{!forall x, Decision (P x)} `{!forall x, Decision (Q x)} (l : list A) (x : A) :
  NoDup l -> x ∈ l -> P x -> ~ Q x -> (forall y, y ≠ x -> (P y <-> Q y)) ->
  length (filter P l) = S (length (filter Q l)).
Proof.
  intros Hnd Hx HP HQ Hother.
  induction Hnd as [|a l Ha Hnd IH].
  - by apply elem_of_nil in Hx.
  - rewrite !filter_cons. destruct (decide (a = x)) as [->|Hne].
    + rewrite decide_True by done. rewrite decide_False by done. simpl. f_equal.
      f_equal. apply filter_ext_in. intros y Hy. apply Hother.
      intros ->. done.
    + apply elem_of_cons in Hx as [?|Hx]; [congruence|].
      destruct (decide (P a)) as [Hpa|Hpa].
      * rewrite decide_True by (by apply Hother). simpl. by rewrite IH.
      * rewrite decide_False by (by rewrite <- Hother). by apply IH.
Qed.

Lemma find_root parents v :
  parents !! v = Some v -> find parents v = Some (parents, v).
Proof.
  intros H. unfold find. cbn [find_loop]. rewrite H. simpl.
  by rewrite decide_True.
Qed.

Lemma find_flat parents v p :
  parents !! v = Some p -> parents !! p = Some p ->
  find parents v = Some (parents, p).
Proof.
  intros Hv Hp. destruct (decide (p = v)) as [->|Hne]; [by apply find_root|].
  unfold find. pose proof (lookup_lt_Some _ _ _ Hp) as Hlt.
  destruct (length parents) as [|k] eqn:Hlen; [lia|].
  cbn [find_loop]. rewrite Hv. simpl. rewrite decide_False by done.
  rewrite Hp. simpl. rewrite decide_True by lia.
  rewrite list_insert_id by done. rewrite Hp. simpl. by rewrite decide_True.
Qed.

(** The loop of [find] runs its body at most once, on any array: no fuel
    beyond two rounds is ever used. *)
Lemma find_loop_fuel fuel parents v :
  find_loop (S (S fuel)) parents v = find_loop 2 parents v.
Proof.
  cbn [find_loop]. destruct (parents !! v) as [p|]; simpl; [|done].
  case_decide; [done|]. destruct (parents !! p) as [g|]; simpl; [|done].
  case_decide as Hg; [|done].
  rewrite list_lookup_insert_eq by done. simpl. by rewrite !decide_True.
Qed.

Lemma roots_insert parents x r :
  parents !! x = Some x -> r ≠ x ->
  length (roots parents) = S (length (roots (<[x := r]> parents))).
Proof.
  intros Hx Hne. unfold roots. rewrite length_insert.
  apply (filter_length_flip _ _ _ x).
  - apply NoDup_seq.
  - apply elem_of_seq. pose proof (lookup_lt_Some _ _ _ Hx). lia.
  - done.
  - unfold is_root. rewrite list_lookup_insert_eq by (by eapply lookup_lt_Some).
    congruence.
  - intros y Hy. unfold is_root. by rewrite list_lookup_insert_ne.
Qed.

Lemma marked_indices_insert marks x :
  marks !! x = Some false ->
  length (marked_indices (<[x := true]> marks)) = S (length (marked_indices marks)).
Proof.
  intros Hx. unfold marked_indices. rewrite length_insert.
  apply (filter_length_flip _ _ _ x).
  - apply NoDup_seq.
  - apply elem_of_seq. pose proof (lookup_lt_Some _ _ _ Hx). lia.
  - by rewrite list_lookup_insert_eq by (by eapply lookup_lt_Some).
  - congruence.
  - intros y Hy. by rewrite list_lookup_insert_ne.
Qed.

(** ** One contraction *)

(** Both ends unmarked: two trees of one node each are joined. *)
Lemma contract_unmarked n target st u v :
  pool_inv n target st -> (target < n_abstract_nodes st)%nat -> u ≠ v ->
  marked st !! u = Some false -> marked st !! v = Some false ->
  union (uf_parents st) (uf_rank st) u v
    = Some (<[v := u]> (uf_parents st), <[u := 2%nat]> (uf_rank st)) /\
  pool_inv n target
    {| uf_parents := <[v := u]> (uf_parents st);
       uf_rank := <[u := 2%nat]> (uf_rank st);
       marked := <[v := true]> (<[u := true]> (marked st));
       n_abstract_nodes := n_abstract_nodes st - 1 |}.
Proof.
  intros Hinv Hgt Hne Hu Hv.
  destruct (inv_unmarked _ _ _ Hinv u Hu) as (Hpu & Hru & Hsu).
  destruct (inv_unmarked _ _ _ Hinv v Hv) as (Hpv & Hrv & Hsv).
  pose proof (lookup_lt_Some _ _ _ Hpu) as Hltu.
  pose proof (lookup_lt_Some _ _ _ Hpv) as Hltv.
  pose proof (lookup_lt_Some _ _ _ Hu) as Hmu.
  pose proof (lookup_lt_Some _ _ _ Hv) as Hmv.
  pose proof (lookup_lt_Some _ _ _ Hru) as Hrku.
  split.
  - unfold union. rewrite (find_root _ _ Hpu). simpl.
    rewrite (find_root _ _ Hpv). simpl. rewrite Hru, Hrv. simpl.
    done.
  - split; simpl.
    + rewrite length_insert. apply Hinv.
    + rewrite length_insert. apply Hinv.
    + rewrite !length_insert. apply Hinv.
    + intros i p Hi. destruct (decide (i = v)) as [->|Hiv].
      * rewrite list_lookup_insert_eq in Hi by done. injection Hi as <-.
        by rewrite list_lookup_insert_ne.
      * rewrite list_lookup_insert_ne in Hi by done.
        assert (p ≠ v) as Hpv' by (intros ->; by apply Hiv, Hsv).
        rewrite list_lookup_insert_ne by done. by eapply inv_flat.
    + intros i Hi.
      assert (i ≠ v) as Hiv.
      { intros ->. rewrite list_lookup_insert_eq in Hi; [done|].
        by rewrite length_insert. }
      rewrite list_lookup_insert_ne in Hi by done.
      assert (i ≠ u) as Hiu.
      { intros ->. rewrite list_lookup_insert_eq in Hi; done. }
      rewrite list_lookup_insert_ne in Hi by done.
      destruct (inv_unmarked _ _ _ Hinv i Hi) as (Hpi & Hri & Hsi).
      rewrite !list_lookup_insert_ne by done. split_and!; [done|done|].
      intros j Hj. destruct (decide (j = v)) as [->|Hjv].
      * rewrite list_lookup_insert_eq in Hj by done. congruence.
      * rewrite list_lookup_insert_ne in Hj by done. by apply Hsi.
    + intros i p Hi Hp. destruct (decide (i = v)) as [->|Hiv].
      * rewrite list_lookup_insert_eq in Hp by done. injection Hp as <-.
        by rewrite list_lookup_insert_eq.
      * rewrite list_lookup_insert_ne in Hi by done.
        rewrite list_lookup_insert_ne in Hp by done.
        destruct (decide (i = u)) as [->|Hiu].
        -- rewrite Hpu in Hp. injection Hp as <-.
           by rewrite list_lookup_insert_eq.
        -- rewrite list_lookup_insert_ne in Hi by done.
           assert (p ≠ u) as Hpu' by (intros ->; by apply Hiu, Hsu).
           rewrite list_lookup_insert_ne by done. by eapply inv_marked.
    + rewrite (inv_count _ _ _ Hinv).
      rewrite (roots_insert (uf_parents st) v u) by done. lia.
    + rewrite marked_indices_insert.
      2:{ by rewrite list_lookup_insert_ne. }
      rewrite marked_indices_insert by done.
      pose proof (inv_budget _ _ _ Hinv). lia.
    + pose proof (inv_target _ _ _ Hinv). lia.
Qed.

(** One end unmarked, the other marked: the unmarked node is hung under
    the root of the marked one. *)
Lemma contract_into_marked n target st x y r :
  pool_inv n target st -> (target < n_abstract_nodes st)%nat ->
  marked st !! x = Some false -> marked st !! y = Some true ->
  uf_parents st !! y = Some r ->
  union (uf_parents st) (uf_rank st) x y = Some (<[x := r]> (uf_parents st), uf_rank st) /\
  union (uf_parents st) (uf_rank st) y x = Some (<[x := r]> (uf_parents st), uf_rank st) /\
  pool_inv n target
    {| uf_parents := <[x := r]> (uf_parents st);
       uf_rank := uf_rank st;
       marked := <[x := true]> (marked st);
       n_abstract_nodes := n_abstract_nodes st - 1 |}.
Proof.
  intros Hinv Hgt Hx Hy Hr.
  destruct (inv_unmarked _ _ _ Hinv x Hx) as (Hpx & Hrx & Hsx).
  pose proof (inv_flat _ _ _ Hinv y r Hr) as Hrr.
  pose proof (inv_marked _ _ _ Hinv y r Hy Hr) as Hrank.
  pose proof (lookup_lt_Some _ _ _ Hpx) as Hltx.
  pose proof (lookup_lt_Some _ _ _ Hx) as Hmx.
  assert (r ≠ x) as Hrx'.
  { intros ->. apply Hsx in Hr. congruence. }
  split_and!.
  - unfold union. rewrite (find_root _ _ Hpx). simpl.
    rewrite (find_flat _ _ _ Hr Hrr). simpl. rewrite Hrx, Hrank. simpl.
    done.
  - unfold union. rewrite (find_flat _ _ _ Hr Hrr). simpl.
    rewrite (find_root _ _ Hpx). simpl. rewrite Hrx, Hrank. simpl.
    done.
  - split; simpl.
    + rewrite length_insert. apply Hinv.
    + apply Hinv.
    + rewrite length_insert. apply Hinv.
    + intros i p Hi. destruct (decide (i = x)) as [->|Hix].
      * rewrite list_lookup_insert_eq in Hi by done. injection Hi as <-.
        by rewrite list_lookup_insert_ne.
      * rewrite list_lookup_insert_ne in Hi by done.
        assert (p ≠ x) as Hpx' by (intros ->; by apply Hix, Hsx).
        rewrite list_lookup_insert_ne by done. by eapply inv_flat.
    + intros i Hi.
      assert (i ≠ x) as Hix.
      { intros ->. rewrite list_lookup_insert_eq in Hi; done. }
      rewrite list_lookup_insert_ne in Hi by done.
      destruct (inv_unmarked _ _ _ Hinv i Hi) as (Hpi & Hri & Hsi).
      rewrite list_lookup_insert_ne by done. split_and!; [done|done|].
      intros j Hj. destruct (decide (j = x)) as [->|Hjx].
      * rewrite list_lookup_insert_eq in Hj by done. injection Hj as ->.
        apply Hsi in Hr. congruence.
      * rewrite list_lookup_insert_ne in Hj by done. by apply Hsi.
    + intros i p Hi Hp. destruct (decide (i = x)) as [->|Hix].
      * rewrite list_lookup_insert_eq in Hp by done. by injection Hp as <-.
      * rewrite list_lookup_insert_ne in Hi by done.
        rewrite list_lookup_insert_ne in Hp by done. by eapply inv_marked.
    + rewrite (inv_count _ _ _ Hinv).
      rewrite (roots_insert (uf_parents st) x r) by done. lia.
    + rewrite marked_indices_insert by done.
      pose proof (inv_budget _ _ _ Hinv). lia.
    + pose proof (inv_target _ _ _ Hinv). lia.
Qed.

(** ** The two phases *)

Definition marks_kept (st st' : state) : Prop :=
  forall i, marked st !! i = Some true -> marked st' !! i = Some true.

Lemma marks_kept_insert (marks : list bool) (i j : nat) :
  marks !! i = Some true -> <[j := true]> marks !! i = Some true.
Proof.
  intros H. destruct (decide (j = i)) as [->|Hne].
  - rewrite list_lookup_insert_eq; [done|]. by eapply lookup_lt_Some.
  - by rewrite list_lookup_insert_ne.
Qed.

(** The strict phase: it ends on the target, or with a mark on an end of
    every entry it was given. *)
Lemma pooling_loop_strict n target popped st :
  pool_inv n target st ->
  (forall k u v, (k, u, v) ∈ popped -> u ≠ v /\ (u < n)%nat /\ (v < n)%nat) ->
  exists st',
    pooling_loop true target popped st = Some st' /\
    pool_inv n target st' /\
    marks_kept st st' /\
    (n_abstract_nodes st' = target \/
     forall k u v, (k, u, v) ∈ popped ->
       marked st' !! u = Some true \/ marked st' !! v = Some true).
Proof.
  revert st. induction popped as [|[[k u] v] rest IH]; intros st Hinv Hwf.
  - exists st. split_and!; [done|done|by intros i|].
    right. intros k u v Hin. by apply elem_of_nil in Hin.
  - cbn [pooling_loop]. destruct (decide (n_abstract_nodes st <= target)%nat) as [Hle|Hgt].
    { exists st. split_and!; [done|done|by intros i|].
      left. pose proof (inv_target _ _ _ Hinv). lia. }
    destruct (Hwf k u v) as (Hne & Hu & Hv); [left|].
    assert (forall k u v, (k, u, v) ∈ rest ->
              u ≠ v /\ (u < n)%nat /\ (v < n)%nat) as Hwf'.
    { intros k' u' v' Hin. apply (Hwf k' u' v'). by right. }
    destruct (lookup_lt_is_Some_2 (marked st) u) as [mu Hmu];
      [by rewrite (inv_len_marked _ _ _ Hinv)|].
    destruct (lookup_lt_is_Some_2 (marked st) v) as [mv Hmv];
      [by rewrite (inv_len_marked _ _ _ Hinv)|].
    rewrite Hmu, Hmv. simpl. rewrite orb_false_r.
    destruct (mu || mv) eqn:Hor.
    + destruct (IH st Hinv Hwf') as (st' & Hrun & Hinv' & Hkept & Hdone).
      exists st'. split_and!; [done|done|done|].
      destruct Hdone as [?|Hdone]; [by left|right].
      intros k' u' v' [[= -> -> ->]|Hin]%elem_of_cons; [|by eapply Hdone].
      apply orb_prop in Hor as [->| ->]; [left|right]; by apply Hkept.
    + apply orb_false_elim in Hor as [-> ->].
      destruct (contract_unmarked n target st u v Hinv ltac:(lia) Hne Hmu Hmv)
        as [Hunion Hinv1].
      rewrite Hunion. simpl.
      destruct (IH _ Hinv1 Hwf') as (st' & Hrun & Hinv' & Hkept & Hdone).
      exists st'. split_and!; [done|done| |].
      * intros i Hi. apply Hkept. simpl. by do 2 apply marks_kept_insert.
      * destruct Hdone as [?|Hdone]; [by left|right].
        intros k' u' v' [[= -> -> ->]|Hin]%elem_of_cons; [|by eapply Hdone].
        right. apply Hkept. simpl. apply list_lookup_insert_eq.
        rewrite length_insert, (inv_len_marked _ _ _ Hinv). done.
Qed.

(** The loose phase, on entries whose second end is marked: it ends on
    the target, or with a mark on the first end of every entry. *)
Lemma pooling_loop_loose n target popped st :
  pool_inv n target st ->
  (forall k u v, (k, u, v) ∈ popped ->
     (u < n)%nat /\ marked st !! v = Some true) ->
  exists st',
    pooling_loop false target popped st = Some st' /\
    pool_inv n target st' /\
    marks_kept st st' /\
    (n_abstract_nodes st' = target \/
     forall k u v, (k, u, v) ∈ popped -> marked st' !! u = Some true).
Proof.
  revert st. induction popped as [|[[k u] v] rest IH]; intros st Hinv Hwf.
  - exists st. split_and!; [done|done|by intros i|].
    right. intros k u v Hin. by apply elem_of_nil in Hin.
  - cbn [pooling_loop]. destruct (decide (n_abstract_nodes st <= target)%nat) as [Hle|Hgt].
    { exists st. split_and!; [done|done|by intros i|].
      left. pose proof (inv_target _ _ _ Hinv). lia. }
    destruct (Hwf k u v) as (Hu & Hmv); [left|].
    destruct (lookup_lt_is_Some_2 (marked st) u) as [mu Hmu];
      [by rewrite (inv_len_marked _ _ _ Hinv)|].
    rewrite Hmu, Hmv. simpl. destruct mu; simpl.
    + destruct (IH st Hinv) as (st' & Hrun & Hinv' & Hkept & Hdone).
      { intros k' u' v' Hin. apply (Hwf k' u' v'). by right. }
      exists st'. split_and!; [done|done|done|].
      destruct Hdone as [?|Hdone]; [by left|right].
      intros k' u' v' [[= -> -> ->]|Hin]%elem_of_cons; [|by eapply Hdone].
      by apply Hkept.
    + destruct (lookup_lt_is_Some_2 (uf_parents st) v) as [r Hr].
      { rewrite (inv_len_parents _ _ _ Hinv), <- (inv_len_marked _ _ _ Hinv).
        by eapply lookup_lt_Some. }
      destruct (contract_into_marked n target st u v r Hinv ltac:(lia) Hmu Hmv Hr)
        as (Hunion & _ & Hinv1).
      rewrite Hunion. simpl.
      assert (u ≠ v) as Hne by (intros ->; congruence).
      rewrite (list_insert_id (<[u:=true]> (marked st)) v true)
        by (by rewrite list_lookup_insert_ne).
      destruct (IH _ Hinv1) as (st' & Hrun & Hinv' & Hkept & Hdone).
      { intros k' u' v' Hin. destruct (Hwf k' u' v') as [? ?]; [by right|].
        split; [done|]. simpl. by apply marks_kept_insert. }
      exists st'. split_and!; [done|done| |].
      * intros i Hi. apply Hkept. simpl. by apply marks_kept_insert.
      * destruct Hdone as [?|Hdone]; [by left|right].
        intros k' u' v' [[= -> -> ->]|Hin]%elem_of_cons; [|by eapply Hdone].
        apply Hkept. simpl. apply list_lookup_insert_eq.
        rewrite (inv_len_marked _ _ _ Hinv). done.
Qed.

Lemma heap_order_Permutation tuples : heap_order tuples ≡ₚ tuples.
Proof. apply merge_sort_Permutation. Qed.

(** The arrays before the first phase. *)
Lemma initial_inv n :
  pool_inv n (target_size n)
    {| uf_parents := seq 0 n; uf_rank := replicate n 1%nat;
       marked := replicate n false; n_abstract_nodes := n |}.
Proof.
  split; simpl.
  - apply length_seq.
  - apply length_replicate.
  - apply length_replicate.
  - intros i p Hi. apply lookup_seq in Hi as [-> Hlt]. by apply lookup_seq.
  - intros i Hi. apply lookup_replicate in Hi as [_ Hlt]. split_and!.
    + by apply lookup_seq.
    + by apply lookup_replicate.
    + intros j Hj. apply lookup_seq in Hj as [? ?]. lia.
  - intros i p Hi. apply lookup_replicate in Hi as [? _]. done.
  - unfold roots. rewrite length_seq. rewrite filter_all; [by rewrite length_seq|].
    intros y Hy. apply elem_of_seq in Hy. unfold is_root.
    apply lookup_seq. split; [done|lia].
  - unfold marked_indices. rewrite length_replicate. rewrite filter_none; [simpl; lia|].
    intros y Hy H. apply lookup_replicate in H as [? _]. done.
  - unfold target_size.
    destruct n as [|n]; [done|]. apply Nat.Div0.div_le_upper_bound. lia.
Qed.

(** ** The entries of the two heaps *)

Section Phases.

Variable geometric_mean : nat -> nat -> Q.
Variable graph : Graph.
Hypothesis graph_wf : wf_graph graph.

Lemma make_tuple_Some u v :
  (u < length graph)%nat -> (v < length graph)%nat ->
  exists k, make_mean_degree_edge_tuple geometric_mean graph (nodes graph) u v
            = Some (k, u, v).
Proof.
  intros Hu Hv. unfold make_mean_degree_edge_tuple.
  destruct (lookup_lt_is_Some_2 (nodes graph) u) as [x Hx];
    [by rewrite length_nodes|].
  destruct (lookup_lt_is_Some_2 (nodes graph) v) as [y Hy];
    [by rewrite length_nodes|].
  rewrite Hx, Hy. simpl. eauto.
Qed.

Lemma make_tuple_inv u v t :
  make_mean_degree_edge_tuple geometric_mean graph (nodes graph) u v = Some t ->
  exists k, t = (k, u, v).
Proof.
  unfold make_mean_degree_edge_tuple.
  destruct (nodes graph !! u); simpl; [|done].
  destruct (nodes graph !! v); simpl; [|done]. intros [= <-]. eauto.
Qed.

Lemma node_index_lt x i :
  node_index (nodes graph) x = Some i -> (i < length graph)%nat.
Proof.
  intros H%node_index_Some. apply lookup_lt_Some in H.
  by rewrite length_nodes in H.
Qed.

Lemma strict_tuples_spec :
  exists tuples,
    strict_tuples geometric_mean graph (nodes graph) = Some tuples /\
    (forall k u v, (k, u, v) ∈ tuples ->
       u ≠ v /\ (u < length graph)%nat /\ (v < length graph)%nat) /\
    (forall x y i j, y ∈ neighbors graph x -> x ≠ y ->
       node_index (nodes graph) x = Some i ->
       node_index (nodes graph) y = Some j ->
       exists k, (k, i, j) ∈ tuples \/ (k, j, i) ∈ tuples).
Proof.
  pose proof (wf_nodup _ graph_wf) as Hnd.
  set (f := λ e : Z * Z,
              u ← node_index (nodes graph) e.1;
              v ← node_index (nodes graph) e.2;
              make_mean_degree_edge_tuple geometric_mean graph (nodes graph) u v).
  assert (forall a b, (a, b) ∈ edges graph ->
            exists i j k, node_index (nodes graph) a = Some i /\
                          node_index (nodes graph) b = Some j /\
                          f (a, b) = Some (k, i, j)) as Hf.
  { intros a b Hab. apply (edges_adjacent _ _ _ Hnd) in Hab.
    destruct (node_index_elem (nodes graph) a) as [i Hi];
      [by eapply neighbors_in_nodes|].
    destruct (node_index_elem (nodes graph) b) as [j Hj];
      [by eapply wf_closed|].
    destruct (make_tuple_Some i j) as [k Hk];
      [by eapply node_index_lt|by eapply node_index_lt|].
    exists i, j, k. unfold f. simpl. rewrite Hi, Hj. simpl. done. }
  destruct (mapM f (filter (λ e : Z * Z, e.1 ≠ e.2) (edges graph)))
    as [tuples|] eqn:Hm.
  2:{ exfalso. apply eq_None_not_Some in Hm. apply Hm, mapM_is_Some.
      apply Forall_forall. intros [a b] [_ Hab]%list_elem_of_filter.
      destruct (Hf a b Hab) as (i & j & k & _ & _ & Hk). simpl. by rewrite Hk. }
  exists tuples. split; [done|]. apply mapM_Some_1 in Hm. split.
  - intros k u v Hin. apply list_elem_of_lookup in Hin as [pos Hpos].
    destruct (Forall2_lookup_r _ _ _ _ _ Hm Hpos) as ([a b] & Hab & Hfab).
    apply list_elem_of_lookup_2, list_elem_of_filter in Hab as [Hne Hab].
    destruct (Hf a b Hab) as (i & j & k' & Hi & Hj & Hk). simpl in Hne.
    rewrite Hk in Hfab. injection Hfab as <- <- <-.
    split_and!; [|by eapply node_index_lt|by eapply node_index_lt].
    intros ->. apply Hne. by eapply node_index_inj.
  - intros x y i j Hy Hne Hi Hj.
    assert (forall a b i j, (a, b) ∈ edges graph -> a ≠ b ->
              node_index (nodes graph) a = Some i ->
              node_index (nodes graph) b = Some j ->
              exists k, (k, i, j) ∈ tuples) as Hone.
    { intros a b i' j' Hab Hne' Hi' Hj'.
      assert ((a, b) ∈ filter (λ e : Z * Z, e.1 ≠ e.2) (edges graph)) as Hin
        by (by apply list_elem_of_filter).
      apply list_elem_of_lookup in Hin as [pos Hpos].
      destruct (Forall2_lookup_l _ _ _ _ _ Hm Hpos) as (t & Ht & Hfab).
      destruct (Hf a b Hab) as (i0 & j0 & k & Hi0 & Hj0 & Hk).
      rewrite Hk in Hfab. injection Hfab as <-.
      exists k. replace i' with i0 by congruence. replace j' with j0 by congruence.
      by eapply list_elem_of_lookup_2. }
    destruct (edges_cover _ _ _ graph_wf Hy Hne) as [Hxy|Hyx].
    + destruct (Hone x y i j Hxy Hne Hi Hj) as [k Hk]. eauto.
    + destruct (Hone y x j i Hyx ltac:(done) Hj Hi) as [k Hk]. eauto.
Qed.

Lemma loose_candidates_spec (marks : list bool) :
  length marks = length graph ->
  exists candidates,
    loose_candidates graph (nodes graph) marks = Some candidates /\
    forall ui nb, (ui, nb) ∈ candidates <->
      marks !! ui = Some false /\
      exists node, nodes graph !! ui = Some node /\ nb ∈ neighbors graph node.
Proof.
  intros Hlen. unfold loose_candidates.
  set (f := λ unmarked_node_index : nat,
              node ← nodes graph !! unmarked_node_index;
              Some ((λ neighbor, (unmarked_node_index, neighbor))
                      <$> neighbors graph node)).
  set (unmarked := filter (λ i, marks !! i = Some false) (seq 0 (length marks))).
  destruct (mapM f unmarked) as [ll|] eqn:Hm.
  2:{ exfalso. apply eq_None_not_Some in Hm. apply Hm, mapM_is_Some.
      apply Forall_forall. intros i [Hi _]%list_elem_of_filter.
      apply lookup_lt_Some in Hi.
      destruct (lookup_lt_is_Some_2 (nodes graph) i) as [x Hx];
        [rewrite length_nodes; lia|].
      unfold f. simpl. rewrite Hx. simpl. by eexists. }
  simpl. eexists. split; [done|]. apply mapM_Some_1 in Hm.
  intros ui nb. rewrite list_elem_of_join. split.
  - intros (l & Hnb & Hl). apply list_elem_of_lookup in Hl as [pos Hpos].
    destruct (Forall2_lookup_r _ _ _ _ _ Hm Hpos) as (i & Hi & Hfi).
    apply list_elem_of_lookup_2, list_elem_of_filter in Hi as [Hi _].
    unfold f in Hfi. destruct (nodes graph !! i) as [node|] eqn:Hnode; [|done].
    simpl in Hfi. injection Hfi as <-.
    apply list_elem_of_fmap in Hnb as (nb' & [= -> ->] & Hnb'). eauto.
  - intros (Hui & node & Hnode & Hnb).
    assert (ui ∈ unmarked) as Hin.
    { apply list_elem_of_filter. split; [done|]. apply elem_of_seq.
      apply lookup_lt_Some in Hui. lia. }
    apply list_elem_of_lookup in Hin as [pos Hpos].
    destruct (Forall2_lookup_l _ _ _ _ _ Hm Hpos) as (l & Hl & Hfi).
    unfold f in Hfi. rewrite Hnode in Hfi. simpl in Hfi. injection Hfi as <-.
    eexists. split; [|by eapply list_elem_of_lookup_2].
    apply list_elem_of_fmap. eauto.
Qed.

Lemma loose_tuples_spec (marks : list bool) :
  length marks = length graph ->
  exists tuples,
    loose_tuples geometric_mean graph (nodes graph) marks = Some tuples /\
    (forall k u v, (k, u, v) ∈ tuples ->
       (u < length graph)%nat /\ marks !! v = Some true) /\
    (forall ui node nb mi,
       marks !! ui = Some false -> nodes graph !! ui = Some node ->
       nb ∈ neighbors graph node -> node_index (nodes graph) nb = Some mi ->
       marks !! mi = Some true ->
       exists k, (k, ui, mi) ∈ tuples).
Proof.
  intros Hlen. unfold loose_tuples.
  destruct (loose_candidates_spec marks Hlen) as (candidates & -> & Hcand).
  simpl.
  assert (forall ui nb, (ui, nb) ∈ candidates ->
            exists mi m, node_index (nodes graph) nb = Some mi /\
                         marks !! mi = Some m /\ (ui < length graph)%nat /\
                         ((m = true /\ exists k,
                             loose_tuple geometric_mean graph (nodes graph) marks (ui, nb)
                             = Some (Some (k, ui, mi))) \/
                          (m = false /\
                             loose_tuple geometric_mean graph (nodes graph) marks (ui, nb)
                             = Some None))) as Hf.
  { intros ui nb (Hui & node & Hnode & Hnb)%Hcand.
    destruct (node_index_elem (nodes graph) nb) as [mi Hmi];
      [by eapply wf_closed|].
    pose proof (node_index_lt _ _ Hmi) as Hlt.
    destruct (lookup_lt_is_Some_2 marks mi) as [m Hm]; [lia|].
    assert (ui < length graph)%nat as Hult
      by (apply lookup_lt_Some in Hui; lia).
    exists mi, m. split_and!; [done|done|done|].
    unfold loose_tuple. simpl. rewrite Hmi. simpl. rewrite Hm. simpl.
    destruct m; [left|right; done].
    split; [done|]. destruct (make_tuple_Some ui mi Hult Hlt) as [k ->]. eauto. }
  destruct (mapM (loose_tuple geometric_mean graph (nodes graph) marks) candidates)
    as [entries|] eqn:Hm.
  2:{ exfalso. apply eq_None_not_Some in Hm. apply Hm, mapM_is_Some.
      apply Forall_forall. intros [ui nb] Hin.
      destruct (Hf ui nb Hin) as (mi & m & _ & _ & _ & [[_ [k Hk]]|[_ Hk]]);
        simpl; rewrite Hk; by eexists. }
  simpl. eexists. split; [done|]. apply mapM_Some_1 in Hm. split.
  - intros k u v Hin. apply list_elem_of_omap in Hin as (o & Ho & Hid).
    simpl in Hid. subst o. apply list_elem_of_lookup in Ho as [pos Hpos].
    destruct (Forall2_lookup_r _ _ _ _ _ Hm Hpos) as ([ui nb] & Hc & Hfc).
    apply list_elem_of_lookup_2 in Hc.
    destruct (Hf ui nb Hc) as (mi & m & Hmi & Hmm & Hlt & [[-> [k' Hk]]|[_ Hk]]);
      rewrite Hk in Hfc; [|done].
    injection Hfc as <- <- <-. done.
  - intros ui node nb mi Hui Hnode Hnb Hmi Hmm.
    assert ((ui, nb) ∈ candidates) as Hc by (apply Hcand; eauto).
    destruct (Hf ui nb Hc) as (mi' & m & Hmi' & Hmm' & _ & Hcase).
    replace mi' with mi in * by congruence.
    replace m with true in * by congruence.
    destruct Hcase as [[_ [k Hk]]|[? _]]; [|done].
    apply list_elem_of_lookup in Hc as [pos Hpos].
    destruct (Forall2_lookup_l _ _ _ _ _ Hm Hpos) as (o & Ho & Hfc).
    rewrite Hk in Hfc. injection Hfc as <-.
    exists k. apply list_elem_of_omap. exists (Some (k, ui, mi)).
    split; [by eapply list_elem_of_lookup_2|done].
Qed.

End Phases.

(** ** Both phases together *)

Lemma target_size_small n : (target_size n < n -> 2 <= n)%nat.
Proof. destruct n as [|[|n]]; cbn; lia. Qed.

Lemma target_size_half n k : (2 * k <= n -> k <= target_size n)%nat.
Proof.
  intros H. unfold target_size. apply Nat.div_le_lower_bound; lia.
Qed.

Lemma target_size_parity n :
  (Nat.even n = true -> target_size n = n / 2)%nat /\
  (Nat.odd n = true -> target_size n = n / 2 + 1)%nat.
Proof.
  unfold target_size. split.
  - intros [m ->]%Nat.even_spec.
    rewrite (Nat.mul_comm 2 m), Nat.div_add_l, Nat.div_mul by lia. simpl. lia.
  - intros [m ->]%Nat.odd_spec.
    replace (2 * m + 1 + 1)%nat with ((m + 1) * 2)%nat by lia.
    rewrite Nat.div_mul by lia.
    rewrite (Nat.mul_comm 2 m), Nat.div_add_l by lia. simpl. lia.
Qed.

Section Cardinality.

Variable geometric_mean : nat -> nat -> Q.
Variable graph : Graph.
Hypothesis graph_wf : wf_graph graph.
Hypothesis graph_connected : connected graph.

(** The two phases reach the target size. *)
Lemma pooled_state_reaches_target :
  exists st,
    pooled_state geometric_mean graph = Some st /\
    pool_inv (length graph) (target_size (length graph)) st /\
    n_abstract_nodes st = target_size (length graph).
Proof.
  pose proof (wf_nodup _ graph_wf) as Hnd.
  unfold pooled_state. rewrite length_nodes.
  set (n := length graph). set (target := target_size n).
  destruct (strict_tuples_spec geometric_mean graph graph_wf)
    as (l1 & -> & Hwf1 & Hcov1). simpl.
  unfold perform_vertex_pooling.
  destruct (pooling_loop_strict n target (heap_order l1) _ (initial_inv n))
    as (st1 & -> & Hinv1 & Hkept1 & Hdone1).
  { intros k u v Hin. rewrite heap_order_Permutation in Hin. by eapply Hwf1. }
  simpl. destruct (decide (target < n_abstract_nodes st1)%nat) as [Hgt|Hle].
  2:{ exists st1. split_and!; [done|done|].
      pose proof (inv_target _ _ _ Hinv1). lia. }
  destruct (loose_tuples_spec geometric_mean graph graph_wf (marked st1)
              (inv_len_marked _ _ _ Hinv1)) as (l2 & -> & Hwf2 & Hcov2).
  simpl.
  destruct (pooling_loop_loose n target (heap_order l2) st1 Hinv1)
    as (st2 & -> & Hinv2 & Hkept2 & Hdone2).
  { intros k u v Hin. rewrite heap_order_Permutation in Hin. by eapply Hwf2. }
  exists st2. split_and!; [done|done|].
  destruct Hdone2 as [?|Hall2]; [done|].
  destruct Hdone1 as [?|Hall1]; [lia|].
  assert (2 <= n)%nat as Hn.
  { apply target_size_small. fold target.
    pose proof (inv_budget _ _ _ Hinv1). lia. }
  assert (forall i, (i < n)%nat -> marked st2 !! i = Some true) as Hmarked.
  { intros i Hi.
    destruct (lookup_lt_is_Some_2 (marked st1) i) as [b Hb];
      [by rewrite (inv_len_marked _ _ _ Hinv1)|].
    destruct b; [by apply Hkept2|].
    destruct (lookup_lt_is_Some_2 (nodes graph) i) as [x Hx];
      [by rewrite length_nodes|].
    destruct (second_node (nodes graph) x Hnd) as (z & Hz & Hzx);
      [by rewrite length_nodes|].
    assert (x ∈ nodes graph) as Hxin by (by eapply list_elem_of_lookup_2).
    destruct (reachable_other_neighbor graph x z (graph_connected x z Hxin Hz) Hzx)
      as (y & Hy & Hyx).
    pose proof (node_index_lookup _ _ _ Hnd Hx) as Hix.
    destruct (node_index_elem (nodes graph) y) as [mi Hmi];
      [by eapply wf_closed|].
    assert (marked st1 !! mi = Some true) as Hmm.
    { destruct (Hcov1 x y i mi Hy ltac:(done) Hix Hmi) as [k [Hk|Hk]].
      - destruct (Hall1 k i mi) as [?|?]; [|congruence|done].
        by rewrite heap_order_Permutation.
      - destruct (Hall1 k mi i) as [?|?]; [|done|congruence].
        by rewrite heap_order_Permutation. }
    destruct (Hcov2 i x y mi Hb Hx Hy Hmi Hmm) as [k Hk].
    apply (Hall2 k i mi). by rewrite heap_order_Permutation. }
  assert (length (marked_indices (marked st2)) = n) as Hcount.
  { unfold marked_indices. rewrite (inv_len_marked _ _ _ Hinv2).
    rewrite filter_all; [apply length_seq|].
    intros i Hi%elem_of_seq. apply Hmarked. lia. }
  pose proof (inv_budget _ _ _ Hinv2) as Hbudget. rewrite Hcount in Hbudget.
  pose proof (inv_target _ _ _ Hinv2) as Htarget.
  pose proof (target_size_half n (n_abstract_nodes st2) ltac:(lia)). unfold target in *. lia.
Qed.

End Cardinality.

(** ** The dictionary that is returned *)

Lemma find_values_flat parents indices :
  (forall i p, parents !! i = Some p -> parents !! p = Some p) ->
  Forall (λ i, i < length parents)%nat indices ->
  exists rs, find_values indices parents = Some (parents, rs) /\
             Forall2 (λ i r, parents !! i = Some r) indices rs.
Proof.
  intros Hflat. induction indices as [|i rest IH]; intros Hlt.
  - exists []. split; [done|constructor].
  - apply Forall_cons in Hlt as [Hi Hrest].
    destruct (lookup_lt_is_Some_2 parents i Hi) as [p Hp].
    destruct (IH Hrest) as (rs & Hrs & Hall).
    exists (p :: rs). split; [|by constructor].
    cbn [find_values]. rewrite Hp. simpl.
    rewrite (find_root parents p) by (by eapply Hflat). simpl.
    by rewrite Hrs.
Qed.

Lemma find_indices_flat parents indices :
  (forall i p, parents !! i = Some p -> parents !! p = Some p) ->
  Forall (λ i, i < length parents)%nat indices ->
  exists rs, find_indices indices parents = Some (parents, rs) /\
             Forall2 (λ i r, parents !! i = Some r) indices rs.
Proof.
  intros Hflat. induction indices as [|i rest IH]; intros Hlt.
  - exists []. split; [done|constructor].
  - apply Forall_cons in Hlt as [Hi Hrest].
    destruct (lookup_lt_is_Some_2 parents i Hi) as [p Hp].
    destruct (IH Hrest) as (rs & Hrs & Hall).
    exists (p :: rs). split; [|by constructor].
    cbn [find_indices].
    rewrite (find_flat parents i p) by (by eauto). simpl.
    by rewrite Hrs.
Qed.

Lemma lookup_all_seq (l rs : list nat) :
  Forall2 (λ i r, l !! i = Some r) (seq 0 (length l)) rs -> rs = l.
Proof.
  intros H. apply list_eq. intros i.
  pose proof (Forall2_length _ _ _ H) as Hlen. rewrite length_seq in Hlen.
  destruct (decide (i < length l)%nat) as [Hi|Hi].
  - assert (seq 0 (length l) !! i = Some i) as Hs by (by apply lookup_seq).
    destruct (Forall2_lookup_l _ _ _ _ _ H Hs) as (r & Hr & Hl). congruence.
  - rewrite !lookup_ge_None_2; [done|lia|lia].
Qed.

Lemma Forall_seq_lt n : Forall (λ i, i < n)%nat (seq 0 n).
Proof. apply Forall_forall. intros i Hi%elem_of_seq. lia. Qed.

(** What is asked of the iteration order of a set. *)
Definition lists_set (set_order : list nat -> list nat) : Prop :=
  forall l, NoDup (set_order l) /\ forall x, x ∈ set_order l <-> x ∈ l.

Lemma roots_elem parents x :
  (forall i p, parents !! i = Some p -> parents !! p = Some p) ->
  x ∈ roots parents <-> x ∈ parents.
Proof.
  intros Hflat. unfold roots. rewrite list_elem_of_filter, elem_of_seq. split.
  - intros [Hx _]. by eapply list_elem_of_lookup_2.
  - intros [i Hi]%list_elem_of_lookup. pose proof (Hflat _ _ Hi) as Hx.
    split; [done|]. apply lookup_lt_Some in Hx. lia.
Qed.

Lemma roots_NoDup parents : NoDup (roots parents).
Proof. unfold roots. apply NoDup_filter, NoDup_seq. Qed.

(** The dictionary the pooling returns on a connected graph: its keys
    are the nodes of the graph, and the abstract nodes it names are exactly
    the numbers below [ceil(|V| / 2)]. *)
Lemma abstract_vertex_pooling_image
    (geometric_mean : nat -> nat -> Q) (set_order : list nat -> list nat)
    (graph : Graph) :
  lists_set set_order -> wf_graph graph -> connected graph ->
  exists mapping,
    abstract_vertex_pooling geometric_mean set_order graph = Some mapping /\
    mapping.*1 = nodes graph /\
    (forall a, a ∈ mapping.*2 <-> (a < target_size (length graph))%nat).
Proof.
  intros Hset Hwf Hconn.
  destruct (pooled_state_reaches_target geometric_mean graph Hwf Hconn)
    as (st & Hst & Hinv & Htarget).
  unfold abstract_vertex_pooling. rewrite Hst. simpl.
  pose proof (inv_flat _ _ _ Hinv) as Hflat.
  pose proof (inv_len_parents _ _ _ Hinv) as Hlen.
  destruct (find_values_flat (uf_parents st) (seq 0 (length (uf_parents st))) Hflat
              (Forall_seq_lt _)) as (roots_found & -> & Hroots).
  apply lookup_all_seq in Hroots. subst roots_found. simpl.
  rewrite length_nodes, <- Hlen.
  destruct (find_indices_flat (uf_parents st) (seq 0 (length (uf_parents st))) Hflat
              (Forall_seq_lt _)) as (found & -> & Hfound).
  apply lookup_all_seq in Hfound. subst found. simpl.
  destruct (Hset (uf_parents st)) as [Hnd Helem].
  set (uf_roots := set_order (uf_parents st)) in *.
  assert (length uf_roots = target_size (length graph)) as Hk.
  { rewrite <- Htarget, (inv_count _ _ _ Hinv). apply Permutation_length.
    apply NoDup_Permutation; [done|apply roots_NoDup|].
    intros x. by rewrite Helem, roots_elem. }
  destruct (mapM (index_of uf_roots) (uf_parents st)) as [ids|] eqn:Hm.
  2:{ exfalso. apply eq_None_not_Some in Hm. apply Hm, mapM_is_Some.
      apply Forall_forall. intros r Hr. apply index_of_elem. by apply Helem. }
  simpl. apply mapM_Some_1 in Hm.
  pose proof (Forall2_length _ _ _ Hm) as Hids.
  assert (forall a, a ∈ ids <-> (a < target_size (length graph))%nat) as Himage.
  { intros a. rewrite <- Hk. split.
    - intros [pos Hpos]%list_elem_of_lookup.
      destruct (Forall2_lookup_r _ _ _ _ _ Hm Hpos) as (r & _ & Hr).
      apply index_of_Some in Hr. by eapply lookup_lt_Some.
    - intros Ha. destruct (lookup_lt_is_Some_2 uf_roots a Ha) as [r Hr].
      assert (r ∈ uf_parents st) as Hin
        by (apply Helem; by eapply list_elem_of_lookup_2).
      apply list_elem_of_lookup in Hin as [pos Hpos].
      destruct (Forall2_lookup_l _ _ _ _ _ Hm Hpos) as (a' & Ha' & Hidx).
      rewrite (index_of_lookup uf_roots r a Hnd Hr) in Hidx.
      injection Hidx as <-. by eapply list_elem_of_lookup_2. }
  eexists. split; [done|]. rewrite !Hlen.
  rewrite fst_zip by (rewrite length_nodes; lia).
  rewrite snd_zip by (rewrite length_nodes; lia).
  split; [done|exact Himage].
Qed.

(** C2. On a connected graph the pooling returns a dictionary over all
    nodes of the graph that names exactly [ceil(|V| / 2)] distinct abstract
    nodes, the numbers below that bound: [|V| / 2] of them for even and
    [|V| / 2 + 1] for odd [|V|].  This holds for every value the metric of
    the heap takes and for every iteration order of the set of roots. *)
Theorem pooling_cardinality
    (geometric_mean : nat -> nat -> Q) (set_order : list nat -> list nat)
    (graph : Graph) :
  lists_set set_order -> wf_graph graph -> connected graph ->
  exists mapping,
    abstract_vertex_pooling geometric_mean set_order graph = Some mapping /\
    mapping.*1 = nodes graph /\
    (forall a, a ∈ mapping.*2 <-> (a < target_size (length graph))%nat) /\
    size (list_to_set mapping.*2 : gset nat) = target_size (length graph) /\
    (Nat.even (length graph) = true ->
       size (list_to_set mapping.*2 : gset nat) = (length graph / 2)%nat) /\
    (Nat.odd (length graph) = true ->
       size (list_to_set mapping.*2 : gset nat) = (length graph / 2 + 1)%nat).
Proof.
  intros Hset Hwf Hconn.
  destruct (abstract_vertex_pooling_image geometric_mean set_order graph
              Hset Hwf Hconn) as (mapping & Hrun & Hkeys & Himage).
  assert (size (list_to_set mapping.*2 : gset nat) = target_size (length graph))
    as Hsize.
  { replace (list_to_set mapping.*2 : gset nat)
      with (list_to_set (seq 0 (target_size (length graph))) : gset nat).
    - rewrite size_list_to_set by apply NoDup_seq. apply length_seq.
    - apply set_eq. intros a. rewrite !elem_of_list_to_set, Himage, elem_of_seq. lia. }
  destruct (target_size_parity (length graph)) as [Heven Hodd].
  exists mapping.
  split; [done|]. split; [done|]. split; [exact Himage|]. split; [exact Hsize|]. split.
  - intros He. by rewrite Hsize, Heven.
  - intros Ho. by rewrite Hsize, Hodd.
Qed.

Lemma increasing_order_lists_set : lists_set increasing_order.
Proof.
  intros l. unfold increasing_order. split.
  - rewrite merge_sort_Permutation. apply NoDup_remove_dups.
  - intros x. rewrite merge_sort_Permutation. apply elem_of_remove_dups.
Qed.

Lemma pooling_cardinality_witness :
  exists mapping,
    abstract_vertex_pooling degree_product increasing_order star4 = Some mapping /\
    mapping.*1 = [0; 1; 2; 3] /\
    size (list_to_set mapping.*2 : gset nat) = 2%nat.
Proof.
  destruct (pooling_cardinality degree_product increasing_order star4
              increasing_order_lists_set
              (wf_graphb_sound star4 ltac:(vm_compute; reflexivity))
              (connectedb_sound star4 ltac:(vm_compute; reflexivity)))
    as (mapping & H1 & H2 & _ & H4 & _).
  exists mapping. done.
Defined.

End Pooling.

(* ===================================================================== *)
(** * engine/modules/abstraction/graph.py and hierarchy.py                *)
(* ===================================================================== *)

Module Abstraction.
Import Outcome Graphs Pooling.

(** A [dict[int, int]] in insertion order; [None] is a [KeyError]. *)
Definition Dict : Type := list (Z * Z).

Fixpoint dict_get (d : Dict) (key : Z) : option Z :=
  match d with
  | [] => None
  | (k, v) :: d' => if decide (k = key) then Some v else dict_get d' key
  end.

(** [inverse[abstract_node].append(node)] on a [defaultdict(list)]. *)
Fixpoint inverse_add (inverse : list (Z * list Z)) (abstract_node node : Z)
  : list (Z * list Z) :=
  match inverse with
  | [] => [(abstract_node, [node])]
  | (a, ns) :: inverse' =>
      if decide (a = abstract_node) then (a, ns ++ [node]) :: inverse'
      else (a, ns) :: inverse_add inverse' abstract_node node
  end.

Definition inverse_of (d : Dict) : list (Z * list Z) :=
  fold_left (λ inverse item, inverse_add inverse item.2 item.1) d [].

(** The fields of a [GraphAbstraction] that its constructor computes (the
    two stores start empty). *)
Record GraphAbstraction : Type := {
  abs_graph : Graph;
  vertex_mapping : Dict;
  inverse_vertex_mapping : list (Z * list Z);
  literal_vertex_mapping : Dict;
  inverse_literal_vertex_mapping : list (Z * list Z);
  n_nodes : nat;
  n_edges : nat
}.

Definition ABSTRACTION_SIZE_THRESHOLD : nat := 5.

Section Hierarchy.

Variable geometric_mean : nat -> nat -> Q.
Variable set_order : list nat -> list nat.

(** [GraphAbstraction.__init__] *)
Definition GraphAbstraction_init (graph : Graph) (prior_literal_vertex_mapping : Dict)
  : option GraphAbstraction :=
  pooled ← abstract_vertex_pooling geometric_mean set_order graph;
  let vertex_mapping : Dict := (λ item, (item.1, Z.of_nat item.2)) <$> pooled in
  literal_vertex_mapping ←
    mapM (λ item : Z * Z,
            abstract_node ← dict_get vertex_mapping item.2;
            Some (item.1, abstract_node))
         prior_literal_vertex_mapping;
  abstract_edges ←
    mapM (λ e : Z * Z,
            abstract_u ← dict_get vertex_mapping e.1;
            abstract_v ← dict_get vertex_mapping e.2;
            Some (abstract_u, abstract_v))
         (edges graph);
  let abstract_graph :=
    add_edges_from (add_nodes_from [] vertex_mapping.*2)
                   (filter (λ e : Z * Z, e.1 ≠ e.2) abstract_edges) in
  Some {| abs_graph := abstract_graph;
          vertex_mapping := vertex_mapping;
          inverse_vertex_mapping := inverse_of vertex_mapping;
          literal_vertex_mapping := literal_vertex_mapping;
          inverse_literal_vertex_mapping := inverse_of literal_vertex_mapping;
          n_nodes := number_of_nodes abstract_graph;
          n_edges := length (edges abstract_graph) |}.

(** The [while] loop of [AbstractionHierarchy.__init__]: the
    abstractions appended after [abstraction]. *)
Fixpoint hierarchy_loop (fuel : nat) (abstraction : GraphAbstraction)
  : outcome (list GraphAbstraction) :=
  if decide (n_nodes abstraction <= ABSTRACTION_SIZE_THRESHOLD)%nat then Return []
  else
    match fuel with
    | O => OutOfFuel
    | S fuel' =>
        match GraphAbstraction_init (abs_graph abstraction)
                (literal_vertex_mapping abstraction) with
        | None => Raise
        | Some next =>
            match hierarchy_loop fuel' next with
            | Return rest => Return (next :: rest)
            | Raise => Raise
            | OutOfFuel => OutOfFuel
            end
        end
    end.

(** [{node: node for node in graph.nodes}] *)
Definition identity_mapping (graph : Graph) : Dict := (λ node, (node, node)) <$> nodes graph.

(** [AbstractionHierarchy.__init__]: the list [self.abstractions]. *)
Definition AbstractionHierarchy_init (fuel : nat) (graph : Graph)
  : outcome (list GraphAbstraction) :=
  match GraphAbstraction_init graph (identity_mapping graph) with
  | None => Raise
  | Some abstraction =>
      match hierarchy_loop fuel abstraction with
      | Return rest => Return (abstraction :: rest)
      | Raise => Raise
      | OutOfFuel => OutOfFuel
      end
  end.

(** Each abstraction after the first is the pooled contraction of the one
    before it; all but the last have more nodes than the threshold. *)
Fixpoint pooled_chain (abstraction : GraphAbstraction) (rest : list GraphAbstraction)
  : Prop :=
  match rest with
  | [] => (n_nodes abstraction <= ABSTRACTION_SIZE_THRESHOLD)%nat
  | next :: rest' =>
      (ABSTRACTION_SIZE_THRESHOLD < n_nodes abstraction)%nat /\
      GraphAbstraction_init (abs_graph abstraction) (literal_vertex_mapping abstraction)
        = Some next /\
      pooled_chain next rest'
  end.

(** The reading in which the hierarchy starts with the graph itself. *)
Definition starts_with_identity (graph : Graph) (abstractions : list GraphAbstraction)
  : Prop :=
  exists first rest,
    abstractions = first :: rest /\
    abs_graph first = graph /\
    literal_vertex_mapping first = identity_mapping graph.

End Hierarchy.

(** The cycle on twelve nodes: a level of six nodes and a level of three. *)
Definition cycle12 : Graph :=
  of_edges [(0, 1); (1, 2); (2, 3); (3, 4); (4, 5); (5, 6); (6, 7); (7, 8);
            (8, 9); (9, 10); (10, 11); (11, 0)].

Example hierarchy_cycle12 :
  exists levels,
    AbstractionHierarchy_init degree_product increasing_order 12 cycle12 = Return levels /\
    (λ a, (nodes (abs_graph a), literal_vertex_mapping a)) <$> levels
    = [([0; 1; 2; 3; 4; 5],
        [(0, 0); (1, 0); (2, 1); (3, 1); (4, 2); (5, 2); (6, 3); (7, 3);
         (8, 4); (9, 4); (10, 5); (11, 5)]);
       ([0; 1; 2],
        [(0, 0); (1, 0); (2, 0); (3, 0); (4, 1); (5, 1); (6, 1); (7, 1);
         (8, 2); (9, 2); (10, 2); (11, 2)])].
Proof. eexists. split; vm_compute; reflexivity. Qed.

Example hierarchy_path4 :
  exists levels,
    AbstractionHierarchy_init degree_product increasing_order 4 path4 = Return levels /\
    (λ a, (abs_graph a, literal_vertex_mapping a)) <$> levels
    = [([(0, [1]); (1, [0])], [(0, 0); (1, 0); (2, 1); (3, 1)])].
Proof. eexists. split; vm_compute; reflexivity. Qed.

(** ** Dictionaries *)

Lemma dict_get_Some d k v : dict_get d k = Some v -> (k, v) ∈ d.
Proof.
  induction d as [|[k' v'] d IH]; simpl; [done|].
  case_decide as Hk; [intros [= <-]; subst; left|]. intros H. right. by apply IH.
Qed.

Lemma dict_get_elem d k : k ∈ d.*1 -> is_Some (dict_get d k).
Proof.
  induction d as [|[k' v'] d IH]; [by intros ?%elem_of_nil|].
  rewrite fmap_cons. simpl. intros Hin. case_decide as Hk; [by eexists|].
  apply IH. apply elem_of_cons in Hin as [?|?]; [congruence|done].
Qed.

Lemma dict_get_NoDup d k v : NoDup d.*1 -> (k, v) ∈ d -> dict_get d k = Some v.
Proof.
  induction d as [|[k' v'] d IH]; intros Hnd Hin; [by apply elem_of_nil in Hin|].
  rewrite fmap_cons in Hnd. apply NoDup_cons in Hnd as [Hk' Hnd]. simpl in *.
  apply elem_of_cons in Hin as [[= -> ->]|Hin].
  - by rewrite decide_True.
  - case_decide as Hk; [|by apply IH]. subst. exfalso. apply Hk'.
    apply list_elem_of_fmap. by exists (k, v).
Qed.

Lemma mapM_cons_unfold {A B} (f : A -> option B) x l :
  mapM f (x :: l) = y ← f x; k ← mapM f l; Some (y :: k).
Proof. done. Qed.

(** Looking every key of a dictionary up in it gives the dictionary. *)
Lemma mapM_dict_get_self (d l : Dict) :
  (forall item, item ∈ l -> dict_get d item.1 = Some item.2) ->
  mapM (λ item : Z * Z, abstract_node ← dict_get d item.2; Some (item.1, abstract_node))
       ((λ node, (node, node)) <$> l.*1) = Some l.
Proof.
  induction l as [|[k v] l IH]; intros H; [done|].
  pose proof (H (k, v) ltac:(left)) as Hk. simpl in Hk.
  rewrite !fmap_cons. cbn [fst snd]. rewrite mapM_cons_unfold. cbn [fst snd].
  rewrite Hk. simpl. rewrite IH; [done|]. intros item Hitem. apply H. by right.
Qed.

Section Contraction.

Variable geometric_mean : nat -> nat -> Q.
Variable set_order : list nat -> list nat.
Hypothesis set_order_ok : lists_set set_order.

Lemma target_size_lt n : (2 <= n -> target_size n < n)%nat.
Proof. intros H. unfold target_size. apply Nat.Div0.div_lt_upper_bound. lia. Qed.

(** One contraction of a connected graph: the abstract graph is well
    formed and connected again, it has [ceil(|V| / 2)] nodes, and the
    literal mapping keeps its keys and lands in the abstract graph. *)
Lemma GraphAbstraction_init_spec (graph : Graph) (prior : Dict) :
  wf_graph graph -> connected graph ->
  (forall k v, (k, v) ∈ prior -> v ∈ nodes graph) ->
  exists a,
    GraphAbstraction_init geometric_mean set_order graph prior = Some a /\
    wf_graph (abs_graph a) /\ connected (abs_graph a) /\
    n_nodes a = length (abs_graph a) /\
    n_nodes a = target_size (length graph) /\
    (forall k v, (k, v) ∈ literal_vertex_mapping a -> v ∈ nodes (abs_graph a)) /\
    (literal_vertex_mapping a).*1 = prior.*1 /\
    (vertex_mapping a).*1 = nodes graph /\
    (prior = identity_mapping graph -> literal_vertex_mapping a = vertex_mapping a).
Proof.
  intros Hwf Hconn Hprior. pose proof (wf_nodup _ Hwf) as Hnd.
  destruct (abstract_vertex_pooling_image geometric_mean set_order graph
              set_order_ok Hwf Hconn) as (pooled & Hpooled & Hkeys & Himage).
  unfold GraphAbstraction_init. rewrite Hpooled. simpl.
  set (vm := (λ item : Z * nat, (item.1, Z.of_nat item.2)) <$> pooled).
  assert (vm.*1 = nodes graph) as Hvmk.
  { unfold vm. rewrite <- list_fmap_compose. rewrite <- Hkeys.
    by apply list_fmap_ext. }
  assert (vm.*2 = Z.of_nat <$> pooled.*2) as Hvmv.
  { unfold vm. rewrite <- !list_fmap_compose. by apply list_fmap_ext. }
  assert (forall x, x ∈ nodes graph ->
            exists a, dict_get vm x = Some a /\ a ∈ vm.*2) as Hget.
  { intros x Hx. destruct (dict_get_elem vm x) as [a Ha]; [by rewrite Hvmk|].
    exists a. split; [done|]. apply dict_get_Some in Ha.
    apply list_elem_of_fmap. by exists (x, a). }
  (* the literal mapping *)
  set (flit := λ item : Z * Z,
                 abstract_node ← dict_get vm item.2; Some (item.1, abstract_node)).
  destruct (mapM flit prior) as [literal|] eqn:Hlit.
  2:{ exfalso. apply eq_None_not_Some in Hlit. apply Hlit, mapM_is_Some.
      apply Forall_forall. intros [k v] Hin.
      destruct (Hget v (Hprior k v Hin)) as (a & Ha & _).
      unfold flit. simpl. rewrite Ha. by eexists. }
  simpl. pose proof (mapM_Some_1 _ _ _ Hlit) as Hlit2.
  (* the abstract edges *)
  set (fedge := λ e : Z * Z,
                  abstract_u ← dict_get vm e.1;
                  abstract_v ← dict_get vm e.2; Some (abstract_u, abstract_v)).
  assert (forall u v, (u, v) ∈ edges graph -> u ∈ nodes graph /\ v ∈ nodes graph)
    as Hedge_nodes.
  { intros u v Huv. apply (edges_adjacent _ _ _ Hnd) in Huv.
    split; [by eapply neighbors_in_nodes|by eapply wf_closed]. }
  destruct (mapM fedge (edges graph)) as [abstract_edges|] eqn:Hedges.
  2:{ exfalso. apply eq_None_not_Some in Hedges. apply Hedges, mapM_is_Some.
      apply Forall_forall. intros [u v] Hin.
      destruct (Hedge_nodes u v Hin) as [Hu Hv].
      destruct (Hget u Hu) as (a & Ha & _). destruct (Hget v Hv) as (b & Hb & _).
      unfold fedge. simpl. rewrite Ha, Hb. by eexists. }
  simpl. pose proof (mapM_Some_1 _ _ _ Hedges) as Hedges2.
  set (es := filter (λ e : Z * Z, e.1 ≠ e.2) abstract_edges).
  assert (forall e, e ∈ es -> e.1 ∈ vm.*2 /\ e.2 ∈ vm.*2) as Hes.
  { intros e [_ He]%list_elem_of_filter.
    apply list_elem_of_lookup in He as [pos Hpos].
    destruct (Forall2_lookup_r _ _ _ _ _ Hedges2 Hpos) as ([u v] & Huv & Hf).
    apply list_elem_of_lookup_2 in Huv.
    destruct (Hedge_nodes u v Huv) as [Hu Hv].
    destruct (Hget u Hu) as (a & Ha & Hain). destruct (Hget v Hv) as (b & Hb & Hbin).
    unfold fedge in Hf. simpl in Hf. rewrite Ha, Hb in Hf. simpl in Hf.
    injection Hf as <-. done. }
  destruct (wf_built vm.*2 es Hes) as (Hwfa & Hnodes & Hnb).
  set (ag := add_edges_from (add_nodes_from [] vm.*2) es) in *.
  (* an edge of the graph is an edge of the abstract graph or a loop *)
  assert (forall x y a b, y ∈ neighbors graph x ->
            dict_get vm x = Some a -> dict_get vm y = Some b ->
            a = b \/ b ∈ neighbors ag a) as Hstep.
  { intros x y a b Hy Ha Hb. destruct (decide (a = b)) as [?|Hab]; [by left|right].
    assert (x ≠ y) as Hxy by (intros ->; congruence).
    assert (forall u v c d, (u, v) ∈ edges graph -> dict_get vm u = Some c ->
              dict_get vm v = Some d -> c ≠ d -> (c, d) ∈ es) as Hin.
    { intros u v c d Huv Hc Hd Hcd. apply list_elem_of_filter. split; [done|].
      apply list_elem_of_lookup in Huv as [pos Hpos].
      destruct (Forall2_lookup_l _ _ _ _ _ Hedges2 Hpos) as (e & He & Hf).
      unfold fedge in Hf. simpl in Hf. rewrite Hc, Hd in Hf. simpl in Hf.
      injection Hf as <-. by eapply list_elem_of_lookup_2. }
    apply Hnb. destruct (edges_cover _ _ _ Hwf Hy Hxy) as [Huv|Huv].
    - left. by eapply Hin.
    - right. eapply Hin; [done|done|done|congruence]. }
  assert (forall x y, reachable graph x y -> x ∈ nodes graph ->
            forall a b, dict_get vm x = Some a -> dict_get vm y = Some b ->
                        reachable ag a b) as Hpath.
  { intros x y Hreach. induction Hreach as [x|x y z Hxy Hyz IH]; intros Hx a b Ha Hb.
    - replace b with a by congruence. apply rtc_refl.
    - assert (y ∈ nodes graph) as Hy by (by eapply wf_closed).
      destruct (Hget y Hy) as (c & Hc & _).
      destruct (Hstep x y a c Hxy Ha Hc) as [->|Hac]; [by apply IH|].
      eapply rtc_l; [exact Hac|]. by apply IH. }
  assert (length ag = target_size (length graph)) as Hlen.
  { assert (nodes ag ≡ₚ Z.of_nat <$> seq 0 (target_size (length graph))) as Hperm.
    { apply NoDup_Permutation.
      - apply Hwfa.
      - apply NoDup_fmap_2; [apply _|apply NoDup_seq].
      - intros x. rewrite Hnodes, Hvmv, !list_elem_of_fmap. split.
        + intros (a & -> & Ha). exists a. split; [done|].
          apply elem_of_seq. apply Himage in Ha. lia.
        + intros (a & -> & Ha). exists a. split; [done|].
          apply Himage. apply elem_of_seq in Ha. lia. }
    rewrite <- length_nodes, Hperm, length_fmap. apply length_seq. }
  eexists. split; [done|]. simpl. fold es. fold ag.
  split_and!.
  - done.
  - intros a b Ha Hb. apply Hnodes in Ha, Hb.
    apply list_elem_of_fmap in Ha as ([x a'] & -> & Hxa).
    apply list_elem_of_fmap in Hb as ([y b'] & -> & Hyb). simpl.
    assert (NoDup vm.*1) as Hvnd by (by rewrite Hvmk).
    assert (x ∈ nodes graph) as Hx.
    { rewrite <- Hvmk. apply list_elem_of_fmap. by exists (x, a'). }
    assert (y ∈ nodes graph) as Hy.
    { rewrite <- Hvmk. apply list_elem_of_fmap. by exists (y, b'). }
    apply (Hpath x y (Hconn x y Hx Hy) Hx);
      by apply dict_get_NoDup.
  - done.
  - done.
  - intros k v Hin. apply Hnodes. apply list_elem_of_lookup in Hin as [pos Hpos].
    destruct (Forall2_lookup_r _ _ _ _ _ Hlit2 Hpos) as ([k' v'] & Hkv & Hf).
    apply list_elem_of_lookup_2 in Hkv.
    destruct (Hget v' (Hprior k' v' Hkv)) as (a & Ha & Hain).
    unfold flit in Hf. simpl in Hf. rewrite Ha in Hf. simpl in Hf.
    by injection Hf as <- <-.
  - clear -Hlit2. induction Hlit2 as [|[k v] [k' a] prior literal Hf _ IH]; [done|].
    rewrite !fmap_cons, IH. simpl. f_equal. unfold flit in Hf. simpl in Hf.
    destruct (dict_get vm v); simpl in Hf; [|done]. by injection Hf as -> _.
  - done.
  - intros ->. unfold identity_mapping in Hlit. rewrite <- Hvmk in Hlit.
    assert (mapM flit ((λ node, (node, node)) <$> vm.*1) = Some vm) as Hself.
    { apply mapM_dict_get_self. intros [k v] Hin. simpl.
      apply dict_get_NoDup; [by rewrite Hvmk|done]. }
    congruence.
Qed.

End Contraction.

(** ** The hierarchy *)

Section Chain.

Variable geometric_mean : nat -> nat -> Q.
Variable set_order : list nat -> list nat.
Hypothesis set_order_ok : lists_set set_order.

Lemma hierarchy_loop_small fuel a :
  (n_nodes a <= ABSTRACTION_SIZE_THRESHOLD)%nat ->
  hierarchy_loop geometric_mean set_order fuel a = Return [].
Proof. intros H. destruct fuel; simpl; by rewrite decide_True. Qed.

Lemma hierarchy_loop_step fuel a next :
  (ABSTRACTION_SIZE_THRESHOLD < n_nodes a)%nat ->
  GraphAbstraction_init geometric_mean set_order (abs_graph a)
    (literal_vertex_mapping a) = Some next ->
  hierarchy_loop geometric_mean set_order (S fuel) a =
  match hierarchy_loop geometric_mean set_order fuel next with
  | Return rest => Return (next :: rest)
  | Raise => Raise
  | OutOfFuel => OutOfFuel
  end.
Proof. intros H Hnext. simpl. rewrite decide_False by lia. by rewrite Hnext. Qed.

(** From a connected abstraction the loop stops, within as many rounds as
    the abstraction has nodes. *)
Lemma hierarchy_loop_spec n a :
  (n_nodes a <= n)%nat -> n_nodes a = length (abs_graph a) ->
  wf_graph (abs_graph a) -> connected (abs_graph a) ->
  (forall k v, (k, v) ∈ literal_vertex_mapping a -> v ∈ nodes (abs_graph a)) ->
  exists rest,
    (forall fuel, (n <= fuel)%nat ->
       hierarchy_loop geometric_mean set_order fuel a = Return rest) /\
    pooled_chain geometric_mean set_order a rest.
Proof.
  revert a. induction n as [|n IH]; intros a Hn Hlen Hwf Hconn Hlit.
  - exists []. split; [|simpl; unfold ABSTRACTION_SIZE_THRESHOLD; lia].
    intros fuel _. apply hierarchy_loop_small. unfold ABSTRACTION_SIZE_THRESHOLD. lia.
  - destruct (decide (n_nodes a <= ABSTRACTION_SIZE_THRESHOLD)%nat) as [Hsmall|Hbig].
    { exists []. split; [|done]. intros fuel _. by apply hierarchy_loop_small. }
    destruct (GraphAbstraction_init_spec geometric_mean set_order set_order_ok
                (abs_graph a) (literal_vertex_mapping a) Hwf Hconn Hlit)
      as (next & Hnext & Hwf' & Hconn' & Hlen' & Hsize & Hlit' & _).
    assert (n_nodes next <= n)%nat as Hn'.
    { rewrite Hsize, <- Hlen.
      pose proof (target_size_lt (n_nodes a)
                    ltac:(unfold ABSTRACTION_SIZE_THRESHOLD in Hbig; lia)). lia. }
    destruct (IH next Hn' Hlen' Hwf' Hconn' Hlit') as (rest & Hrun & Hchain).
    exists (next :: rest). split.
    + intros [|fuel] Hfuel; [lia|].
      rewrite (hierarchy_loop_step fuel a next) by (done || lia).
      by rewrite Hrun by lia.
    + simpl. split_and!; [lia|done|done].
Qed.

(** C4, as the code has it.  On a connected graph the constructor
    returns a list of abstractions.  The first is the pooled contraction
    of the graph itself, built over the identity mapping: it has
    [ceil(|V| / 2)] nodes, and its literal mapping is its vertex mapping.
    Every further abstraction is the pooled contraction of the one before;
    all but the last have more than 5 nodes and the last has at most 5. *)
Theorem hierarchy_is_pooled_chain (graph : Graph) :
  wf_graph graph -> connected graph ->
  exists first rest,
    (forall fuel, (length graph <= fuel)%nat ->
       AbstractionHierarchy_init geometric_mean set_order fuel graph
       = Return (first :: rest)) /\
    GraphAbstraction_init geometric_mean set_order graph (identity_mapping graph)
      = Some first /\
    n_nodes first = target_size (length graph) /\
    length (abs_graph first) = target_size (length graph) /\
    literal_vertex_mapping first = vertex_mapping first /\
    (vertex_mapping first).*1 = nodes graph /\
    pooled_chain geometric_mean set_order first rest.
Proof.
  intros Hwf Hconn.
  destruct (GraphAbstraction_init_spec geometric_mean set_order set_order_ok
              graph (identity_mapping graph) Hwf Hconn)
    as (first & Hfirst & Hwf' & Hconn' & Hlen' & Hsize & Hlit' & _ & Hkeys & Hself).
  { intros k v Hin. unfold identity_mapping in Hin.
    apply list_elem_of_fmap in Hin as (x & [= -> ->] & Hx). done. }
  assert (n_nodes first <= length graph)%nat as Hn.
  { rewrite Hsize. unfold target_size.
    destruct (length graph) as [|m]; [done|].
    apply Nat.Div0.div_le_upper_bound. lia. }
  destruct (hierarchy_loop_spec (length graph) first Hn Hlen' Hwf' Hconn' Hlit')
    as (rest & Hrun & Hchain).
  exists first, rest. split_and!; try done.
  - intros fuel Hfuel. unfold AbstractionHierarchy_init.
    rewrite Hfirst. by rewrite Hrun.
  - congruence.
  - by apply Hself.
Qed.

End Chain.

Lemma hierarchy_is_pooled_chain_witness :
  exists first rest,
    AbstractionHierarchy_init degree_product increasing_order 12 cycle12
      = Return (first :: rest) /\
    n_nodes first = 6%nat /\
    pooled_chain degree_product increasing_order first rest.
Proof.
  destruct (hierarchy_is_pooled_chain degree_product increasing_order
              increasing_order_lists_set cycle12
              (wf_graphb_sound cycle12 ltac:(vm_compute; reflexivity))
              (connectedb_sound cycle12 ltac:(vm_compute; reflexivity)))
    as (first & rest & Hrun & _ & Hsize & _ & _ & _ & Hchain).
  exists first, rest. split_and!; [|exact Hsize|exact Hchain].
  apply Hrun. apply Nat.le_refl.
Defined.

(** On the path 0 - 1 - 2 - 3 the hierarchy is one abstraction, with two
    nodes: its graph is not the path, and its literal mapping sends the
    nodes 1, 2 and 3 to 0, 1 and 1. *)
Lemma hierarchy_does_not_start_with_identity :
  exists abstractions,
    AbstractionHierarchy_init degree_product increasing_order 4 path4
      = Return abstractions /\
    ~ starts_with_identity path4 abstractions.
Proof.
  eexists. split; [vm_compute; reflexivity|].
  intros (first & rest & Heq & Hgraph & _).
  injection Heq as <- _. vm_compute in Hgraph. discriminate.
Qed.
(* ===================================================================== *)
(** ** Looking nodes up in an abstraction                                  *)
(* ===================================================================== *)

(** A read of a [defaultdict(list)]: the list stored under the key, or
    the empty list (which the read also stores, and which no later read
    can tell from a missing key). *)
Fixpoint inverse_get (inverse : list (Z * list Z)) (abstract_node : Z) : list Z :=
  match inverse with
  | [] => []
  | (a, ns) :: inverse' =>
      if decide (a = abstract_node) then ns else inverse_get inverse' abstract_node
  end.

(** [GraphAbstraction.invert_node] *)
Definition invert_node (a : GraphAbstraction) (node : Z) : list Z :=
  inverse_get (inverse_literal_vertex_mapping a) node.

(** [GraphAbstraction.invert_nodes] *)
Definition invert_nodes (a : GraphAbstraction) (nodes : list Z) : list Z :=
  nodes ≫= inverse_get (inverse_vertex_mapping a).

(** [GraphAbstraction.abstract_node]; [None] is the [KeyError]. *)
Definition abstract_node (a : GraphAbstraction) (literal_node : Z) : option Z :=
  dict_get (literal_vertex_mapping a) literal_node.

(** [GraphAbstraction.abstract_nodes] *)
Definition abstract_nodes (a : GraphAbstraction) (literal_nodes : list Z)
  : option (list Z) :=
  mapM (abstract_node a) literal_nodes.

Lemma inverse_get_add inverse a n b :
  inverse_get (inverse_add inverse a n) b =
    if decide (a = b) then inverse_get inverse b ++ [n] else inverse_get inverse b.
Proof.
  induction inverse as [|[k ns] inverse IH]; simpl.
  - destruct (decide (a = b)); done.
  - destruct (decide (k = a)) as [->|Hka]; simpl.
    + destruct (decide (a = b)); done.
    + destruct (decide (k = b)) as [->|Hkb]; [|exact IH].
      by rewrite decide_False by congruence.
Qed.

Lemma inverse_of_snoc d k v :
  inverse_of (d ++ [(k, v)]) = inverse_add (inverse_of d) v k.
Proof. unfold inverse_of. by rewrite fold_left_app. Qed.

(** The list stored under an abstract node: the nodes mapped to it, in
    the order of the dictionary. *)
Lemma inverse_get_of d v :
  inverse_get (inverse_of d) v = (filter (λ item : Z * Z, item.2 = v) d).*1.
Proof.
  induction d as [|[k v'] d IH] using rev_ind; [done|].
  rewrite inverse_of_snoc, inverse_get_add, IH.
  rewrite (filter_app (λ item : Z * Z, item.2 = v)), fmap_app.
  rewrite (filter_cons (λ item : Z * Z, item.2 = v)), filter_nil. cbn [snd].
  destruct (decide (v' = v)); [done|]. by rewrite app_nil_r.
Qed.

Lemma inverse_get_elem d v x :
  NoDup d.*1 -> x ∈ inverse_get (inverse_of d) v <-> dict_get d x = Some v.
Proof.
  intros Hnd. rewrite inverse_get_of, list_elem_of_fmap. split.
  - intros ([k v'] & -> & [Hv Hin]%list_elem_of_filter). simpl in *. subst v'.
    by apply dict_get_NoDup.
  - intros Hget%dict_get_Some. exists (x, v). split; [done|].
    by apply list_elem_of_filter.
Qed.

Lemma NoDup_filter_keys (P : Z * Z -> Prop) `{!forall x, Decision (P x)} (d : Dict) :
  NoDup d.*1 -> NoDup (filter P d).*1.
Proof.
  induction d as [|[k v] d IH]; [done|]. rewrite fmap_cons.
  intros [Hk Hd]%NoDup_cons. rewrite (filter_cons P).
  destruct (decide (P (k, v))); [|by apply IH].
  rewrite fmap_cons. apply NoDup_cons. split; [|by apply IH].
  intros ([k' v'] & Heq & [_ Hin]%list_elem_of_filter)%list_elem_of_fmap.
  simpl in Heq. subst k'. apply Hk. apply list_elem_of_fmap. by exists (k, v').
Qed.

Lemma bind_pick (l : list Z) (v k : Z) (g : Z -> list Z) :
  NoDup l -> v ∈ l ->
  l ≫= (λ w, if decide (v = w) then k :: g w else g w) ≡ₚ k :: (l ≫= g).
Proof.
  induction l as [|w l IH]; [by intros _ ?%elem_of_nil|].
  intros [Hw Hl]%NoDup_cons Hv. rewrite !bind_cons.
  destruct (decide (v = w)) as [->|Hne].
  - simpl. f_equiv. f_equiv.
    clear IH Hl Hv. induction l as [|u l IH]; [done|].
    rewrite !bind_cons. rewrite decide_False.
    + f_equiv. apply IH. intros ?. apply Hw. by right.
    + intros ->. apply Hw. left.
  - apply elem_of_cons in Hv as [?|Hv]; [done|].
    rewrite (IH Hl Hv). by rewrite Permutation_middle.
Qed.

Lemma bind_nil_fun (l : list Z) : l ≫= (λ _ : Z, @nil Z) = [].
Proof. induction l as [|w l IH]; [done|]. by rewrite bind_cons, IH. Qed.

(** The lists stored under a duplicate-free list of abstract nodes that
    covers the values of the dictionary hold every key once. *)
Lemma inverse_partition (d : Dict) (l : list Z) :
  NoDup l -> (forall v, v ∈ d.*2 -> v ∈ l) ->
  l ≫= inverse_get (inverse_of d) ≡ₚ d.*1.
Proof.
  intros Hl. induction d as [|[k v] d IH]; intros Hcover.
  - rewrite (list_bind_ext _ (λ _ : Z, @nil Z) l l); [|by intros w; rewrite inverse_get_of|done].
    by rewrite bind_nil_fun.
  - rewrite fmap_cons. cbn [fst]. rewrite <- IH.
    + rewrite <- (bind_pick l v k) by (done || apply Hcover; left).
      rewrite (list_bind_ext (inverse_get (inverse_of ((k, v) :: d)))
                 (λ w, if decide (v = w) then k :: inverse_get (inverse_of d) w
                       else inverse_get (inverse_of d) w) l l); [done| |done].
      intros w. rewrite !inverse_get_of.
      rewrite (filter_cons (λ item : Z * Z, item.2 = w)). cbn [snd].
      destruct (decide (v = w)); done.
    + intros w Hw. apply Hcover. by right.
Qed.

Section Lookups.

Variable geometric_mean : nat -> nat -> Q.
Variable set_order : list nat -> list nat.
Hypothesis set_order_ok : lists_set set_order.

(** What the constructor stores besides the mappings. *)
Lemma GraphAbstraction_init_fields graph prior a :
  GraphAbstraction_init geometric_mean set_order graph prior = Some a ->
  inverse_vertex_mapping a = inverse_of (vertex_mapping a) /\
  inverse_literal_vertex_mapping a = inverse_of (literal_vertex_mapping a) /\
  (forall x, x ∈ nodes (abs_graph a) <-> x ∈ (vertex_mapping a).*2).
Proof.
  unfold GraphAbstraction_init.
  destruct (abstract_vertex_pooling geometric_mean set_order graph) as [pooled|];
    [|done]. simpl.
  set (vm := (λ item : Z * nat, (item.1, Z.of_nat item.2)) <$> pooled).
  destruct (mapM _ prior) as [literal|]; [|done]. simpl.
  destruct (mapM _ (edges graph)) as [abstract_edges|] eqn:Hedges; [|done]. simpl.
  intros [= <-]. simpl. split; [done|]. split; [done|].
  intros x. rewrite nodes_add_edges_from, nodes_add_nodes_from. split.
  - intros [[?%elem_of_nil|?]|(e & [_ He]%list_elem_of_filter & Hx)]; [done|done|].
    apply mapM_Some_1 in Hedges.
    apply list_elem_of_lookup in He as [i Hi].
    destruct (Forall2_lookup_r _ _ _ _ _ Hedges Hi) as (e0 & _ & He0).
    destruct (dict_get vm e0.1) as [au|] eqn:Hau; [|done]. simpl in He0.
    destruct (dict_get vm e0.2) as [av|] eqn:Hav; [|done]. simpl in He0.
    injection He0 as <-. simpl in Hx.
    apply dict_get_Some in Hau, Hav.
    destruct Hx as [-> | ->]; apply list_elem_of_fmap; eexists (_, _); split; done.
  - intros Hx. left. by right.
Qed.

(** X14. The two directions of an abstraction agree.  For the
    abstraction of a connected graph over a literal mapping without a
    repeated key: [invert_node(y)] lists exactly the literal nodes that
    [abstract_node] sends to [y], each once, and [invert_nodes([y])]
    exactly the nodes of the graph that the vertex mapping sends to [y];
    [abstract_node] is defined on the literal nodes and on nothing else;
    for a [y] that is no abstract node both inversions are empty. *)
Theorem abstraction_round_trip (graph : Graph) (prior : Dict) :
  wf_graph graph -> connected graph ->
  (forall k v, (k, v) ∈ prior -> v ∈ nodes graph) ->
  NoDup prior.*1 ->
  exists a,
    GraphAbstraction_init geometric_mean set_order graph prior = Some a /\
    (forall x y, x ∈ invert_node a y <-> abstract_node a x = Some y) /\
    (forall u y, u ∈ invert_nodes a [y] <-> dict_get (vertex_mapping a) u = Some y) /\
    (forall y, NoDup (invert_node a y) /\ NoDup (invert_nodes a [y])) /\
    (forall x, is_Some (abstract_node a x) <-> x ∈ prior.*1) /\
    (forall x y, abstract_node a x = Some y -> y ∈ nodes (abs_graph a)) /\
    (forall y, y ∉ nodes (abs_graph a) -> invert_node a y = [] /\ invert_nodes a [y] = []).
Proof.
  intros Hwf Hconn Hprior Hnd.
  destruct (GraphAbstraction_init_spec geometric_mean set_order set_order_ok
              graph prior Hwf Hconn Hprior)
    as (a & Ha & Hwf' & Hconn' & Hlen & Hsize & Hlit & Hkeys & Hvkeys & _).
  destruct (GraphAbstraction_init_fields graph prior a Ha) as (Hinv & Hinvlit & Hnodes).
  assert (NoDup (literal_vertex_mapping a).*1) as Hndl by (by rewrite Hkeys).
  assert (NoDup (vertex_mapping a).*1) as Hndv
    by (rewrite Hvkeys; apply (wf_nodup _ Hwf)).
  assert (forall y, invert_nodes a [y] = inverse_get (inverse_of (vertex_mapping a)) y)
    as Hone.
  { intros y. unfold invert_nodes. rewrite Hinv. simpl. by rewrite app_nil_r. }
  exists a. split; [done|]. unfold invert_node, abstract_node. rewrite Hinvlit.
  split_and!.
  - intros x y. by apply inverse_get_elem.
  - intros u y. rewrite Hone. by apply inverse_get_elem.
  - intros y. rewrite Hone, !inverse_get_of. split; by apply NoDup_filter_keys.
  - intros x. rewrite <- Hkeys. split.
    + intros [y Hy%dict_get_Some]. apply list_elem_of_fmap. by exists (x, y).
    + apply dict_get_elem.
  - intros x y Hy%dict_get_Some. by eapply Hlit.
  - intros y Hy. rewrite Hone, !inverse_get_of. split.
    + destruct (filter _ (literal_vertex_mapping a)) as [|[k v] l] eqn:Hf; [done|].
      exfalso. assert ((k, v) ∈ filter (λ item : Z * Z, item.2 = y)
                         (literal_vertex_mapping a)) as Hin by (rewrite Hf; left).
      apply list_elem_of_filter in Hin as [Hv Hin]. simpl in Hv. subst v.
      apply Hy. by eapply Hlit.
    + destruct (filter _ (vertex_mapping a)) as [|[k v] l] eqn:Hf; [done|].
      exfalso. assert ((k, v) ∈ filter (λ item : Z * Z, item.2 = y)
                         (vertex_mapping a)) as Hin by (rewrite Hf; left).
      apply list_elem_of_filter in Hin as [Hv Hin]. simpl in Hv. subst v.
      apply Hy, Hnodes. apply list_elem_of_fmap. by exists (k, y).
Qed.

(** X15. The pools partition the nodes.  In the abstraction of a
    connected graph, inverting all abstract nodes gives every node of the
    graph exactly once, and inverting them one by one with [invert_node]
    gives every literal node exactly once. *)
Theorem abstraction_pools_partition (graph : Graph) (prior : Dict) :
  wf_graph graph -> connected graph ->
  (forall k v, (k, v) ∈ prior -> v ∈ nodes graph) ->
  exists a,
    GraphAbstraction_init geometric_mean set_order graph prior = Some a /\
    invert_nodes a (nodes (abs_graph a)) ≡ₚ nodes graph /\
    nodes (abs_graph a) ≫= invert_node a ≡ₚ prior.*1.
Proof.
  intros Hwf Hconn Hprior.
  destruct (GraphAbstraction_init_spec geometric_mean set_order set_order_ok
              graph prior Hwf Hconn Hprior)
    as (a & Ha & Hwf' & Hconn' & Hlen & Hsize & Hlit & Hkeys & Hvkeys & _).
  destruct (GraphAbstraction_init_fields graph prior a Ha) as (Hinv & Hinvlit & Hnodes).
  exists a. split; [done|]. split.
  - unfold invert_nodes. rewrite Hinv, <- Hvkeys.
    apply inverse_partition; [apply (wf_nodup _ Hwf')|].
    intros v Hv. by apply Hnodes.
  - rewrite <- Hkeys.
    rewrite (list_bind_ext (invert_node a)
               (inverse_get (inverse_of (literal_vertex_mapping a))) _ _
               ltac:(intros y; unfold invert_node; by rewrite Hinvlit) eq_refl).
    apply inverse_partition; [apply (wf_nodup _ Hwf')|].
    intros v (item & -> & Hitem)%list_elem_of_fmap.
    destruct item as [k v]. by eapply Hlit.
Qed.

End Lookups.

Lemma cycle12_wf : wf_graph cycle12.
Proof. apply wf_graphb_sound. vm_compute. reflexivity. Qed.

Lemma cycle12_connected : connected cycle12.
Proof. apply connectedb_sound. vm_compute. reflexivity. Qed.

Lemma abstraction_round_trip_witness :
  exists a,
    GraphAbstraction_init degree_product increasing_order cycle12
      (identity_mapping cycle12) = Some a /\
    (forall x y, x ∈ invert_node a y <-> abstract_node a x = Some y) /\
    (forall u y, u ∈ invert_nodes a [y] <-> dict_get (vertex_mapping a) u = Some y) /\
    (forall y, NoDup (invert_node a y) /\ NoDup (invert_nodes a [y])) /\
    (forall x, is_Some (abstract_node a x) <-> x ∈ (identity_mapping cycle12).*1) /\
    (forall x y, abstract_node a x = Some y -> y ∈ nodes (abs_graph a)) /\
    (forall y, y ∉ nodes (abs_graph a) -> invert_node a y = [] /\ invert_nodes a [y] = []).
Proof.
  apply (abstraction_round_trip degree_product increasing_order
           increasing_order_lists_set cycle12 (identity_mapping cycle12)
           cycle12_wf cycle12_connected).
  - intros k v (x & [= -> ->] & Hx)%list_elem_of_fmap. done.
  - apply (bool_decide_unpack (NoDup (identity_mapping cycle12).*1)).
    vm_compute. reflexivity.
Defined.

Lemma abstraction_pools_partition_witness :
  exists a,
    GraphAbstraction_init degree_product increasing_order cycle12
      (identity_mapping cycle12) = Some a /\
    invert_nodes a (nodes (abs_graph a)) ≡ₚ nodes cycle12 /\
    nodes (abs_graph a) ≫= invert_node a ≡ₚ (identity_mapping cycle12).*1.
Proof.
  apply (abstraction_pools_partition degree_product increasing_order
           increasing_order_lists_set cycle12 (identity_mapping cycle12)
           cycle12_wf cycle12_connected).
  intros k v (x & [= -> ->] & Hx)%list_elem_of_fmap. done.
Defined.

(* ===================================================================== *)
(** ** Looking abstractions up in the hierarchy                            *)
(* ===================================================================== *)

(** [__lt__], [__le__], [__gt__], [__ge__]: abstractions compare by their
    number of nodes. *)
Definition abstraction_lt (a other : GraphAbstraction) : bool :=
  bool_decide (n_nodes a < n_nodes other)%nat.
Definition abstraction_le (a other : GraphAbstraction) : bool :=
  bool_decide (n_nodes a <= n_nodes other)%nat.
Definition abstraction_gt (a other : GraphAbstraction) : bool :=
  bool_decide (n_nodes other < n_nodes a)%nat.
Definition abstraction_ge (a other : GraphAbstraction) : bool :=
  bool_decide (n_nodes other <= n_nodes a)%nat.

(** [next((abstraction for abstraction in abstractions if match(abstraction)),
    None)]: the first abstraction that fits.  The outer [None] is an
    exception raised by [match] before a fitting abstraction was found. *)
Fixpoint first_fitting (matches : GraphAbstraction -> option bool)
    (abstractions : list GraphAbstraction) : option (option GraphAbstraction) :=
  match abstractions with
  | [] => Some None
  | abstraction :: rest =>
      match matches abstraction with
      | None => None
      | Some true => Some (Some abstraction)
      | Some false => first_fitting matches rest
      end
  end.

(** [__fitting_abstraction], over the list [self.abstractions]. *)
Definition fitting_abstraction (abstractions : list GraphAbstraction)
    (matches : GraphAbstraction -> option bool) (highest : bool)
  : option (option GraphAbstraction) :=
  first_fitting matches (if highest then reverse abstractions else abstractions).

Definition highest_fitting_abstraction (abstractions : list GraphAbstraction)
    (matches : GraphAbstraction -> option bool) :=
  fitting_abstraction abstractions matches true.

Definition lowest_fitting_abstraction (abstractions : list GraphAbstraction)
    (matches : GraphAbstraction -> option bool) :=
  fitting_abstraction abstractions matches false.

(** [highest_abstraction] and [lowest_abstraction]: [self.abstractions[-1]]
    and [self.abstractions[0]]. *)
Definition highest_abstraction (abstractions : list GraphAbstraction)
  : option GraphAbstraction := last abstractions.
Definition lowest_abstraction (abstractions : list GraphAbstraction)
  : option GraphAbstraction := head abstractions.

(** [abstract_robber_position not in abstract_cop_positions], where the
    cop positions are mapped one at a time as the membership test asks for
    them: a cop after the first hit is not looked up. *)
Fixpoint abstract_member (a : GraphAbstraction) (abstract_robber_position : Z)
    (cop_positions : list Z) : option bool :=
  match cop_positions with
  | [] => Some false
  | cop_position :: rest =>
      match dict_get (literal_vertex_mapping a) cop_position with
      | None => None
      | Some abstract_cop_position =>
          if decide (abstract_cop_position = abstract_robber_position)
          then Some true
          else abstract_member a abstract_robber_position rest
      end
  end.

Definition is_undecided (cop_positions : list Z) (robber_position : Z)
    (a : GraphAbstraction) : option bool :=
  abstract_robber_position ← dict_get (literal_vertex_mapping a) robber_position;
  negb <$> abstract_member a abstract_robber_position cop_positions.

(** [highest_undecided_abstraction] *)
Definition highest_undecided_abstraction (abstractions : list GraphAbstraction)
    (cop_positions : list Z) (robber_position : Z) :=
  highest_fitting_abstraction abstractions (is_undecided cop_positions robber_position).

(** [highest_abstraction_lower_than]: [lambda x: x.n_nodes > abstraction.n_nodes] *)
Definition highest_abstraction_lower_than (abstractions : list GraphAbstraction)
    (abstraction : GraphAbstraction) :=
  highest_fitting_abstraction abstractions
    (λ x, Some (bool_decide (n_nodes abstraction < n_nodes x)%nat)).

(** [lowest_abstraction_higher_than]: the test is [abstraction.__gt__]. *)
Definition lowest_abstraction_higher_than (abstractions : list GraphAbstraction)
    (abstraction : GraphAbstraction) :=
  highest_fitting_abstraction abstractions (λ x, Some (abstraction_gt abstraction x)).

(** [decreasing_abstractions_from]: [filter(abstraction.__le__, reversed(...))] *)
Definition decreasing_abstractions_from (abstractions : list GraphAbstraction)
    (abstraction : GraphAbstraction) : list GraphAbstraction :=
  filter (λ x, abstraction_le abstraction x = true) (reverse abstractions).

(** *** The levels of a hierarchy *)

(** What every level of the hierarchy of [graph] satisfies. *)
Record level_ok (graph : Graph) (a : GraphAbstraction) : Prop := {
  level_wf : wf_graph (abs_graph a);
  level_connected : connected (abs_graph a);
  level_size : n_nodes a = length (abs_graph a);
  level_keys : (literal_vertex_mapping a).*1 = nodes graph;
  level_values : forall k v, (k, v) ∈ literal_vertex_mapping a -> v ∈ nodes (abs_graph a)
}.

(** From each level to the next the number of nodes drops, and the
    literal mapping of the next level is the one of the level followed by
    the vertex mapping of the next. *)
Fixpoint level_steps (levels : list GraphAbstraction) : Prop :=
  match levels with
  | a :: rest =>
      match rest with
      | b :: _ =>
          (n_nodes b < n_nodes a)%nat /\
          (forall x, abstract_node b x =
                     abstract_node a x ≫= dict_get (vertex_mapping b)) /\
          level_steps rest
      | [] => True
      end
  | [] => True
  end.

Lemma literal_composition (vm prior literal : Dict) x :
  mapM (λ item : Z * Z,
          abstract_node ← dict_get vm item.2; Some (item.1, abstract_node)) prior
    = Some literal ->
  dict_get literal x = dict_get prior x ≫= dict_get vm.
Proof.
  revert literal. induction prior as [|[k v] prior IH]; intros literal.
  - intros [= <-]. done.
  - rewrite mapM_cons_unfold. cbn [fst snd].
    destruct (dict_get vm v) as [av|] eqn:Hav; [|done]. simpl.
    destruct (mapM _ prior) as [literal'|] eqn:Hrest; [|done]. simpl.
    intros [= <-]. simpl. destruct (decide (k = x)); [done|]. by apply IH.
Qed.

Section Levels.

Variable geometric_mean : nat -> nat -> Q.
Variable set_order : list nat -> list nat.
Hypothesis set_order_ok : lists_set set_order.

Lemma GraphAbstraction_init_literal graph prior a x :
  GraphAbstraction_init geometric_mean set_order graph prior = Some a ->
  abstract_node a x = dict_get prior x ≫= dict_get (vertex_mapping a).
Proof.
  unfold GraphAbstraction_init, abstract_node.
  destruct (abstract_vertex_pooling geometric_mean set_order graph) as [pooled|];
    [|done]. simpl.
  destruct (mapM _ prior) as [literal|] eqn:Hlit; [|done]. simpl.
  destruct (mapM _ (edges graph)) as [abstract_edges|]; [|done]. simpl.
  intros [= <-]. simpl. by apply literal_composition.
Qed.

Lemma pooled_chain_levels graph a rest :
  level_ok graph a ->
  pooled_chain geometric_mean set_order a rest ->
  Forall (level_ok graph) (a :: rest) /\ level_steps (a :: rest) /\
  exists top, last (a :: rest) = Some top /\
              (n_nodes top <= ABSTRACTION_SIZE_THRESHOLD)%nat.
Proof.
  revert a. induction rest as [|b rest IH]; intros a Hok Hchain.
  - simpl in Hchain. split; [by constructor|]. split; [done|]. by exists a.
  - destruct Hchain as (Hbig & Hinit & Hchain).
    destruct Hok as [Hwf Hconn Hsize Hkeys Hvalues].
    destruct (GraphAbstraction_init_spec geometric_mean set_order set_order_ok
                (abs_graph a) (literal_vertex_mapping a) Hwf Hconn Hvalues)
      as (b' & Hb' & Hwf' & Hconn' & Hlen' & Hsize' & Hlit' & Hkeys' & _).
    rewrite Hinit in Hb'. injection Hb' as <-.
    assert (level_ok graph b) as Hokb.
    { split; try done. by rewrite Hkeys'. }
    destruct (IH b Hokb Hchain) as (Hall & Hsteps & top & Htop & Hsmall).
    split; [constructor; [by split|done]|]. split.
    + cbn [level_steps]. split_and!; [| |done].
      * rewrite Hsize', <- Hsize. apply target_size_lt.
        unfold ABSTRACTION_SIZE_THRESHOLD in Hbig. lia.
      * intros x. by apply GraphAbstraction_init_literal with (graph := abs_graph a).
    + exists top. by rewrite last_cons_cons.
Qed.

(** The hierarchy of a connected graph, with what its levels satisfy. *)
Lemma hierarchy_shape (graph : Graph) :
  wf_graph graph -> connected graph ->
  exists levels,
    (forall fuel, (length graph <= fuel)%nat ->
       AbstractionHierarchy_init geometric_mean set_order fuel graph = Return levels) /\
    Forall (level_ok graph) levels /\ level_steps levels /\
    (exists first, head levels = Some first /\
                   n_nodes first = target_size (length graph)) /\
    (exists top, last levels = Some top /\
                 (n_nodes top <= ABSTRACTION_SIZE_THRESHOLD)%nat).
Proof.
  intros Hwf Hconn.
  destruct (GraphAbstraction_init_spec geometric_mean set_order set_order_ok
              graph (identity_mapping graph) Hwf Hconn)
    as (first & Hfirst & Hwf' & Hconn' & Hlen' & Hsize & Hlit' & Hkeys & _).
  { intros k v Hin. unfold identity_mapping in Hin.
    apply list_elem_of_fmap in Hin as (x & [= -> ->] & Hx). done. }
  assert (n_nodes first <= length graph)%nat as Hn.
  { rewrite Hsize. unfold target_size.
    destruct (length graph) as [|m]; [done|].
    apply Nat.Div0.div_le_upper_bound. lia. }
  destruct (hierarchy_loop_spec geometric_mean set_order set_order_ok
              (length graph) first Hn Hlen' Hwf' Hconn' Hlit')
    as (rest & Hrun & Hchain).
  assert (level_ok graph first) as Hok.
  { split; try done. rewrite Hkeys. unfold identity_mapping.
    rewrite <- list_fmap_compose. apply list_fmap_id. }
  destruct (pooled_chain_levels graph first rest Hok Hchain) as (Hall & Hsteps & Htop).
  exists (first :: rest). split_and!; try done.
  - intros fuel Hfuel. unfold AbstractionHierarchy_init.
    rewrite Hfirst. by rewrite Hrun.
  - by exists first.
Qed.

End Levels.

(** *** Levels are ordered by size *)

Lemma level_steps_tail a rest : level_steps (a :: rest) -> level_steps rest.
Proof. destruct rest as [|b rest]; [done|]. by intros (_ & _ & ?). Qed.

Lemma level_steps_lt levels i j a b :
  level_steps levels -> levels !! i = Some a -> levels !! j = Some b ->
  (i < j)%nat -> (n_nodes b < n_nodes a)%nat.
Proof.
  revert i j a. induction levels as [|c levels IH]; intros i j a Hsteps Hi Hj Hij.
  { done. }
  destruct j as [|j]; [lia|]. simpl in Hj.
  destruct i as [|i].
  - simpl in Hi. injection Hi as ->.
    destruct levels as [|d levels]; [done|].
    destruct Hsteps as (Hlt & _ & Hsteps).
    destruct j as [|j]; [simpl in Hj; by injection Hj as ->|].
    assert (n_nodes b < n_nodes d)%nat; [|lia].
    eapply (IH 0%nat (S j) d); [done|done|done|lia].
  - simpl in Hi. eapply (IH i j a); [by eapply level_steps_tail|done|done|lia].
Qed.

Lemma first_fitting_skip matches l1 l2 :
  Forall (λ x, matches x = Some false) l1 ->
  first_fitting matches (l1 ++ l2) = first_fitting matches l2.
Proof.
  induction 1 as [|x l1 Hx _ IH]; [done|]. simpl. by rewrite Hx.
Qed.

Lemma first_fitting_none matches l :
  Forall (λ x, matches x = Some false) l -> first_fitting matches l = Some None.
Proof.
  intros H. rewrite <- (app_nil_r l). by rewrite first_fitting_skip.
Qed.

Lemma reverse_split_at (levels : list GraphAbstraction) i a :
  levels !! i = Some a ->
  reverse levels = reverse (drop (S i) levels) ++ a :: reverse (take i levels).
Proof.
  intros Hi. rewrite <- (take_drop_middle levels i a Hi) at 1.
  by rewrite reverse_app, reverse_cons, <- app_assoc.
Qed.

Lemma levels_above levels i a :
  level_steps levels -> levels !! i = Some a ->
  Forall (λ b, n_nodes b < n_nodes a)%nat (reverse (drop (S i) levels)).
Proof.
  intros Hsteps Hi. apply Forall_forall. intros b Hb.
  rewrite elem_of_reverse in Hb. apply list_elem_of_lookup in Hb as [k Hk].
  rewrite lookup_drop in Hk. eapply (level_steps_lt levels i); [done|done|done|lia].
Qed.

Lemma levels_below levels i a :
  level_steps levels -> levels !! i = Some a ->
  Forall (λ c, n_nodes a < n_nodes c)%nat (reverse (take i levels)).
Proof.
  intros Hsteps Hi. apply Forall_forall. intros c Hc.
  rewrite elem_of_reverse in Hc. apply list_elem_of_lookup in Hc as [k Hk].
  apply lookup_take_Some in Hk as [Hk Hlt].
  by eapply (level_steps_lt levels k i).
Qed.

Section HierarchyLookups.

Variable geometric_mean : nat -> nat -> Q.
Variable set_order : list nat -> list nat.
Hypothesis set_order_ok : lists_set set_order.

(** X16. Every level of the hierarchy of a connected graph can be
    searched and pooled again: its graph is well formed and connected,
    [abstract_node] is defined exactly on the nodes of the input graph and
    lands in the level's graph, every level has fewer nodes than the one
    below it, and its literal mapping is that of the level below followed
    by its own vertex mapping. *)
Theorem hierarchy_levels (graph : Graph) :
  wf_graph graph -> connected graph ->
  exists levels,
    (forall fuel, (length graph <= fuel)%nat ->
       AbstractionHierarchy_init geometric_mean set_order fuel graph = Return levels) /\
    (forall a, a ∈ levels ->
       wf_graph (abs_graph a) /\ connected (abs_graph a) /\
       n_nodes a = length (abs_graph a) /\
       (forall x, is_Some (abstract_node a x) <-> x ∈ nodes graph) /\
       (forall x y, abstract_node a x = Some y -> y ∈ nodes (abs_graph a))) /\
    (forall i a b, levels !! i = Some a -> levels !! S i = Some b ->
       (n_nodes b < n_nodes a)%nat /\
       forall x, abstract_node b x = abstract_node a x ≫= dict_get (vertex_mapping b)).
Proof.
  intros Hwf Hconn.
  destruct (hierarchy_shape geometric_mean set_order set_order_ok graph Hwf Hconn)
    as (levels & Hrun & Hall & Hsteps & _ & _).
  exists levels. split; [done|]. split.
  - intros a Ha. rewrite Forall_forall in Hall.
    destruct (Hall a Ha) as [Hw Hc Hs Hk Hv]. split_and!; try done.
    + intros x. rewrite <- Hk. unfold abstract_node. split.
      * intros [y Hy%dict_get_Some]. apply list_elem_of_fmap. by exists (x, y).
      * apply dict_get_elem.
    + intros x y Hy%dict_get_Some. by eapply Hv.
  - clear Hrun Hall. revert Hsteps. generalize levels as l.
    induction l as [|c l IH]; intros Hsteps i a b Hi Hj; [done|].
    destruct i as [|i].
    + simpl in Hi, Hj. injection Hi as ->.
      destruct l as [|d l]; [done|]. simpl in Hj. injection Hj as ->.
      destruct Hsteps as (Hlt & Hcomp & _). done.
    + simpl in Hi, Hj. eapply IH; [by eapply level_steps_tail|done|done].
Qed.

(** X17. Walking the hierarchy by size.  For the level [a] at index
    [i] of the hierarchy of a connected graph:
    [highest_abstraction_lower_than(a)] is the level just below ([None]
    for the lowest level); [decreasing_abstractions_from(a)] lists [a] and
    the levels below it, from [a] down to the lowest;
    [lowest_abstraction_higher_than(a)] is the top level of the hierarchy
    whenever [a] is not the top itself, and [None] for the top. *)
Theorem hierarchy_lookups (graph : Graph) :
  wf_graph graph -> connected graph ->
  exists levels,
    (forall fuel, (length graph <= fuel)%nat ->
       AbstractionHierarchy_init geometric_mean set_order fuel graph = Return levels) /\
    forall i a, levels !! i = Some a ->
      highest_abstraction_lower_than levels a =
        Some (match i with O => None | S j => levels !! j end) /\
      decreasing_abstractions_from levels a = reverse (take (S i) levels) /\
      lowest_abstraction_higher_than levels a =
        Some (if decide (S i = length levels) then None else highest_abstraction levels).
Proof.
  intros Hwf Hconn.
  destruct (hierarchy_shape geometric_mean set_order set_order_ok graph Hwf Hconn)
    as (levels & Hrun & _ & Hsteps & _ & _).
  exists levels. split; [done|]. intros i a Hi.
  pose proof (levels_above levels i a Hsteps Hi) as Habove.
  pose proof (levels_below levels i a Hsteps Hi) as Hbelow.
  split_and!.
  - unfold highest_abstraction_lower_than, highest_fitting_abstraction,
      fitting_abstraction.
    rewrite (reverse_split_at levels i a Hi), first_fitting_skip.
    2:{ eapply Forall_impl; [exact Habove|]. intros b Hb. simpl in *.
        by rewrite bool_decide_eq_false_2 by lia. }
    cbn [first_fitting]. rewrite bool_decide_eq_false_2 by lia.
    destruct i as [|j].
    + by rewrite take_0.
    + assert (is_Some (levels !! j)) as [c Hc].
      { apply lookup_lt_is_Some. apply lookup_lt_Some in Hi. lia. }
      rewrite (take_S_r levels j c Hc), reverse_app. simpl.
      rewrite bool_decide_eq_true_2; [by rewrite Hc|].
      eapply (level_steps_lt levels j (S j)); [done|done|done|lia].
  - unfold decreasing_abstractions_from.
    rewrite (reverse_split_at levels i a Hi).
    rewrite (take_S_r levels i a Hi), reverse_app. simpl.
    rewrite filter_app, filter_cons.
    rewrite decide_True by (unfold abstraction_le; by rewrite bool_decide_eq_true_2).
    assert (filter (λ x, abstraction_le a x = true) (reverse (drop (S i) levels)) = [])
      as ->.
    { clear -Habove. induction Habove as [|b l Hb _ IH]; [done|].
      rewrite filter_cons, decide_False; [exact IH|].
      unfold abstraction_le. rewrite bool_decide_eq_false_2 by lia. done. }
    simpl. f_equal.
    clear -Hbelow. induction Hbelow as [|c l Hc _ IH]; [done|].
    rewrite filter_cons, decide_True; [by rewrite IH|].
    unfold abstraction_le. rewrite bool_decide_eq_true_2 by lia. done.
  - unfold lowest_abstraction_higher_than, highest_fitting_abstraction,
      fitting_abstraction, highest_abstraction.
    destruct (decide (S i = length levels)) as [Hlast|Hnot].
    + rewrite (reverse_split_at levels i a Hi).
      rewrite drop_ge by lia. simpl.
      unfold abstraction_gt at 1. rewrite bool_decide_eq_false_2 by lia.
      apply first_fitting_none.
      eapply Forall_impl; [exact Hbelow|]. intros c Hc. simpl in *.
      unfold abstraction_gt. by rewrite bool_decide_eq_false_2 by lia.
    + assert (is_Some (last levels)) as [top Htop].
      { rewrite last_lookup. apply lookup_lt_is_Some.
        apply lookup_lt_Some in Hi. lia. }
      rewrite Htop. pose proof Htop as Htop'. rewrite last_lookup in Htop'.
      rewrite <- (reverse_involutive levels) in Htop.
      destruct (reverse levels) as [|top' rest] eqn:Hrev.
      { by rewrite reverse_nil in Htop. }
      rewrite reverse_cons, last_snoc in Htop. injection Htop as ->.
      simpl. unfold abstraction_gt. rewrite bool_decide_eq_true_2; [done|].
      eapply (level_steps_lt levels i (pred (length levels))); [done|done|done|].
      apply lookup_lt_Some in Hi. lia.
Qed.

End HierarchyLookups.

Lemma hierarchy_levels_witness :
  exists levels,
    (forall fuel, (length cycle12 <= fuel)%nat ->
       AbstractionHierarchy_init degree_product increasing_order fuel cycle12
         = Return levels) /\
    (forall a, a ∈ levels ->
       wf_graph (abs_graph a) /\ connected (abs_graph a) /\
       n_nodes a = length (abs_graph a) /\
       (forall x, is_Some (abstract_node a x) <-> x ∈ nodes cycle12) /\
       (forall x y, abstract_node a x = Some y -> y ∈ nodes (abs_graph a))) /\
    (forall i a b, levels !! i = Some a -> levels !! S i = Some b ->
       (n_nodes b < n_nodes a)%nat /\
       forall x, abstract_node b x = abstract_node a x ≫= dict_get (vertex_mapping b)).
Proof.
  apply (hierarchy_levels degree_product increasing_order increasing_order_lists_set
           cycle12 cycle12_wf cycle12_connected).
Defined.

Lemma hierarchy_lookups_witness :
  exists levels,
    (forall fuel, (length cycle12 <= fuel)%nat ->
       AbstractionHierarchy_init degree_product increasing_order fuel cycle12
         = Return levels) /\
    forall i a, levels !! i = Some a ->
      highest_abstraction_lower_than levels a =
        Some (match i with O => None | S j => levels !! j end) /\
      decreasing_abstractions_from levels a = reverse (take (S i) levels) /\
      lowest_abstraction_higher_than levels a =
        Some (if decide (S i = length levels) then None else highest_abstraction levels).
Proof.
  apply (hierarchy_lookups degree_product increasing_order increasing_order_lists_set
           cycle12 cycle12_wf cycle12_connected).
Defined.

(** *** The highest level at which the robber is not yet caught *)

(** A cop stands on the abstract node of the robber. *)
Definition caught_at (cop_positions : list Z) (robber_position : Z)
    (a : GraphAbstraction) : Prop :=
  exists c, c ∈ cop_positions /\ abstract_node a c = abstract_node a robber_position.

Lemma abstract_member_spec a r cops :
  (forall c, c ∈ cops -> is_Some (abstract_node a c)) ->
  exists b, abstract_member a r cops = Some b /\
            (b = true <-> exists c, c ∈ cops /\ abstract_node a c = Some r).
Proof.
  unfold abstract_node. induction cops as [|c cops IH]; intros Hall.
  - exists false. split; [done|]. split; [done|]. by intros (c & ?%elem_of_nil & _).
  - cbn [abstract_member].
    destruct (Hall c ltac:(left)) as [ac Hac]. rewrite Hac.
    destruct (decide (ac = r)) as [->|Hne].
    + exists true. split; [done|]. split; [|done]. intros _. exists c. split; [left|done].
    + destruct (IH ltac:(intros c' Hc'; apply Hall; by right)) as (b & Hb & Hiff).
      exists b. split; [done|]. rewrite Hiff. split.
      * intros (c' & Hc' & Hr). exists c'. split; [by right|done].
      * intros (c' & [->|Hc']%elem_of_cons & Hr); [congruence|]. by exists c'.
Qed.

Lemma is_undecided_spec cops robber a :
  (forall c, c ∈ cops -> is_Some (abstract_node a c)) ->
  is_Some (abstract_node a robber) ->
  exists b, is_undecided cops robber a = Some b /\
            (b = false <-> caught_at cops robber a).
Proof.
  intros Hcops [r Hr]. unfold is_undecided.
  unfold abstract_node in Hr. rewrite Hr. simpl.
  destruct (abstract_member_spec a r cops Hcops) as (b & Hb & Hiff).
  rewrite Hb. simpl. exists (negb b). split; [done|].
  unfold caught_at. unfold abstract_node at 2. rewrite Hr. rewrite <- Hiff.
  destruct b; simpl; split; done.
Qed.

Lemma first_fitting_reverse matches (levels : list GraphAbstraction) :
  (forall b, b ∈ levels -> is_Some (matches b)) ->
  exists result,
    first_fitting matches (reverse levels) = Some result /\
    match result with
    | Some a =>
        exists i, levels !! i = Some a /\ matches a = Some true /\
                  forall j b, (i < j)%nat -> levels !! j = Some b ->
                              matches b = Some false
    | None => forall b, b ∈ levels -> matches b = Some false
    end.
Proof.
  induction levels as [|x levels IH] using rev_ind; intros Hall.
  - exists None. split; [done|]. by intros b ?%elem_of_nil.
  - rewrite reverse_snoc. cbn [first_fitting].
    destruct (Hall x ltac:(apply elem_of_app; right; left)) as [[|] Hx]; rewrite Hx.
    + exists (Some x). split; [done|]. exists (length levels).
      rewrite lookup_app_r, Nat.sub_diag by lia. split_and!; [done|done|].
      intros j b Hj Hb. apply lookup_lt_Some in Hb.
      rewrite length_app in Hb. simpl in Hb. lia.
    + destruct (IH ltac:(intros b Hb; apply Hall, elem_of_app; by left))
        as (result & Hres & Hspec).
      exists result. split; [done|]. destruct result as [a|].
      * destruct Hspec as (i & Hi & Ha & Hafter). exists i.
        split_and!; [by apply lookup_app_l_Some|done|].
        intros j b Hj Hb.
        destruct (decide (j < length levels)%nat) as [Hlt|Hge].
        -- rewrite lookup_app_l in Hb by done. by eapply Hafter.
        -- rewrite lookup_app_r in Hb by lia.
           destruct (j - length levels)%nat; [|done]. by injection Hb as <-.
      * intros b [Hb|Hb%list_elem_of_singleton]%elem_of_app;
          [by apply Hspec|by subst b].
Qed.

Section Undecided.

Variable geometric_mean : nat -> nat -> Q.
Variable set_order : list nat -> list nat.
Hypothesis set_order_ok : lists_set set_order.

(** X18. [highest_undecided_abstraction] on the hierarchy of a connected
    graph, for cops and a robber on nodes of the graph: it does not raise;
    a robber that stands on a cop is caught at every level and the answer
    is [None]; otherwise the answer is the one level that splits the
    hierarchy, with the robber caught (on the abstract node of some cop)
    at every level above it and at no level from it downwards. *)
Theorem highest_undecided_abstraction_spec (graph : Graph)
    (cop_positions : list Z) (robber_position : Z) :
  wf_graph graph -> connected graph ->
  (forall c, c ∈ cop_positions -> c ∈ nodes graph) ->
  robber_position ∈ nodes graph ->
  exists levels result,
    (forall fuel, (length graph <= fuel)%nat ->
       AbstractionHierarchy_init geometric_mean set_order fuel graph = Return levels) /\
    highest_undecided_abstraction levels cop_positions robber_position = Some result /\
    (robber_position ∈ cop_positions -> result = None) /\
    match result with
    | Some a =>
        exists i, levels !! i = Some a /\
          forall j b, levels !! j = Some b ->
            ((j <= i)%nat -> ~ caught_at cop_positions robber_position b) /\
            ((i < j)%nat -> caught_at cop_positions robber_position b)
    | None => forall b, b ∈ levels -> caught_at cop_positions robber_position b
    end.
Proof.
  intros Hwf Hconn Hcops Hrobber.
  destruct (hierarchy_shape geometric_mean set_order set_order_ok graph Hwf Hconn)
    as (levels & Hrun & Hall & Hsteps & _ & _).
  rewrite Forall_forall in Hall.
  assert (forall b x, b ∈ levels -> x ∈ nodes graph -> is_Some (abstract_node b x))
    as Htotal.
  { intros b x Hb Hx. unfold abstract_node. apply dict_get_elem.
    by rewrite (level_keys _ _ (Hall b Hb)). }
  assert (forall b, b ∈ levels ->
            exists u, is_undecided cop_positions robber_position b = Some u /\
                      (u = false <-> caught_at cop_positions robber_position b))
    as Hund.
  { intros b Hb. apply is_undecided_spec.
    - intros c Hc. apply Htotal; [done|by apply Hcops].
    - by apply Htotal. }
  assert (forall l, level_steps l -> forall i j a b,
            l !! i = Some a -> l !! j = Some b -> (i <= j)%nat ->
            caught_at cop_positions robber_position a ->
            caught_at cop_positions robber_position b) as Hup.
  { clear. intros l Hsteps i j. revert l Hsteps i.
    induction j as [|j IH]; intros l Hsteps i a b Hi Hj Hij Ha.
    - assert (i = 0)%nat as -> by lia. congruence.
    - destruct (decide (i = S j)) as [->|Hne]; [congruence|].
      assert (is_Some (l !! j)) as [c Hc].
      { apply lookup_lt_is_Some. apply lookup_lt_Some in Hj. lia. }
      assert (caught_at cop_positions robber_position c) as (cop & Hcop & Heq)
        by (eapply (IH l Hsteps i a c); [done|done|lia|done]).
      exists cop. split; [done|].
      assert (forall x, abstract_node b x =
                abstract_node c x ≫= dict_get (vertex_mapping b)) as Hcomp.
      { clear -Hsteps Hc Hj. revert l Hsteps Hc Hj.
        induction j as [|j IHj]; intros l Hsteps Hc Hj.
        - destruct l as [|c' [|b' l]]; try done. simpl in Hc, Hj.
          injection Hc as ->. injection Hj as ->. by destruct Hsteps as (_ & ? & _).
        - destruct l as [|d l]; [done|]. simpl in Hc, Hj.
          eapply IHj; [by eapply level_steps_tail|done|done]. }
      by rewrite !Hcomp, Heq. }
  destruct (first_fitting_reverse (is_undecided cop_positions robber_position) levels)
    as (result & Hres & Hspec).
  { intros b Hb. destruct (Hund b Hb) as (u & Hu & _). by eexists. }
  exists levels, result. split; [done|]. split; [exact Hres|]. split.
  - intros Hin. destruct result as [a|]; [|done].
    destruct Hspec as (i & Hi & Ha & _).
    destruct (Hund a) as (u & Hu & Hiff); [by eapply list_elem_of_lookup_2|].
    rewrite Ha in Hu. injection Hu as <-.
    assert (true = false); [|done]. apply Hiff. by exists robber_position.
  - destruct result as [a|].
    + destruct Hspec as (i & Hi & Ha & Hafter). exists i. split; [done|].
      intros j b Hj. split.
      * intros Hle Hcaught.
        destruct (Hund a) as (u & Hu & Hiff); [by eapply list_elem_of_lookup_2|].
        rewrite Ha in Hu. injection Hu as <-.
        assert (true = false); [|done]. apply Hiff.
        by eapply (Hup levels Hsteps j i b a).
      * intros Hlt. destruct (Hund b) as (u & Hu & Hiff);
          [by eapply list_elem_of_lookup_2|].
        rewrite (Hafter j b Hlt Hj) in Hu. injection Hu as <-. by apply Hiff.
    + intros b Hb. destruct (Hund b Hb) as (u & Hu & Hiff).
      rewrite (Hspec b Hb) in Hu. injection Hu as <-. by apply Hiff.
Qed.

End Undecided.

Lemma cycle12_nodes : nodes cycle12 = [0; 1; 2; 3; 4; 5; 6; 7; 8; 9; 10; 11].
Proof. vm_compute. reflexivity. Qed.

Lemma highest_undecided_abstraction_spec_witness :
  exists levels result,
    (forall fuel, (length cycle12 <= fuel)%nat ->
       AbstractionHierarchy_init degree_product increasing_order fuel cycle12
         = Return levels) /\
    highest_undecided_abstraction levels [0; 6] 3 = Some result /\
    (3 ∈ [0; 6] -> result = None) /\
    match result with
    | Some a =>
        exists i, levels !! i = Some a /\
          forall j b, levels !! j = Some b ->
            ((j <= i)%nat -> ~ caught_at [0; 6] 3 b) /\
            ((i < j)%nat -> caught_at [0; 6] 3 b)
    | None => forall b, b ∈ levels -> caught_at [0; 6] 3 b
    end.
Proof.
  apply (highest_undecided_abstraction_spec degree_product increasing_order
           increasing_order_lists_set cycle12 [0; 6] 3 cycle12_wf cycle12_connected).
  - intros c Hc. rewrite cycle12_nodes. apply list_elem_of_In in Hc.
    apply list_elem_of_In. simpl in *. intuition lia.
  - rewrite cycle12_nodes. apply list_elem_of_In. simpl. auto 10.
Defined.

End Abstraction.

(* ===================================================================== *)
(** * engine/modules/islands/abstraction.py                                *)
(* ===================================================================== *)

Module Islands.
Import Outcome Graphs Search Engine.
#[local] Set Warnings "-clear-no-such-hyp".

(** The [while not stop:] loop of [trap_free_subgraph]. *)
Fixpoint trap_free_loop (fuel : nat) (graph : Graph) : outcome Graph :=
  match fuel with
  | O => OutOfFuel
  | S fuel' =>
      let nodes := filter (λ node, (2 <= degree graph node)%nat) (nodes graph) in
      let stop := bool_decide (length nodes = number_of_nodes graph) in
      let graph' := subgraph graph (list_to_set nodes) in
      if stop then Return graph' else trap_free_loop fuel' graph'
  end.

(** [trap_free_subgraph]: every round but the last removes a node. *)
Definition trap_free_subgraph (graph : Graph) : outcome Graph :=
  trap_free_loop (S (length graph)) graph.

Example trap_free_subgraph_path4 : trap_free_subgraph path4 = Return [].
Proof. vm_compute. reflexivity. Qed.

(** A triangle 0 - 1 - 2 with the tail 2 - 3 - 4: the tail is removed. *)
Definition lollipop : Graph := of_edges [(0, 1); (1, 2); (2, 0); (2, 3); (3, 4)].

Example trap_free_subgraph_lollipop :
  trap_free_subgraph lollipop = Return [(0, [1; 2]); (1, [0; 2]); (2, [1; 0])].
Proof. vm_compute. reflexivity. Qed.

(** ** Sub-graphs of sub-graphs *)

Lemma filter_filter {A} (P Q : A -> Prop) `{!forall x, Decision (P x)}
    `{!forall x, Decision (Q x)} (l : list A) :
  filter P (filter Q l) = filter (λ x, P x /\ Q x) l.
Proof.
  induction l as [|x l IH]; [done|].
  rewrite (filter_cons Q), (filter_cons (λ x, P x /\ Q x)).
  destruct (decide (Q x)) as [HQ|HQ].
  - rewrite (filter_cons P). destruct (decide (P x)) as [HP|HP].
    + rewrite decide_True by done. by rewrite IH.
    + rewrite decide_False by (by intros [? ?]). exact IH.
  - rewrite decide_False by (by intros [? ?]). exact IH.
Qed.

Lemma filter_equiv {A} (P Q : A -> Prop) `{!forall x, Decision (P x)}
    `{!forall x, Decision (Q x)} (l : list A) :
  (forall x, x ∈ l -> P x <-> Q x) -> filter P l = filter Q l.
Proof.
  induction l as [|x l IH]; intros Hall; [done|].
  rewrite (filter_cons P), (filter_cons Q).
  assert (filter P l = filter Q l) as Heq
    by (apply IH; intros y Hy; apply Hall; by right).
  rewrite Heq. destruct (decide (P x)) as [HP|HP].
  - rewrite decide_True; [done|]. apply Hall; [left|done].
  - rewrite decide_False; [done|]. intros HQ. apply HP. apply Hall; [left|done].
Qed.

Lemma subgraph_subgraph g (keep keep' : gset Z) :
  subgraph (subgraph g keep) keep' = subgraph g (keep ∩ keep').
Proof.
  unfold subgraph. induction g as [|[u ns] g IH]; [done|].
  rewrite (filter_cons (λ p : Z * list Z, p.1 ∈ keep)),
    (filter_cons (λ p : Z * list Z, p.1 ∈ keep ∩ keep')). cbn [fst].
  destruct (decide (u ∈ keep)) as [Hu|Hu].
  - rewrite fmap_cons. cbn [fst snd].
    rewrite (filter_cons (λ p : Z * list Z, p.1 ∈ keep')). cbn [fst].
    destruct (decide (u ∈ keep')) as [Hu'|Hu'].
    + rewrite decide_True by set_solver. rewrite !fmap_cons. cbn [fst snd].
      f_equal; [|exact IH]. f_equal.
      rewrite (filter_filter (λ v, v ∈ keep') (λ v, v ∈ keep)).
      apply filter_equiv. set_solver.
    + rewrite decide_False by set_solver. exact IH.
  - rewrite decide_False by set_solver. exact IH.
Qed.

Lemma length_filter_mono {A} (P Q : A -> Prop) `{!forall x, Decision (P x)}
    `{!forall x, Decision (Q x)} (l : list A) :
  (forall x, P x -> Q x) -> (length (filter P l) <= length (filter Q l))%nat.
Proof.
  intros HPQ. induction l as [|x l IH]; [done|].
  rewrite (filter_cons P), (filter_cons Q).
  destruct (decide (P x)) as [HP|HP].
  - rewrite decide_True by auto. simpl. lia.
  - destruct (decide (Q x)); simpl; lia.
Qed.

Lemma degree_subgraph_mono g (keep keep' : gset Z) v :
  keep ⊆ keep' -> v ∈ keep ->
  (degree (subgraph g keep) v <= degree (subgraph g keep') v)%nat.
Proof.
  intros Hsub Hv. unfold degree. rewrite !neighbors_subgraph.
  rewrite decide_True by done. rewrite decide_True by set_solver.
  pose proof (length_filter_mono (λ w, w ∈ keep) (λ w, w ∈ keep') (neighbors g v)
                ltac:(set_solver)) as Hlen.
  destruct (bool_decide (v ∈ filter (λ w, w ∈ keep) (neighbors g v))) eqn:Hloop.
  - apply bool_decide_eq_true in Hloop.
    apply list_elem_of_filter in Hloop as [_ Hloop].
    rewrite bool_decide_eq_true_2; [lia|]. apply list_elem_of_filter. set_solver.
  - destruct (bool_decide _); lia.
Qed.

Lemma filter_all_length {A} (P : A -> Prop) `{!forall x, Decision (P x)} (l : list A) :
  length (filter P l) = length l -> forall x, x ∈ l -> P x.
Proof.
  induction l as [|y l IH]; [by intros _ x ?%elem_of_nil|].
  rewrite (filter_cons P). destruct (decide (P y)) as [HP|HP]; simpl.
  - intros [= Hlen] x [->|Hx]%elem_of_cons; [done|by apply IH].
  - intros Hlen. pose proof (length_filter_le P l). lia.
Qed.

Lemma filter_id {A} (P : A -> Prop) `{!forall x, Decision (P x)} (l : list A) :
  (forall x, x ∈ l -> P x) -> filter P l = l.
Proof.
  induction l as [|y l IH]; intros Hall; [done|].
  rewrite (filter_cons P), decide_True by (apply Hall; left).
  f_equal. apply IH. intros x Hx. apply Hall. by right.
Qed.

Lemma subgraph_all g :
  wf_graph g -> subgraph g (list_to_set (nodes g)) = g.
Proof.
  intros [Hnd Hclosed _].
  assert (forall u ns v, (u, ns) ∈ g -> v ∈ ns -> v ∈ nodes g) as Hentries.
  { intros u ns v Hin Hv. apply (Hclosed u). unfold neighbors.
    by rewrite (adjacency_NoDup g u ns Hnd Hin). }
  unfold subgraph.
  assert (forall h : Graph, (forall e, e ∈ h -> e ∈ g) ->
            (λ p : Z * list Z, (p.1, filter (λ v, v ∈ (list_to_set (nodes g) : gset Z)) p.2))
              <$> filter (λ p : Z * list Z, p.1 ∈ (list_to_set (nodes g) : gset Z)) h = h)
    as Hgen; [|by apply Hgen].
  induction h as [|[u ns] h IH]; intros Hsub; [done|].
  rewrite (filter_cons (λ p : Z * list Z, p.1 ∈ (list_to_set (nodes g) : gset Z))).
  cbn [fst]. rewrite decide_True.
  - rewrite fmap_cons. cbn [fst snd]. f_equal.
    + f_equal. apply filter_id. intros v Hv. apply elem_of_list_to_set.
      eapply (Hentries u ns); [apply Hsub; left|done].
    + apply IH. intros e He. apply Hsub. by right.
  - apply elem_of_list_to_set, list_elem_of_fmap. exists (u, ns).
    split; [done|]. apply Hsub. left.
Qed.

(** ** The rounds of [trap_free_subgraph] *)

(** A set of nodes in which every node keeps two neighbours (a loop
    counting twice): no round can remove a node of it. *)
Definition trap_free (graph : Graph) (S : gset Z) : Prop :=
  forall v, v ∈ S -> v ∈ nodes graph /\ (2 <= degree (subgraph graph S) v)%nat.

Lemma trap_free_loop_spec graph :
  wf_graph graph ->
  forall fuel (K : gset Z),
    (length (subgraph graph K) < fuel)%nat ->
    exists K' : gset Z,
      trap_free_loop fuel (subgraph graph K) = Return (subgraph graph K') /\
      K' ⊆ K /\
      (forall v, v ∈ nodes (subgraph graph K') ->
                 (2 <= degree (subgraph graph K') v)%nat) /\
      (forall S, trap_free graph S -> S ⊆ K -> S ⊆ K').
Proof.
  intros Hwf. induction fuel as [|fuel IH]; intros K Hfuel; [lia|].
  cbn [trap_free_loop]. set (g := subgraph graph K).
  set (N := filter (λ node, (2 <= degree g node)%nat) (nodes g)).
  cbv zeta. rewrite (subgraph_subgraph graph K (list_to_set N)).
  assert (forall S : gset Z, trap_free graph S -> S ⊆ K -> S ⊆ K ∩ list_to_set N)
    as Hmax.
  { intros S HS HSK v Hv. apply elem_of_intersection. split; [by apply HSK|].
    apply elem_of_list_to_set. unfold N. apply list_elem_of_filter.
    destruct (HS v Hv) as [Hnode Hdeg]. split.
    - pose proof (degree_subgraph_mono graph S K v HSK Hv). unfold g. lia.
    - unfold g. rewrite nodes_subgraph. apply list_elem_of_filter.
      split; [by apply HSK|done]. }
  destruct (bool_decide (length N = number_of_nodes g)) eqn:Hstop.
  - apply bool_decide_eq_true in Hstop.
    exists (K ∩ list_to_set N). split; [done|]. split; [set_solver|]. split; [|done].
    unfold number_of_nodes in Hstop. rewrite <- length_nodes in Hstop.
    pose proof (filter_all_length _ _ Hstop) as Hall.
    intros v Hv. rewrite <- (subgraph_subgraph graph K (list_to_set N)). fold g.
    assert (v ∈ nodes g) as Hvg.
    { rewrite nodes_subgraph in Hv. apply list_elem_of_filter in Hv as [Hv Hn].
      unfold g. rewrite nodes_subgraph. apply list_elem_of_filter. set_solver. }
    assert (neighbors (subgraph g (list_to_set N)) v = neighbors g v) as Hsame.
    { rewrite neighbors_subgraph. rewrite decide_True.
      - apply filter_id. intros w Hw. apply elem_of_list_to_set. unfold N.
        apply list_elem_of_filter.
        assert (w ∈ nodes g) as Hwg.
        { unfold g in Hw |- *. rewrite neighbors_subgraph in Hw.
          destruct (decide (v ∈ K)); [|by apply elem_of_nil in Hw].
          apply list_elem_of_filter in Hw as [HwK Hw].
          rewrite nodes_subgraph. apply list_elem_of_filter. split; [done|].
          by apply (wf_closed _ Hwf v). }
        split; [by apply Hall|done].
      - apply elem_of_list_to_set. unfold N. apply list_elem_of_filter.
        split; [by apply Hall|done]. }
    unfold degree. rewrite Hsame. by apply Hall.
  - apply bool_decide_eq_false in Hstop.
    destruct (IH (K ∩ list_to_set N)) as (K' & Hrun & Hsub & Hdeg & Hmax').
    + rewrite <- (subgraph_subgraph graph K (list_to_set N)). fold g.
      rewrite <- length_nodes, nodes_subgraph.
      assert (filter (λ v, v ∈ (list_to_set N : gset Z)) (nodes g) = N) as ->.
      { unfold N. apply filter_equiv. intros x Hx.
        rewrite elem_of_list_to_set, list_elem_of_filter. tauto. }
      assert (length N <= length (nodes g))%nat by apply length_filter_le.
      unfold number_of_nodes in Hstop. rewrite <- length_nodes in Hstop.
      unfold g in *. rewrite length_nodes in *. lia.
    + exists K'. split; [done|]. split; [set_solver|]. split; [done|].
      intros S HS HSK. apply Hmax'; [done|]. by apply Hmax.
Qed.

(** X19. [trap_free_subgraph] computes the part of the graph without
    traps.  It ends, and the graph it returns is the sub-graph induced by
    its nodes in which every node has degree two or more (a loop counting
    twice); it is the largest such: every set of nodes of the graph with
    that property lies in it. *)
Theorem trap_free_subgraph_spec (graph : Graph) :
  wf_graph graph ->
  exists core,
    trap_free_subgraph graph = Return core /\
    (forall v, v ∈ nodes core -> v ∈ nodes graph /\ (2 <= degree core v)%nat) /\
    (forall u v, v ∈ neighbors core u <->
                 u ∈ nodes core /\ v ∈ nodes core /\ v ∈ neighbors graph u) /\
    (forall S, trap_free graph S -> forall v, v ∈ S -> v ∈ nodes core).
Proof.
  intros Hwf. unfold trap_free_subgraph.
  pose proof (trap_free_loop_spec graph Hwf (S (length graph))
                (list_to_set (nodes graph))) as Hloop.
  rewrite (subgraph_all graph Hwf) in Hloop.
  destruct (Hloop ltac:(lia)) as (K' & Hrun & Hsub & Hdeg & Hmax).
  exists (subgraph graph K'). split; [done|]. split_and!.
  - intros v Hv. split; [|by apply Hdeg].
    rewrite nodes_subgraph in Hv. by apply list_elem_of_filter in Hv as [_ ?].
  - intros u v. rewrite neighbors_subgraph, !nodes_subgraph, !list_elem_of_filter.
    destruct (decide (u ∈ K')) as [Hu|Hu].
    + rewrite list_elem_of_filter. split.
      * intros [Hv Hedge]. split_and!; try done.
        -- by eapply neighbors_in_nodes.
        -- by apply (wf_closed _ Hwf u).
      * intros (_ & [Hv _] & Hedge). done.
    + split; [by intros ?%elem_of_nil|]. by intros ([? _] & _).
  - intros S HS v Hv. rewrite nodes_subgraph. apply list_elem_of_filter. split.
    + apply (Hmax S HS); [|done]. intros w Hw. apply elem_of_list_to_set.
      by apply (HS w).
    + by apply (HS v).
Qed.

Lemma trap_free_subgraph_spec_witness :
  exists core,
    trap_free_subgraph lollipop = Return core /\
    (forall v, v ∈ nodes core -> v ∈ nodes lollipop /\ (2 <= degree core v)%nat) /\
    (forall u v, v ∈ neighbors core u <->
                 u ∈ nodes core /\ v ∈ nodes core /\ v ∈ neighbors lollipop u) /\
    (forall S, trap_free lollipop S -> forall v, v ∈ S -> v ∈ nodes core).
Proof.
  apply (trap_free_subgraph_spec lollipop).
  apply wf_graphb_sound. vm_compute. reflexivity.
Defined.

End Islands.

(* ===================================================================== *)
(** * engine/modules/util/approximation.py                                 *)
(* ===================================================================== *)

Module Approximation.
Import Outcome Graphs Search.
#[local] Set Warnings "-clear-no-such-hyp".

(** [max(graph.nodes, key=graph.degree.__getitem__)]: the first node of
    the largest degree; [None] is the [ValueError] of an empty graph. *)
Definition max_degree_node (graph : Graph) : option Z :=
  match nodes graph with
  | [] => None
  | first :: rest =>
      Some (fold_left (λ best node,
                         if decide (degree graph best < degree graph node)%nat
                         then node else best)
                      rest first)
  end.

(** The [while len(centers) < k:] loop of [gon]. *)
Fixpoint gon_loop (fuel : nat) (graph : Graph) (k : Z) (centers : list Z)
  : outcome (list Z) :=
  if decide (Z.of_nat (length centers) < k) then
    match fuel with
    | O => OutOfFuel
    | S fuel' =>
        match farthest_node graph centers with
        | Return max_center_distance_node =>
            gon_loop fuel' graph k (centers ++ [max_center_distance_node])
        | Raise => Raise
        | OutOfFuel => OutOfFuel
        end
    end
  else Return centers.

(** [gon]: the loop adds one center per round. *)
Definition gon (graph : Graph) (k : Z) : outcome (list Z) :=
  match max_degree_node graph with
  | None => Raise
  | Some first => gon_loop (Z.to_nat k) graph k [first]
  end.

Example gon_path4 : gon path4 3 = Return [1; 3; 2].
Proof. vm_compute. reflexivity. Qed.

Example gon_no_center_asked : gon path4 0 = Return [1].
Proof. vm_compute. reflexivity. Qed.

Lemma fold_max_degree graph rest first :
  let best := fold_left (λ best node,
                           if decide (degree graph best < degree graph node)%nat
                           then node else best) rest first in
  best ∈ first :: rest /\
  forall v, v ∈ first :: rest -> (degree graph v <= degree graph best)%nat.
Proof.
  revert first. induction rest as [|x rest IH]; intros first; simpl.
  - split; [left|]. intros v Hv%list_elem_of_singleton. by subst v.
  - destruct (decide (degree graph first < degree graph x)%nat) as [Hlt|Hge].
    + destruct (IH x) as [Hin Hmax]. split; [by right|].
      intros v [Hv|Hv]%elem_of_cons; [subst v|by apply Hmax].
      specialize (Hmax x ltac:(left)). lia.
    + destruct (IH first) as [Hin Hmax]. split.
      * apply elem_of_cons in Hin as [Hin|Hin]; [rewrite Hin; left|right; by right].
      * intros v [Hv|Hv]%elem_of_cons; [subst v; apply Hmax; left|].
        apply elem_of_cons in Hv as [Hv|Hv].
        -- subst v. specialize (Hmax first ltac:(left)). lia.
        -- apply Hmax. by right.
Qed.

Lemma gon_loop_spec graph k :
  (forall u v, v ∈ neighbors graph u -> v ∈ nodes graph) ->
  forall fuel centers,
    centers <> [] ->
    (forall c, c ∈ centers -> c ∈ nodes graph) ->
    (Z.to_nat k <= fuel + length centers)%nat ->
    exists more,
      gon_loop fuel graph k centers = Return (centers ++ more) /\
      Z.of_nat (length (centers ++ more)) = Z.max (Z.of_nat (length centers)) k /\
      (forall c, c ∈ centers ++ more -> c ∈ nodes graph) /\
      (forall i c, (length centers <= i)%nat -> (centers ++ more) !! i = Some c ->
                   farthest_node graph (take i (centers ++ more)) = Return c).
Proof.
  intros Hgraph. induction fuel as [|fuel IH]; intros centers Hne Hnodes Hfuel.
  - cbn [gon_loop]. rewrite decide_False by lia.
    exists []. rewrite app_nil_r. split_and!; [done|lia|done|].
    intros i c Hi Hc. apply lookup_lt_Some in Hc. lia.
  - cbn [gon_loop]. destruct (decide (Z.of_nat (length centers) < k)) as [Hlt|Hge].
    + pose proof (farthest_node_spec graph centers Hgraph Hnodes) as Hfar.
      destruct centers as [|c0 centers0] eqn:Hc; [done|]. rewrite <- Hc in *.
      destruct Hfar as (v & Hv & Hvn & _). rewrite Hv.
      destruct (IH (centers ++ [v])) as (more & Hrun & Hlen & Hall & Hfarthest).
      * by destruct centers.
      * intros c [Hin|Hin]%elem_of_app; [by apply Hnodes|].
        apply list_elem_of_singleton in Hin. by subst c.
      * rewrite length_app. simpl. lia.
      * exists (v :: more). rewrite <- app_assoc in Hrun, Hlen, Hall, Hfarthest.
        simpl in Hrun, Hlen, Hall, Hfarthest.
        split; [done|]. split; [|split].
        -- rewrite !length_app in *. simpl in *. lia.
        -- done.
        -- intros i c Hi Hci.
           destruct (decide (i = length centers)) as [->|Hne'].
           ++ rewrite take_app_length.
              rewrite lookup_app_r, Nat.sub_diag in Hci by lia.
              simpl in Hci. by injection Hci as <-.
           ++ apply Hfarthest; [|done]. rewrite length_app. simpl. lia.
    + exists []. rewrite app_nil_r. split_and!; [done|lia|done|].
      intros i c Hi Hci. apply lookup_lt_Some in Hci. lia.
Qed.

(** X20. [gon] raises on an empty graph.  On a graph with a node whose
    adjacency lists only name nodes of the graph it returns [max(k, 1)]
    centers, all nodes of the graph: the first is the first node of the
    largest degree, and every later one is what [farthest_node] returns
    for the centers chosen before it. *)
Theorem gon_spec (graph : Graph) (k : Z) :
  (forall u v, v ∈ neighbors graph u -> v ∈ nodes graph) ->
  match nodes graph with
  | [] => gon graph k = Raise
  | _ :: _ =>
      exists centers,
        gon graph k = Return centers /\
        Z.of_nat (length centers) = Z.max 1 k /\
        (forall c, c ∈ centers -> c ∈ nodes graph) /\
        (exists first, centers !! 0%nat = Some first /\
           forall v, v ∈ nodes graph -> (degree graph v <= degree graph first)%nat) /\
        (forall i c, centers !! S i = Some c ->
                     farthest_node graph (take (S i) centers) = Return c)
  end.
Proof.
  intros Hgraph. unfold gon, max_degree_node.
  destruct (nodes graph) as [|first rest] eqn:Hnodes; [done|].
  pose proof (fold_max_degree graph rest first) as Hbest. cbv zeta in Hbest.
  set (best := fold_left _ rest first) in *. destruct Hbest as [Hin Hmax].
  assert (forall u v, v ∈ neighbors graph u -> v ∈ nodes graph) as Hclosed
    by (by rewrite Hnodes).
  destruct (gon_loop_spec graph k Hclosed (Z.to_nat k) [best])
    as (more & Hrun & Hlen & Hall & Hfar).
  - done.
  - intros c Hc%list_elem_of_singleton. subst c. by rewrite Hnodes.
  - simpl. lia.
  - exists ([best] ++ more). split; [done|]. split; [|split; [|split]].
    + simpl in *. lia.
    + intros c Hc. rewrite <- Hnodes. by apply Hall.
    + exists best. split; [done|]. done.
    + intros i c Hc. apply Hfar; [simpl; lia|done].
Qed.

Lemma gon_spec_witness :
  exists centers,
    gon path4 3 = Return centers /\
    Z.of_nat (length centers) = Z.max 1 3 /\
    (forall c, c ∈ centers -> c ∈ nodes path4) /\
    (exists first, centers !! 0%nat = Some first /\
       forall v, v ∈ nodes path4 -> (degree path4 v <= degree path4 first)%nat) /\
    (forall i c, centers !! S i = Some c ->
                 farthest_node path4 (take (S i) centers) = Return c).
Proof. apply (gon_spec path4 3 path4_closed). Defined.

(** ** [greedy_weighted_k_center] *)

(** [pairwise_distances[center][node]]; [None] is the [KeyError]. *)
Definition distance (pairwise_distances : gmap Z (gmap Z Z)) (center node : Z)
  : option Z :=
  pairwise_distances !! center ≫= λ row, row !! node.

(** [max(.., key=key)] over an iterable that yields [best] first and then
    [rest]: the first item of the largest key.  The keys are what
    [weights.get] returns, a float or [None]; comparing with [None] is a
    [TypeError]. *)
Fixpoint max_by_key (key : Z -> option Q) (best : Z) (rest : list Z) : outcome Z :=
  match rest with
  | [] => Return best
  | item :: rest' =>
      match key item, key best with
      | Some item_key, Some best_key =>
          max_by_key key (if Qlt_le_dec best_key item_key then item else best) rest'
      | _, _ => Raise
      end
  end.

Section Greedy.

(** The order in which Python iterates over a set of ints is not part of
    the language; [set_order] is any function listing the elements. *)
Variable set_order : gset Z -> list Z.

Variable graph : Graph.
Variable pairwise_distances : gmap Z (gmap Z Z).
Variable weights : gmap Z Q.
Variable d : Z.
(** [upper_bound]: [None] is the default [float("inf")]. *)
Variable upper_bound : option Z.

Definition exceeds (n : nat) : bool :=
  match upper_bound with
  | Some bound => bool_decide (bound < Z.of_nat n)
  | None => false
  end.

(** The [while nodes:] loop. *)
Fixpoint greedy_loop (fuel : nat) (nodes : gset Z) (centers : list Z)
  : outcome (list Z) :=
  if decide (nodes = ∅) then Return centers else
  match fuel with
  | O => OutOfFuel
  | S fuel' =>
      match set_order nodes with
      | [] => Raise
      | first :: rest =>
          match max_by_key (λ node, weights !! node) first rest with
          | Return center =>
              let centers := centers ++ [center] in
              if exceeds (length centers) then Return centers
              else
                let nodes := nodes ∖ {[center]} in
                match mapM (λ node, pair node <$> distance pairwise_distances center node)
                           (set_order nodes) with
                | Some distances =>
                    let near := (filter (λ entry, entry.2 <= 2 * d) distances).*1 in
                    greedy_loop fuel' (nodes ∖ list_to_set near) centers
                | None => Raise
                end
          | Raise => Raise
          | OutOfFuel => OutOfFuel
          end
      end
  end.

Definition greedy_weighted_k_center : outcome (list Z) :=
  let nodes : gset Z := list_to_set (Graphs.nodes graph) in
  greedy_loop (size nodes) nodes [].

End Greedy.

Definition path4_distances : gmap Z (gmap Z Z) :=
  list_to_map
    [(0, list_to_map [(0, 0); (1, 1); (2, 2); (3, 3)]);
     (1, list_to_map [(0, 1); (1, 0); (2, 1); (3, 2)]);
     (2, list_to_map [(0, 2); (1, 1); (2, 0); (3, 1)]);
     (3, list_to_map [(0, 3); (1, 2); (2, 1); (3, 0)])].

Definition path4_weights : gmap Z Q :=
  list_to_map [(0, (1#1)%Q); (1, (4#1)%Q); (2, (3#1)%Q); (3, (2#1)%Q)].

Example greedy_path4 :
  greedy_weighted_k_center elements path4 path4_distances path4_weights 0 None
  = Return [1; 2; 3; 0].
Proof. vm_compute. reflexivity. Qed.

Example greedy_path4_radius :
  greedy_weighted_k_center elements path4 path4_distances path4_weights 1 None
  = Return [1].
Proof. vm_compute. reflexivity. Qed.

Example greedy_path4_bound :
  greedy_weighted_k_center elements path4 path4_distances path4_weights 0 (Some 1)
  = Return [1; 2].
Proof. vm_compute. reflexivity. Qed.

Lemma max_by_key_spec (key : Z -> option Q) rest best :
  (forall v, v ∈ best :: rest -> is_Some (key v)) ->
  exists center,
    max_by_key key best rest = Return center /\
    center ∈ best :: rest /\
    forall v, v ∈ best :: rest ->
      exists v_key center_key,
        key v = Some v_key /\ key center = Some center_key /\
        (v_key <= center_key)%Q.
Proof.
  revert best. induction rest as [|item rest IH]; intros best Hkeys.
  - exists best. split; [done|]. split; [left|].
    intros v Hv%list_elem_of_singleton. subst v.
    destruct (Hkeys best) as [k Hk]; [left|]. exists k, k. split_and!; [done..|lra].
  - cbn [max_by_key].
    destruct (Hkeys item) as [item_key Hitem]; [right; left|].
    destruct (Hkeys best) as [best_key Hbest]; [left|].
    rewrite Hitem, Hbest.
    destruct (Qlt_le_dec best_key item_key) as [Hlt|Hle].
    + destruct (IH item) as (center & Hrun & Hin & Hmax).
      { intros v Hv. apply Hkeys. by right. }
      exists center. split; [done|]. split; [by right|].
      intros v [Hv|Hv]%elem_of_cons; [subst v|by apply Hmax].
      destruct (Hmax item) as (k1 & k2 & Hk1 & Hk2 & Hk); [left|].
      exists best_key, k2. split_and!; [done..|].
      rewrite Hitem in Hk1. injection Hk1 as <-. lra.
    + destruct (IH best) as (center & Hrun & Hin & Hmax).
      { intros v [Hv|Hv]%elem_of_cons; apply Hkeys; [subst v; left|right; by right]. }
      exists center. split; [done|]. split.
      { apply elem_of_cons in Hin as [Hin|Hin]; [subst; left|right; by right]. }
      intros v [Hv|Hv]%elem_of_cons; [subst v; apply Hmax; left|].
      apply elem_of_cons in Hv as [Hv|Hv]; [subst v|apply Hmax; by right].
      destruct (Hmax best) as (k1 & k2 & Hk1 & Hk2 & Hk); [left|].
      exists item_key, k2. split_and!; [done..|].
      rewrite Hbest in Hk1. injection Hk1 as <-. lra.
Qed.

Lemma near_nodes (g : Z -> option Z) (bound : Z) (l : list Z) distances :
  mapM (λ node, pair node <$> g node) l = Some distances ->
  forall v, v ∈ (filter (λ entry : Z * Z, entry.2 <= bound) distances).*1 <->
            v ∈ l /\ exists dist, g v = Some dist /\ dist <= bound.
Proof.
  revert distances. induction l as [|x l IH]; intros distances Hm v.
  - simpl in Hm. injection Hm as <-. simpl. split; [by intros ?%elem_of_nil|].
    by intros [?%elem_of_nil _].
  - rewrite mapM_Some in Hm. apply Forall2_cons_inv_l in Hm as (y & ds & Hy & Hds & ->).
    rewrite <- mapM_Some in Hds. specialize (IH ds Hds v).
    destruct (g x) as [dist|] eqn:Hg; [|done]. simpl in Hy. injection Hy as <-.
    rewrite (filter_cons (λ entry : Z * Z, entry.2 <= bound)). simpl.
    destruct (decide (dist <= bound)) as [Hle|Hgt].
    + rewrite fmap_cons, elem_of_cons, IH, elem_of_cons. simpl. split.
      * intros [->|[? ?]]; [split; [by left|eauto]|split; [by right|done]].
      * intros [[->|?] ?]; [by left|right; split; done].
    + rewrite IH, elem_of_cons. split.
      * intros [? ?]. split; [by right|done].
      * intros [[->|?] (dist' & Hd & ?)]; [|split; [done|eauto]].
        rewrite Hg in Hd. injection Hd as <-. lia.
Qed.

Section GreedySpec.

Variable set_order : gset Z -> list Z.
Variable graph : Graph.
Variable pairwise_distances : gmap Z (gmap Z Z).
Variable weights : gmap Z Q.
Variable d : Z.
Variable upper_bound : option Z.

Hypothesis set_order_lists : forall (s : gset Z) x, x ∈ set_order s <-> x ∈ s.
Hypothesis weights_defined :
  forall v, v ∈ nodes graph -> is_Some (weights !! v).
Hypothesis distances_defined :
  forall u v, u ∈ nodes graph -> v ∈ nodes graph ->
              is_Some (distance pairwise_distances u v).

(** [node] is, or is within [2 * d] of, one of [centers]. *)
Definition covered (centers : list Z) (node : Z) : Prop :=
  exists center, center ∈ centers /\
    (center = node \/
     exists dist, distance pairwise_distances center node = Some dist /\ dist <= 2 * d).

Definition weight_le (v center : Z) : Prop :=
  exists v_weight center_weight,
    weights !! v = Some v_weight /\ weights !! center = Some center_weight /\
    (v_weight <= center_weight)%Q.

Record greedy_centers (centers : list Z) : Prop := {
  gc_nodes : forall c, c ∈ centers -> c ∈ nodes graph;
  gc_nodup : NoDup centers;
  gc_far : forall i j ci cj,
    (i < j)%nat -> centers !! i = Some ci -> centers !! j = Some cj ->
    exists dist, distance pairwise_distances ci cj = Some dist /\ 2 * d < dist;
  gc_heaviest : forall i ci v,
    centers !! i = Some ci -> v ∈ nodes graph ->
    ~ covered (take i centers) v -> weight_le v ci
}.

Record greedy_inv (remaining : gset Z) (centers : list Z) : Prop := {
  gi_centers : greedy_centers centers;
  gi_remaining : forall v, v ∈ remaining -> v ∈ nodes graph /\ ~ covered centers v;
  gi_covered : forall v, v ∈ nodes graph -> v ∉ remaining -> covered centers v;
  gi_bound : match upper_bound with
             | Some bound => Z.of_nat (length centers) <= Z.max bound 0
             | None => True
             end
}.

Lemma covered_snoc centers center v :
  covered (centers ++ [center]) v <->
  covered centers v \/ center = v \/
  exists dist, distance pairwise_distances center v = Some dist /\ dist <= 2 * d.
Proof.
  unfold covered. split.
  - intros (c & [Hc|Hc]%elem_of_app & Hv); [left; eauto|].
    apply list_elem_of_singleton in Hc. subst c. by right.
  - intros [(c & Hc & Hv)|Hv].
    + exists c. split; [apply elem_of_app; by left|done].
    + exists center. split; [apply elem_of_app; right; left|done].
Qed.

Lemma greedy_centers_snoc remaining centers center :
  greedy_inv remaining centers ->
  center ∈ remaining ->
  (forall v, v ∈ remaining -> weight_le v center) ->
  greedy_centers (centers ++ [center]).
Proof.
  intros [[Hnodes Hnodup Hfar Hheavy] Hrem Hcov' _] Hcenter Hmax.
  apply Hrem in Hcenter as Hc. destruct Hc as [Hcn Hcc].
  split.
  - intros c [Hc|Hc]%elem_of_app; [by apply Hnodes|].
    apply list_elem_of_singleton in Hc. by subst c.
  - apply NoDup_app. split; [done|]. split; [|apply NoDup_singleton].
    intros c Hc Hc'%list_elem_of_singleton. subst c.
    apply Hcc. exists center. split; [done|by left].
  - intros i j ci cj Hij Hi Hj.
    destruct (decide (j < length centers)%nat) as [Hlt|Hge].
    + rewrite lookup_app_l in Hi, Hj by lia. eauto.
    + assert (j = length centers) as ->.
      { apply lookup_lt_Some in Hj. rewrite length_app in Hj. simpl in Hj. lia. }
      rewrite lookup_app_l in Hi by lia.
      rewrite lookup_app_r, Nat.sub_diag in Hj by lia. simpl in Hj. injection Hj as <-.
      assert (ci ∈ centers) as Hci by (by eapply list_elem_of_lookup_2).
      destruct (distances_defined ci center) as [dist Hdist]; [by apply Hnodes|done|].
      exists dist. split; [done|].
      destruct (decide (2 * d < dist)) as [|Hnear]; [done|].
      exfalso. apply Hcc. exists ci. split; [done|]. right. exists dist. split; [done|lia].
  - intros i ci v Hi Hv Hcov.
    destruct (decide (i < length centers)%nat) as [Hlt|Hge].
    + rewrite lookup_app_l in Hi by lia.
      rewrite take_app_le in Hcov by lia. eauto.
    + assert (i = length centers) as ->.
      { apply lookup_lt_Some in Hi. rewrite length_app in Hi. simpl in Hi. lia. }
      rewrite lookup_app_r, Nat.sub_diag in Hi by lia. simpl in Hi. injection Hi as <-.
      rewrite take_app_length in Hcov. apply Hmax.
      destruct (decide (v ∈ remaining)) as [|Hout]; [done|].
      exfalso. by apply Hcov, Hcov'.
Qed.

Lemma greedy_loop_spec fuel :
  forall (remaining : gset Z) centers,
    (size remaining <= fuel)%nat ->
    greedy_inv remaining centers ->
    exists result,
      greedy_loop set_order pairwise_distances weights d upper_bound
                  fuel remaining centers = Return result /\
      greedy_centers result /\
      (exceeds upper_bound (length result) = false ->
       forall v, v ∈ nodes graph -> covered result v) /\
      match upper_bound with
      | Some bound => Z.of_nat (length result) <= Z.max bound 0 + 1
      | None => True
      end.
Proof.
  induction fuel as [|fuel IH]; intros remaining centers Hfuel Hinv.
  - assert (remaining = ∅) as -> by (apply leibniz_equiv, size_empty_inv; lia).
    cbn [greedy_loop]. rewrite decide_True by done.
    exists centers. destruct Hinv as [Hc Hrem Hcov Hb]. split_and!; [done|done| |].
    + intros _ v Hv. apply Hcov; [done|]. apply not_elem_of_empty.
    + destruct upper_bound; [lia|done].
  - cbn [greedy_loop]. destruct (decide (remaining = ∅)) as [->|Hne].
    + exists centers. destruct Hinv as [Hc Hrem Hcov Hb]. split_and!; [done|done| |].
      * intros _ v Hv. apply Hcov; [done|]. apply not_elem_of_empty.
      * destruct upper_bound; [lia|done].
    + destruct (set_order remaining) as [|first rest] eqn:Horder.
      { exfalso. apply set_choose_L in Hne as [x Hx].
        apply set_order_lists in Hx. rewrite Horder in Hx. by apply elem_of_nil in Hx. }
      destruct (max_by_key_spec (λ node, weights !! node) rest first)
        as (center & Hrun & Hin & Hmax).
      { intros v Hv. apply weights_defined. rewrite <- Horder in Hv.
        apply set_order_lists in Hv. by apply (gi_remaining _ _ Hinv). }
      rewrite Hrun. rewrite <- Horder in Hin, Hmax.
      apply set_order_lists in Hin.
      assert (greedy_centers (centers ++ [center])) as Hcenters.
      { apply (greedy_centers_snoc remaining); [done..|].
        intros v Hv. apply Hmax. by apply set_order_lists. }
      destruct (exceeds upper_bound (length (centers ++ [center]))) eqn:Hex.
      * exists (centers ++ [center]). split; [done|]. split; [done|].
        split; [by rewrite Hex|].
        destruct Hinv as [_ _ _ Hb]. destruct upper_bound; [|done].
        rewrite length_app. simpl. lia.
      * assert (center ∈ nodes graph) as Hcn by (by apply (gi_remaining _ _ Hinv)).
        destruct (mapM (λ node, pair node <$> distance pairwise_distances center node)
                       (set_order (remaining ∖ {[center]}))) as [distances|] eqn:Hm.
        2:{ exfalso. apply mapM_None in Hm. apply Exists_exists in Hm as (v & Hv & Hnone).
            apply set_order_lists in Hv.
            destruct (distances_defined center v) as [dist Hdist]; [done| |].
            - apply (gi_remaining _ _ Hinv).
              by apply elem_of_difference in Hv as [Hv _].
            - by rewrite Hdist in Hnone. }
        pose proof (near_nodes _ (2 * d) _ _ Hm) as Hnear.
        apply IH.
        -- generalize (list_to_set
                         (filter (λ entry : Z * Z, entry.2 <= 2 * d) distances).*1
                       : gset Z).
           intros near.
           assert (remaining ∖ {[center]} ∖ near ⊂ remaining) as Hsub.
           { split; [set_solver|]. intros Hall. specialize (Hall center Hin).
             set_solver. }
           apply subset_size in Hsub. lia.
        -- split; [done| | |].
           ++ intros v.
              rewrite !elem_of_difference, elem_of_list_to_set, Hnear,
                set_order_lists, elem_of_difference, elem_of_singleton.
              intros [[Hv Hvc] Hfar].
              apply (gi_remaining _ _ Hinv) in Hv as Hv'. destruct Hv' as [Hvn Hcov].
              split; [done|]. rewrite covered_snoc.
              intros [?|[?|?]]; [done|by subst|]. apply Hfar. done.
           ++ intros v Hv.
              rewrite !elem_of_difference, elem_of_list_to_set, Hnear,
                set_order_lists, elem_of_difference, elem_of_singleton.
              intros Hout. rewrite covered_snoc.
              destruct (decide (v ∈ remaining)) as [Hin'|Hout'];
                [|left; by apply (gi_covered _ _ Hinv)].
              destruct (decide (center = v)) as [|Hvc]; [right; by left|].
              destruct (distances_defined center v) as [dist Hdist]; [done..|].
              destruct (decide (dist <= 2 * d)) as [Hle|Hgt]; [right; right; eauto|].
              exfalso. apply Hout. split; [split; [done|congruence]|].
              intros [_ (dist' & Hd & ?)]. rewrite Hdist in Hd. injection Hd as <-. lia.
           ++ unfold exceeds in Hex. destruct upper_bound as [bound|]; [|done].
              apply bool_decide_eq_false in Hex. lia.
Qed.

End GreedySpec.

(** X21. [greedy_weighted_k_center], when every node of the graph has a
    weight and every pair of nodes a distance, returns a list of distinct
    nodes of the graph in which any two centers are more than [2 * d]
    apart and every center is at least as heavy as every node that the
    centers before it leave uncovered.  Unless the list has outgrown
    [upper_bound], every node of the graph is a center or within [2 * d]
    of one; the list is never longer than [max(upper_bound, 0) + 1]. *)
Theorem greedy_weighted_k_center_spec
    (set_order : gset Z -> list Z) (graph : Graph)
    (pairwise_distances : gmap Z (gmap Z Z)) (weights : gmap Z Q)
    (d : Z) (upper_bound : option Z) :
  (forall (s : gset Z) x, x ∈ set_order s <-> x ∈ s) ->
  (forall v, v ∈ nodes graph -> is_Some (weights !! v)) ->
  (forall u v, u ∈ nodes graph -> v ∈ nodes graph ->
               is_Some (distance pairwise_distances u v)) ->
  exists centers,
    greedy_weighted_k_center set_order graph pairwise_distances weights d upper_bound
    = Return centers /\
    NoDup centers /\
    (forall c, c ∈ centers -> c ∈ nodes graph) /\
    (forall i j ci cj,
        (i < j)%nat -> centers !! i = Some ci -> centers !! j = Some cj ->
        exists dist, distance pairwise_distances ci cj = Some dist /\ 2 * d < dist) /\
    (forall i ci v,
        centers !! i = Some ci -> v ∈ nodes graph ->
        ~ covered pairwise_distances d (take i centers) v ->
        weight_le weights v ci) /\
    (exceeds upper_bound (length centers) = false ->
     forall v, v ∈ nodes graph -> covered pairwise_distances d centers v) /\
    match upper_bound with
    | Some bound => Z.of_nat (length centers) <= Z.max bound 0 + 1
    | None => True
    end.
Proof.
  intros Hset Hweights Hdist. unfold greedy_weighted_k_center.
  destruct (greedy_loop_spec set_order graph pairwise_distances weights d upper_bound
              Hset Hweights Hdist
              (size (list_to_set (nodes graph) : gset Z))
              (list_to_set (nodes graph)) [])
    as (centers & Hrun & [Hnodes Hnodup Hfar Hheavy] & Hcov & Hbound).
  - done.
  - split.
    + split.
      * by intros c ?%elem_of_nil.
      * apply NoDup_nil_2.
      * intros i j ci cj _ Hi. by rewrite lookup_nil in Hi.
      * intros i ci v Hi. by rewrite lookup_nil in Hi.
    + intros v Hv%elem_of_list_to_set. split; [done|].
      by intros (c & ?%elem_of_nil & _).
    + intros v Hv Hout. exfalso. apply Hout. by apply elem_of_list_to_set.
    + destruct upper_bound; [simpl; lia|done].
  - exists centers. done.
Qed.

Lemma path4_weights_defined v :
  v ∈ nodes path4 -> is_Some (path4_weights !! v).
Proof.
  change (nodes path4) with [0; 1; 2; 3].
  intros Hv. repeat (apply elem_of_cons in Hv as [Hv|Hv]; [subst v; by eexists|]).
  by apply elem_of_nil in Hv.
Qed.

Lemma path4_distances_defined u v :
  u ∈ nodes path4 -> v ∈ nodes path4 ->
  is_Some (distance path4_distances u v).
Proof.
  change (nodes path4) with [0; 1; 2; 3].
  intros Hu Hv.
  repeat (apply elem_of_cons in Hu as [Hu|Hu];
          [subst u;
           repeat (apply elem_of_cons in Hv as [Hv|Hv]; [subst v; by eexists|]);
           by apply elem_of_nil in Hv|]).
  by apply elem_of_nil in Hu.
Qed.

Lemma greedy_weighted_k_center_spec_witness :
  exists centers,
    greedy_weighted_k_center elements path4 path4_distances path4_weights 1 None
    = Return centers /\
    NoDup centers /\
    (forall c, c ∈ centers -> c ∈ nodes path4) /\
    (forall i j ci cj,
        (i < j)%nat -> centers !! i = Some ci -> centers !! j = Some cj ->
        exists dist, distance path4_distances ci cj = Some dist /\ 2 * 1 < dist) /\
    (forall i ci v,
        centers !! i = Some ci -> v ∈ nodes path4 ->
        ~ covered path4_distances 1 (take i centers) v ->
        weight_le path4_weights v ci) /\
    (exceeds None (length centers) = false ->
     forall v, v ∈ nodes path4 -> covered path4_distances 1 centers v) /\
    True.
Proof.
  apply (greedy_weighted_k_center_spec elements path4 path4_distances path4_weights
           1 None (λ s x, elem_of_elements s x)
           path4_weights_defined path4_distances_defined).
Defined.

End Approximation.
